(** * Moodboard canvas editor: scene operations, drag clamping, export

    A shallow embedding of the moodboard pages (builder page and project
    page) and of the two [CanvasEditor] component variants, followed by the
    properties of the scene operations, of the drag clamp, of the polygon
    clip and of the export pipeline.

    Conventions of the embedding.
    - A JavaScript [number] that holds a coordinate, a size, an angle or a
      scale factor is a rational [Q]; [Math.max] and [Math.min] are [Qmax]
      and [Qmin].  The properties of positions and sizes are about order,
      bounds and the formula the code evaluates, and are stated so that
      they do not depend on how a sum or a product is rounded; there the
      arithmetic is written exactly.  Where the rounded value itself
      decides the outcome (the quarter turns of a layer, the size of the
      canvas) the operations round to the nearest double, [Double.round].
      Infinities, NaN and overflow are outside the model.
    - An optional field ([rotation?: number]) is an [option]; [e || d] and
      [e ?? d] on such a field are [default d e].
    - [Date.now()] and [Math.random()] are inputs of the operation that
      reads them.
    - React state updaters [setX(prev => f prev)] are functions on the page
      state; a [useRef] cell is a field of the component state.
    - Konva operations the component only calls ([stage.draw],
      [stage.toDataURL]) are members of an interface, [KonvaOps]. *)

From Stdlib Require Import Ascii QArith Qminmax Qround Qpower Lqa.
From stdpp Require Import base option list strings pretty gmap.

Local Open Scope Q_scope.

(** ** JavaScript helpers *)

Module JS.

Definition Math_max (a b : Q) : Q := Qmax a b.
Definition Math_min (a b : Q) : Q := Qmin a b.

(** [arr.findIndex(p)]; [None] stands for [-1]. *)
Definition findIndex {A} (P : A → Prop) `{!∀ a, Decision (P a)}
    (arr : list A) : option nat :=
  fst <$> list_find P arr.

(** [Array.from(new Set(arr))]: first occurrences, in insertion order. *)
Fixpoint uniq (seen arr : list string) : list string :=
  match arr with
  | [] => []
  | u :: rest =>
      if decide (u ∈ seen) then uniq seen rest
      else u :: uniq (seen ++ [u]) rest
  end.

End JS.

(** ** The pages: scene state and its operations

    [ProjectViewPage] (second document of [CanvasEditor.tsx]) and the builder
    page ([part_000]) hold the scene in React state and define the same
    operations on it, word for word. *)

Module Page.

Record DraggableImage := {
  id : string;
  url : string;
  x : Q;
  y : Q;
  width : Q;
  height : Q;
  rotation : option Q;
  flipHorizontal : option bool;
}.

Record BackgroundImage := {
  bg_url : string;
  bg_x : Q;
  bg_y : Q;
  bg_width : Q;
  bg_height : Q;
  zIndex : Z;
}.

(** The [useState] cells of the page that the scene operations touch. *)
Record State := {
  selectedImageUrls : list string;
  draggableImages : list DraggableImage;
  backgroundImage : option BackgroundImage;
  selectedImageId : option string;
  exportToken : Z;
}.

Definition setSelectedImageUrls (f : list string → list string) (st : State) : State :=
  {| selectedImageUrls := f (selectedImageUrls st);
     draggableImages := draggableImages st;
     backgroundImage := backgroundImage st;
     selectedImageId := selectedImageId st;
     exportToken := exportToken st |}.

Definition setDraggableImages
    (f : list DraggableImage → list DraggableImage) (st : State) : State :=
  {| selectedImageUrls := selectedImageUrls st;
     draggableImages := f (draggableImages st);
     backgroundImage := backgroundImage st;
     selectedImageId := selectedImageId st;
     exportToken := exportToken st |}.

Definition setExportToken (f : Z → Z) (st : State) : State :=
  {| selectedImageUrls := selectedImageUrls st;
     draggableImages := draggableImages st;
     backgroundImage := backgroundImage st;
     selectedImageId := selectedImageId st;
     exportToken := f (exportToken st) |}.

Definition initial : State :=
  {| selectedImageUrls := [];
     draggableImages := [];
     backgroundImage := None;
     selectedImageId := None;
     exportToken := 0%Z |}.

(** The effect that keeps [selectedImageUrls] in step with the layers. *)
Definition syncSelectedImageUrls (st : State) : State :=
  setSelectedImageUrls (λ _, JS.uniq [] (url <$> draggableImages st)) st.

(** [getInstanceCount]: the [Map] filled by the [forEach], then the
    lookup closure. *)
Definition countMap (imgs : list DraggableImage) : gmap string nat :=
  foldl (λ m img, <[url img := (default 0 (m !! url img) + 1)%nat]> m) ∅ imgs.

Definition getInstanceCount (imgs : list DraggableImage) (u : string) : nat :=
  default 0%nat (countMap imgs !! u).

(** [addToMoodboard]; [now] is the reading of [Date.now()], [r1] and [r2]
    the two readings of [Math.random()]. *)
Definition newDraggableImage (imageUrl : string) (now : N) (r1 r2 : Q) : DraggableImage :=
  {| id := imageUrl +:+ "-" +:+ pretty now;
     url := imageUrl;
     x := r1 * 300 + 50;
     y := r2 * 200 + 50;
     width := 120;
     height := 120;
     rotation := None;
     flipHorizontal := None |}.

Definition addToMoodboard (imageUrl : string) (now : N) (r1 r2 : Q) (st : State) : State :=
  let st := setSelectedImageUrls
              (λ prev, if decide (imageUrl ∈ prev) then prev else prev ++ [imageUrl]) st in
  setDraggableImages (λ prev, prev ++ [newDraggableImage imageUrl now r1 r2]) st.

Definition removeFromMoodboard (imageUrl : string) (st : State) : State :=
  let st := setSelectedImageUrls (λ prev, filter (λ u, u ≠ imageUrl) prev) st in
  setDraggableImages (λ prev, filter (λ img, url img ≠ imageUrl) prev) st.

(** [bringToFront] and [sendToBack].  [next.splice(idx, 1)] removes the
    element at [idx] and yields it; [idx] comes from [findIndex], so the
    lookup cannot miss and the last branch is never taken. *)
Definition bringToFront_upd (imageId : string) (prev : list DraggableImage)
    : list DraggableImage :=
  match JS.findIndex (λ img, id img = imageId) prev with
  | None => prev
  | Some idx =>
      match prev !! idx with
      | Some item => delete idx prev ++ [item]
      | None => prev
      end
  end.

Definition sendToBack_upd (imageId : string) (prev : list DraggableImage)
    : list DraggableImage :=
  match JS.findIndex (λ img, id img = imageId) prev with
  | None => prev
  | Some idx =>
      match prev !! idx with
      | Some item => item :: delete idx prev
      | None => prev
      end
  end.

Definition bringToFront (imageId : string) : State → State :=
  setDraggableImages (bringToFront_upd imageId).

Definition sendToBack (imageId : string) : State → State :=
  setDraggableImages (sendToBack_upd imageId).

(** [downloadMoodboard], as far as the editor sees it: the guard and the
    bump of the export token. *)
Definition downloadMoodboard (st : State) : State :=
  if bool_decide (draggableImages st = [] ∧ backgroundImage st = None) then st
  else setExportToken (λ t, (t + 1)%Z) st.

End Page.

(** ** The canvas editor component

    What [CanvasEditor.tsx] and [part_004] have in common: both files define
    the item handlers, the polygon clip function, [doExport] and the
    export-token effect with the same text. *)

Module Editor.

Record FurnitureItem := {
  id : string;
  url : string;
  x : Q;
  y : Q;
  width : Q;
  height : Q;
  rotation : option Q;
  shadow : option bool;
  blendMode : option string;
  flipHorizontal : option bool;
}.

Record Pos := { pos_x : Q; pos_y : Q }.

Inductive MaskMode := none | brush | polygon.

#[global] Instance MaskMode_eq_dec : EqDecision MaskMode.
Proof. solve_decision. Defined.

(** The props, after the destructuring with its defaults
    ([width = 960], [height = 540], [maskMode = "none"], ...). *)
Record Props := {
  props_width : Q;
  props_height : Q;
  background : option string;
  items : list FurnitureItem;
  maskMode : MaskMode;
  brushSize : Q;
  polygonPoints : list Pos;
  onExport : bool;
  requestExportToken : option Z;
}.

(** *** Item handlers; each result is what [onItemsChange] receives *)

Definition handleDragMove (i : string) (pos : Pos) (its : list FurnitureItem)
    : list FurnitureItem :=
  (λ it, if decide (id it = i)
         then {| id := id it; url := url it;
                 x := pos_x pos; y := pos_y pos;
                 width := width it; height := height it;
                 rotation := rotation it; shadow := shadow it;
                 blendMode := blendMode it;
                 flipHorizontal := flipHorizontal it |}
         else it) <$> its.

(** The attributes of the Konva image node that [handleTransformEnd]
    reads. *)
Record ImageNode := {
  node_x : Q;
  node_y : Q;
  node_scaleX : Q;
  node_scaleY : Q;
  node_rotation : Q;
}.

(** [node.scaleX(1); node.scaleY(1)] *)
Definition resetScale (node : ImageNode) : ImageNode :=
  {| node_x := node_x node; node_y := node_y node;
     node_scaleX := 1; node_scaleY := 1;
     node_rotation := node_rotation node |}.

Definition handleTransformEnd (i : string) (node : ImageNode)
    (its : list FurnitureItem) : list FurnitureItem * ImageNode :=
  let scaleX := node_scaleX node in
  let scaleY := node_scaleY node in
  let node := resetScale node in
  let next :=
    (λ it, if decide (id it = i)
           then {| id := id it; url := url it;
                   x := node_x node; y := node_y node;
                   width := JS.Math_max 10 (width it * scaleX);
                   height := JS.Math_max 10 (height it * scaleY);
                   rotation := Some (node_rotation node);
                   shadow := shadow it; blendMode := blendMode it;
                   flipHorizontal := flipHorizontal it |}
           else it) <$> its in
  (next, node).

(** *** Polygon clip *)

Inductive PathCmd :=
| beginPath
| moveTo (px py : Q)
| lineTo (px py : Q)
| closePath.

Definition polygonKonvaPoints (pts : list Pos) : list Q :=
  pts ≫= (λ p, [pos_x p; pos_y p]).

(** The [for (let i = 2; i < pts.length; i += 2)] loop, run on the
    coordinates from index 2 on.  A trailing single coordinate would give
    [lineTo(x, undefined)], which a canvas context ignores;
    [polygonKonvaPoints] never produces one. *)
Fixpoint lineTos (pts : list Q) : list PathCmd :=
  match pts with
  | px :: py :: rest => lineTo px py :: lineTos rest
  | _ => []
  end.

Definition clipPath (pts : list Q) : list PathCmd :=
  beginPath
    :: match pts with px :: py :: _ => [moveTo px py] | _ => [] end
    ++ lineTos (drop 2 pts) ++ [closePath].

(** [itemsClipFunc()]: the drawing function it returns is the list of
    path commands it issues; [None] is [undefined].  [brushMaskImage]
    tells whether the brush snapshot exists. *)
Definition itemsClipFunc (props : Props) (brushMaskImage : bool)
    : option (list PathCmd) :=
  let pts := polygonKonvaPoints (polygonPoints props) in
  if bool_decide (maskMode props = polygon ∧ (6 ≤ length pts)%nat)
  then Some (clipPath pts)
  else if bool_decide (maskMode props = brush) && brushMaskImage
       then None
       else None.

(** *** The rendered stage tree *)

Record ImageAttrs := {
  img_id : option string;
  image : option string;
  img_x : Q;
  img_y : Q;
  img_width : Q;
  img_height : Q;
  img_rotation : Q;
  img_scaleX : Q;
  img_listening : bool;
  draggable : bool;
  dragBound : bool;
  shadowEnabled : bool;
  globalCompositeOperation : option string;
}.

#[warnings="-register-all"]
Inductive Node :=
| KonvaImage (attrs : ImageAttrs)
| Transformer (anchorSize borderStrokeWidth : Q)
| Line (points : list Q) (closed : bool)
| Rect (rx ry rw rh : Q)
| Group (clipFunc : option (list PathCmd)) (children : list Node).

Record Layer := {
  listening : bool;
  layer_clipFunc : option (list PathCmd);
  layer_children : list Node;
}.

Record StageTree := {
  stage_width : Q;
  stage_height : Q;
  layers : list Layer;
}.

(** Every clip function attached anywhere below a node or a layer. *)
Fixpoint node_clips (n : Node) : list (list PathCmd) :=
  match n with
  | Group c children =>
      option_list c ++ (fix go (ns : list Node) :=
                          match ns with
                          | [] => []
                          | m :: ms => node_clips m ++ go ms
                          end) children
  | _ => []
  end.

Definition layer_clips (l : Layer) : list (list PathCmd) :=
  option_list (layer_clipFunc l) ++ (layer_children l ≫= node_clips).

Definition stage_clips (t : StageTree) : list (list PathCmd) :=
  layers t ≫= layer_clips.

(** [useHTMLImage(url)]: the image once it has loaded, [null] before and
    after a failure; [loaded] tells which sources have resolved. *)
Definition useHTMLImage (loaded : string → bool) (u : option string)
    : option string :=
  u ≫= (λ s, if loaded s then Some s else None).

Definition backgroundLayer (loaded : string → bool) (props : Props) : Layer :=
  {| listening := bool_decide (maskMode props = brush);
     layer_clipFunc := None;
     layer_children :=
       match useHTMLImage loaded (background props) with
       | Some img =>
           [KonvaImage {| img_id := None; image := Some img;
                          img_x := 0; img_y := 0;
                          img_width := props_width props;
                          img_height := props_height props;
                          img_rotation := 0; img_scaleX := 1;
                          img_listening := false; draggable := false;
                          dragBound := false; shadowEnabled := false;
                          globalCompositeOperation := None |}]
       | None => []
       end |}.

Definition brushLayer (props : Props) : Layer :=
  {| listening := bool_decide (maskMode props = brush);
     layer_clipFunc := None;
     layer_children := [] |}.

(** The polygon authoring overlay, present in polygon mode only. *)
Definition polygonOverlay (props : Props) : list Layer :=
  if decide (maskMode props = polygon) then
    let pts := polygonKonvaPoints (polygonPoints props) in
    [{| listening := true;
        layer_clipFunc := None;
        layer_children :=
          (if bool_decide (2 ≤ length pts)%nat then [Line pts false] else [])
          ++ [Rect 0 0 (props_width props) (props_height props)] |}]
  else [].

(** [DraggableTransformableImage]; [bound] tells whether the variant
    gives the image a [dragBoundFunc] and an [id] attribute. *)
Definition DraggableTransformableImage (bound : bool)
    (loaded : string → bool) (item : FurnitureItem) : Node :=
  Group None
    [KonvaImage {| img_id := if bound then Some ("node-" +:+ id item) else None;
                   image := useHTMLImage loaded (Some (url item));
                   img_x := x item; img_y := y item;
                   img_width := width item; img_height := height item;
                   img_rotation := default 0 (rotation item);
                   img_scaleX := if default false (flipHorizontal item) then -1 else 1;
                   img_listening := true; draggable := true;
                   dragBound := bound;
                   shadowEnabled := default false (shadow item);
                   globalCompositeOperation := blendMode item |}].

End Editor.

(** ** The export pipeline ([doExport] and the export-token effect) *)

Module Exporting.

Import Editor.

(** A call either returns or throws. *)
Inductive outcome (A : Type) :=
| Ok (a : A)
| Throw (e : string).
Arguments Ok {A} a.
Arguments Throw {A} e.

(** The argument object of [stage.toDataURL]. *)
Record ToDataURLConfig := {
  pixelRatio : Q;
  mimeType : string;
  quality : option Q;
  cfg_x : Q;
  cfg_y : Q;
  cfg_width : Q;
  cfg_height : Q;
}.

(** The mounted stage as [doExport] sees it: the [visible] attribute of
    each node that [stage.find('Transformer')] returns, in that order, and
    the rest of the stage, of which the component reads nothing. *)
Record Stage (Scene : Type) := {
  scene : Scene;
  transformers : list bool;
}.
Arguments scene {Scene} s.
Arguments transformers {Scene} s.

(** The Konva calls whose result the component does not compute. *)
Class KonvaOps (Scene : Type) := {
  stage_draw : Stage Scene → outcome unit;
  stage_toDataURL : ToDataURLConfig → Stage Scene → outcome string;
}.

(** The component instance: its refs, and the calls it has made to the
    [onExport] prop, oldest first. *)
Record Component (Scene : Type) := {
  stageRef : option (Stage Scene);
  prevExportTokenRef : option Z;
  onExport_calls : list (string * string);
}.
Arguments stageRef {Scene} c.
Arguments prevExportTokenRef {Scene} c.
Arguments onExport_calls {Scene} c.

(** Component code runs in a state monad whose calls may throw; the state
    reached at the throw is kept. *)
Definition M (Scene A : Type) : Type :=
  Component Scene → outcome A * Component Scene.

Definition ret {Scene A} (a : A) : M Scene A := λ c, (Ok a, c).

Definition bind {Scene A B} (m : M Scene A) (k : A → M Scene B) : M Scene B :=
  λ c, match m c with
       | (Ok a, c') => k a c'
       | (Throw e, c') => (Throw e, c')
       end.

Declare Scope comp_scope.
Delimit Scope comp_scope with comp.
Notation "x ←' m ;; k" := (bind m (λ x, k))
  (at level 100, m at next level, right associativity) : comp_scope.
Notation "m ;;' k" := (bind m (λ _, k))
  (at level 100, right associativity) : comp_scope.
Local Open Scope comp_scope.

Section Code.
Context {Scene : Type} `{!KonvaOps Scene}.

Definition setStage (c : Component Scene) (s : Stage Scene) : Component Scene :=
  {| stageRef := Some s;
     prevExportTokenRef := prevExportTokenRef c;
     onExport_calls := onExport_calls c |}.

(** [stageRef.current] *)
Definition readStageRef : M Scene (option (Stage Scene)) :=
  λ c, (Ok (stageRef c), c).

(** Run [f] on the mounted stage; on a null stage the property access
    throws. *)
Definition onStage {A} (f : Stage Scene → outcome A * Stage Scene) : M Scene A :=
  λ c, match stageRef c with
       | Some s => let '(r, s') := f s in (r, setStage c s')
       | None => (Throw "TypeError", c)
       end.

(** [stage.find('Transformer')] with [transformers.map(t => t.visible())] *)
Definition findTransformerVisibility : M Scene (list bool) :=
  onStage (λ s, (Ok (transformers s), s)).

(** [transformers.forEach((t, i) => t.visible(f i t))] *)
Definition forEachTransformer (f : nat → bool → bool) : M Scene unit :=
  onStage (λ s, (Ok (), {| scene := scene s;
                           transformers := imap f (transformers s) |})).

Definition draw : M Scene unit :=
  onStage (λ s, (stage_draw s, s)).

Definition toDataURL (cfg : ToDataURLConfig) : M Scene string :=
  onStage (λ s, (stage_toDataURL cfg s, s)).

(** [onExport?.(dataUrlPng, dataUrlJpeg)] *)
Definition callOnExport (props : Props) (png jpeg : string) : M Scene unit :=
  λ c, if onExport props
       then (Ok (), {| stageRef := stageRef c;
                       prevExportTokenRef := prevExportTokenRef c;
                       onExport_calls := onExport_calls c ++ [(png, jpeg)] |})
       else (Ok (), c).

Definition pngConfig (props : Props) : ToDataURLConfig :=
  {| pixelRatio := 2; mimeType := "image/png"; quality := None;
     cfg_x := 0; cfg_y := 0;
     cfg_width := props_width props; cfg_height := props_height props |}.

Definition jpegConfig (props : Props) : ToDataURLConfig :=
  {| pixelRatio := 2; mimeType := "image/jpeg"; quality := Some (95 # 100);
     cfg_x := 0; cfg_y := 0;
     cfg_width := props_width props; cfg_height := props_height props |}.

Definition doExport (props : Props) : M Scene unit :=
  stage ←' readStageRef ;;
  match stage with
  | None => ret ()
  | Some _ =>
      prevVisibility ←' findTransformerVisibility ;;
      forEachTransformer (λ _ _, false) ;;'
      draw ;;'
      dataUrlPng ←' toDataURL (pngConfig props) ;;
      dataUrlJpeg ←' toDataURL (jpegConfig props) ;;
      forEachTransformer (λ i t, default t (prevVisibility !! i)) ;;'
      draw ;;'
      callOnExport props dataUrlPng dataUrlJpeg
  end.

Definition writePrevExportTokenRef (v : option Z) : M Scene unit :=
  λ c, (Ok (), {| stageRef := stageRef c;
                  prevExportTokenRef := v;
                  onExport_calls := onExport_calls c |}).

(** The effect with dependencies [[requestExportToken, doExport]]. *)
Definition exportEffect (props : Props) : M Scene unit :=
  let token := requestExportToken props in
  λ c, match prevExportTokenRef c with
       | None => writePrevExportTokenRef token c
       | Some prev =>
           match token with
           | Some t =>
               if decide (t ≠ prev)
               then (writePrevExportTokenRef (Some t) ;;' doExport props) c
               else (Ok (), c)
           | None => (Ok (), c)
           end
       end.

(** The effect runs of one mounted component: one run per render in
    which a dependency changed, first render included. *)
Fixpoint runEffects (renders : list Props) : M Scene unit :=
  match renders with
  | [] => ret ()
  | props :: rest => exportEffect props ;;' runEffects rest
  end.

(** A freshly mounted component around a stage. *)
Definition mount (s : Stage Scene) : Component Scene :=
  {| stageRef := Some s; prevExportTokenRef := None; onExport_calls := [] |}.

(** The stage with every transformer hidden, as it is between the two
    [forEach] loops of [doExport]. *)
Definition hidden (s : Stage Scene) : Stage Scene :=
  {| scene := scene s; transformers := imap (λ _ _, false) (transformers s) |}.

End Code.

(** The props of a render that differs from [props] in the export token
    only. *)
Definition withToken (props : Props) (token : option Z) : Props :=
  {| props_width := props_width props;
     props_height := props_height props;
     background := background props;
     items := items props;
     maskMode := maskMode props;
     brushSize := brushSize props;
     polygonPoints := polygonPoints props;
     onExport := onExport props;
     requestExportToken := token |}.

(** How often a sequence of values changes: the number of positions,
    the first apart, whose value differs from the one just before. *)
Fixpoint changesAfter {A} `{EqDecision A} (prev : A) (vs : list A) : nat :=
  match vs with
  | [] => 0
  | v :: rest => (if decide (v ≠ prev) then 1 else 0) + changesAfter v rest
  end.

Definition changes {A} `{EqDecision A} (vs : list A) : nat :=
  match vs with
  | [] => 0
  | v :: rest => changesAfter v rest
  end.

(** The numeric values among the observed tokens, in order. *)
Definition numeric (tokens : list (option Z)) : list Z :=
  omap (λ token, token) tokens.

End Exporting.

(** ** Variant A: [CanvasEditor.tsx]

    The stage has the size of the canvas, one shared [Transformer] sits in
    the items layer, and every image has a [dragBoundFunc]. *)

Module VariantA.

Import Editor.

Definition stageWidth (props : Props) : Q := props_width props.
Definition stageHeight (props : Props) : Q := props_height props.

Definition itemsLayer (loaded : string → bool) (isMobile : bool)
    (props : Props) : Layer :=
  {| listening := true;
     layer_clipFunc := None;
     layer_children :=
       (DraggableTransformableImage true loaded <$> items props)
       ++ [Transformer (if isMobile then 20 else 8) (if isMobile then 3 else 1)] |}.

Definition render (loaded : string → bool) (isMobile : bool)
    (props : Props) : StageTree :=
  {| stage_width := stageWidth props;
     stage_height := stageHeight props;
     layers := [backgroundLayer loaded props; itemsLayer loaded isMobile props;
                brushLayer props] ++ polygonOverlay props |}.

(** [dragBoundFunc] of the image of [item]; [stage] is
    [ref.current?.getStage()], and [stage?.width() || 0] is [0] without a
    stage. *)
Definition dragBoundFunc (stage : option StageTree) (item : FurnitureItem)
    (pos : Pos) : Pos :=
  let stageWidth := default 0 (stage_width <$> stage) in
  let stageHeight := default 0 (stage_height <$> stage) in
  let maxX := JS.Math_max 0 (stageWidth - width item) in
  let maxY := JS.Math_max 0 (stageHeight - height item) in
  let clampedX := JS.Math_min (JS.Math_max 0 (pos_x pos)) maxX in
  let clampedY := JS.Math_min (JS.Math_max 0 (pos_y pos)) maxY in
  {| pos_x := clampedX; pos_y := clampedY |}.

(** One [dragmove] of the image rendered for [items[k]], the pointer
    asking for position [pos].  Konva moves the node to
    [dragBoundFunc(pos)] and then fires [onDragMove], whose
    [e.target.position()] is that position: neither the stage nor the
    [Group] around the image carries a transform. *)
Definition dragMove (loaded : string → bool) (isMobile : bool)
    (props : Props) (k : nat) (pos : Pos) : list FurnitureItem :=
  match items props !! k with
  | Some item =>
      let stage := render loaded isMobile props in
      handleDragMove (id item) (dragBoundFunc (Some stage) item pos) (items props)
  | None => items props
  end.

End VariantA.

(** ** Variant B: [part_004]

    The stage is larger than the canvas, every image gets a [Transformer]
    of its own from an effect, and no image has a [dragBoundFunc]. *)

Module VariantB.

Import Editor.

Definition stageWidth (props : Props) : Q := JS.Math_max (props_width props * (15 # 10)) 1440.
Definition stageHeight (props : Props) : Q := JS.Math_max (props_height props * (15 # 10)) 810.

Definition itemsLayer (loaded : string → bool) (props : Props) : Layer :=
  {| listening := true;
     layer_clipFunc := None;
     layer_children :=
       (DraggableTransformableImage false loaded <$> items props)
       ++ ((λ _, Transformer 8 1) <$> items props) |}.

Definition render (loaded : string → bool) (props : Props) : StageTree :=
  {| stage_width := stageWidth props;
     stage_height := stageHeight props;
     layers := [backgroundLayer loaded props; itemsLayer loaded props;
                brushLayer props] ++ polygonOverlay props |}.

(** One [dragmove] of the image rendered for [items[k]]: without a
    [dragBoundFunc] the node is where the pointer asks. *)
Definition dragMove (props : Props) (k : nat) (pos : Pos) : list FurnitureItem :=
  match items props !! k with
  | Some item => handleDragMove (id item) pos (items props)
  | None => items props
  end.

End VariantB.

(** ** The page around the editor: the [CanvasEditor] element of both pages *)

Module Wiring.

(** [items={draggableImages.map(d => ({ ... }))}] *)
Definition toItem (d : Page.DraggableImage) : Editor.FurnitureItem :=
  {| Editor.id := Page.id d;
     Editor.url := Page.url d;
     Editor.x := Page.x d;
     Editor.y := Page.y d;
     Editor.width := Page.width d;
     Editor.height := Page.height d;
     Editor.rotation := Some (default 0 (Page.rotation d));
     Editor.shadow := None;
     Editor.blendMode := None;
     Editor.flipHorizontal := Some (default false (Page.flipHorizontal d)) |}.

(** [onItemsChange={(next) => setDraggableImages(next.map(n => ({ ... })))}] *)
Definition ofItem (n : Editor.FurnitureItem) : Page.DraggableImage :=
  {| Page.id := Editor.id n;
     Page.url := Editor.url n;
     Page.x := Editor.x n;
     Page.y := Editor.y n;
     Page.width := Editor.width n;
     Page.height := Editor.height n;
     Page.rotation := Editor.rotation n;
     Page.flipHorizontal := Editor.flipHorizontal n |}.

Definition onItemsChange (next : list Editor.FurnitureItem) : Page.State → Page.State :=
  Page.setDraggableImages (λ _, ofItem <$> next).

(** What the page does not hold in [Page.State]: the measured canvas size
    and the mask controls (the project page passes [maskMode="none"] and
    no points). *)
Record Canvas := {
  canvasWidth : Q;
  canvasHeight : Q;
  canvasMaskMode : Editor.MaskMode;
  canvasBrushSize : Q;
  canvasPolygonPoints : list Editor.Pos;
}.

Definition props (cv : Canvas) (st : Page.State) : Editor.Props :=
  {| Editor.props_width := canvasWidth cv;
     Editor.props_height := canvasHeight cv;
     Editor.background := Page.bg_url <$> Page.backgroundImage st;
     Editor.items := toItem <$> Page.draggableImages st;
     Editor.maskMode := canvasMaskMode cv;
     Editor.brushSize := canvasBrushSize cv;
     Editor.polygonPoints := canvasPolygonPoints cv;
     Editor.onExport := true;
     Editor.requestExportToken := Some (Page.exportToken st) |}.

(** A drag of layer [k] seen from the page, in each variant. *)
Definition dragLayerA (loaded : string → bool) (isMobile : bool) (cv : Canvas)
    (k : nat) (pos : Editor.Pos) (st : Page.State) : Page.State :=
  onItemsChange (VariantA.dragMove loaded isMobile (props cv st) k pos) st.

Definition dragLayerB (cv : Canvas) (k : nat) (pos : Editor.Pos)
    (st : Page.State) : Page.State :=
  onItemsChange (VariantB.dragMove (props cv st) k pos) st.

(** A sequence of drags: (layer index, requested position) pairs. *)
Definition dragsA (loaded : string → bool) (isMobile : bool) (cv : Canvas)
    (ds : list (nat * Editor.Pos)) (st : Page.State) : Page.State :=
  foldl (λ st d, dragLayerA loaded isMobile cv d.1 d.2 st) st ds.

Definition dragsB (cv : Canvas) (ds : list (nat * Editor.Pos))
    (st : Page.State) : Page.State :=
  foldl (λ st d, dragLayerB cv d.1 d.2 st) st ds.

(** The end of a resize or rotate gesture on layer [k], seen from the
    page; [node] is the state of the Konva node when the gesture ends. *)
Definition resizeLayer (cv : Canvas) (k : nat) (node : Editor.ImageNode)
    (st : Page.State) : Page.State :=
  let its := Editor.items (props cv st) in
  match its !! k with
  | Some item => onItemsChange (Editor.handleTransformEnd (Editor.id item) node its).1 st
  | None => st
  end.

(** Where a layer may lie.  [inBounds]: inside the canvas.  [clamped]:
    inside the range that [dragBoundFunc] allows on a stage of the size of
    the canvas.  [fits]: no larger than the canvas. *)
Definition inBounds (cv : Canvas) (d : Page.DraggableImage) : Prop :=
  0 <= Page.x d <= canvasWidth cv - Page.width d
  ∧ 0 <= Page.y d <= canvasHeight cv - Page.height d.

Definition clamped (cv : Canvas) (d : Page.DraggableImage) : Prop :=
  0 <= Page.x d <= JS.Math_max 0 (canvasWidth cv - Page.width d)
  ∧ 0 <= Page.y d <= JS.Math_max 0 (canvasHeight cv - Page.height d).

Definition fits (cv : Canvas) (d : Page.DraggableImage) : Prop :=
  Page.width d <= canvasWidth cv ∧ Page.height d <= canvasHeight cv.

End Wiring.

(** ** Sample scenes and stages *)

Module Samples.

Definition sofa : string := "https://cdn.example/sofa.png".
Definition lamp : string := "https://cdn.example/lamp.png".

Definition layer (i u : string) (px py w h : Q) : Page.DraggableImage :=
  {| Page.id := i; Page.url := u; Page.x := px; Page.y := py;
     Page.width := w; Page.height := h;
     Page.rotation := None; Page.flipHorizontal := None |}.

Definition layerA := layer "sofa-1" sofa 50 60 120 120.
Definition layerB := layer "lamp-2" lamp 300 200 120 120.
Definition layerC := layer "sofa-3" sofa 400 100 120 120.
Definition wide := layer "rug-4" "https://cdn.example/rug.png" 10 10 1200 700.

Definition scene (imgs : list Page.DraggableImage) : Page.State :=
  {| Page.selectedImageUrls := JS.uniq [] (Page.url <$> imgs);
     Page.draggableImages := imgs;
     Page.backgroundImage := None;
     Page.selectedImageId := None;
     Page.exportToken := 0%Z |}.

Definition abc : Page.State := scene [layerA; layerB; layerC].

Definition canvas : Wiring.Canvas :=
  {| Wiring.canvasWidth := 960; Wiring.canvasHeight := 540;
     Wiring.canvasMaskMode := Editor.none; Wiring.canvasBrushSize := 24;
     Wiring.canvasPolygonPoints := [] |}.

(** A triangle in the top left corner of the canvas. *)
Definition triangle : list Editor.Pos :=
  [ {| Editor.pos_x := 0; Editor.pos_y := 0 |};
    {| Editor.pos_x := 100; Editor.pos_y := 0 |};
    {| Editor.pos_x := 0; Editor.pos_y := 100 |} ].

Definition lasso : Wiring.Canvas :=
  {| Wiring.canvasWidth := 960; Wiring.canvasHeight := 540;
     Wiring.canvasMaskMode := Editor.polygon; Wiring.canvasBrushSize := 24;
     Wiring.canvasPolygonPoints := triangle |}.

Definition allLoaded (_ : string) : bool := true.

(** The pointer asks for a position left of and below the canvas. *)
Definition outside : Editor.Pos := {| Editor.pos_x := -30; Editor.pos_y := 1000 |}.

(** The node at the end of a gesture that shrinks the width to a
    hundredth, doubles the height and turns to 45 degrees. *)
Definition squeezed : Editor.ImageNode :=
  {| Editor.node_x := 55; Editor.node_y := 65;
     Editor.node_scaleX := 1 # 100; Editor.node_scaleY := 2;
     Editor.node_rotation := 45 |}.

(** A stage whose scene is a painted/unpainted map of the plane, with a
    rasterizer that looks at the top left point of the rectangle it is
    asked for. *)
Definition Paint : Type := Q → Q → bool.

Definition sample (cfg : Exporting.ToDataURLConfig) (s : Exporting.Stage Paint) : string :=
  if Qlt_le_dec 0 (Exporting.cfg_width cfg) then
    if Qlt_le_dec 0 (Exporting.cfg_height cfg) then
      if Exporting.scene s (Exporting.cfg_x cfg) (Exporting.cfg_y cfg)
      then "painted" else "blank"
    else "empty"
  else "empty".

Definition rasterizer : Exporting.KonvaOps Paint :=
  {| Exporting.stage_draw := λ _, Exporting.Ok ();
     Exporting.stage_toDataURL := λ cfg s,
       Exporting.Ok ("data:" +:+ Exporting.mimeType cfg +:+ "," +:+ sample cfg s) |}.

(** The same stage on a canvas that cross-origin pixels have tainted:
    reading it back throws. *)
Definition tainted : Exporting.KonvaOps Paint :=
  {| Exporting.stage_draw := λ _, Exporting.Ok ();
     Exporting.stage_toDataURL := λ _ _, Exporting.Throw "SecurityError" |}.

Definition stage : Exporting.Stage Paint :=
  {| Exporting.scene := λ px py, if Qlt_le_dec px 100 then true else false;
     Exporting.transformers := [true] |}.

Definition editorProps : Editor.Props := Wiring.props canvas abc.

End Samples.

(** ** Double-precision arithmetic

    A JavaScript arithmetic operation returns the double nearest to the
    exact result, ties going to the even significand.  [round] is that
    rounding on the rationals: a double is [m * 2^e] with [|m| < 2^53] and
    [-1074 <= e] (the subnormals have [e = -1074]); results beyond the
    largest double are outside the model. *)

Module Double.

Definition pow2 (e : Z) : Q := 2 ^ e.

(** The integer nearest to [x], the even one of the two at a tie. *)
Definition nearestEven (x : Q) : Z :=
  let f := Qfloor x in
  match Qcompare (x - inject_Z f) (1 # 2) with
  | Lt => f
  | Gt => (f + 1)%Z
  | Eq => if Z.even f then f else (f + 1)%Z
  end.

(** The exponent of the last place of a positive [q]: the [e] with
    [2^52 <= q / 2^e < 2^53], and [-1074] below the normal range. *)
Definition exponent (q : Q) : Z :=
  let e0 := (Z.log2 (Qnum q) - Z.log2 (Zpos (Qden q)) - 52)%Z in
  Z.max (if Qlt_le_dec (q * pow2 (- e0)) (pow2 52) then e0 - 1 else e0) (-1074).

Definition roundPositive (q : Q) : Q :=
  let e := exponent q in inject_Z (nearestEven (q * pow2 (- e))) * pow2 e.

Definition round (q : Q) : Q :=
  let q := Qred q in
  Qred match Qnum q with
       | Z0 => 0
       | Zpos _ => roundPositive q
       | Zneg _ => - roundPositive (- q)
       end.

Arguments round : simpl never.

End Double.

(** ** The pages, continued: per-layer actions, removal, clearing *)

Module PageOps.

Import Page.

(** [arr.find(p)] *)
Definition find {A} (P : A → Prop) `{!∀ a, Decision (P a)}
    (arr : list A) : option A :=
  snd <$> list_find P arr.

(** [arr.some(p)] *)
Definition some {A} (P : A → Prop) `{!∀ a, Decision (P a)}
    (arr : list A) : bool :=
  bool_decide (Exists P arr).

Definition setSelectedImageId (v : option string) (st : State) : State :=
  {| selectedImageUrls := selectedImageUrls st;
     draggableImages := draggableImages st;
     backgroundImage := backgroundImage st;
     selectedImageId := v;
     exportToken := exportToken st |}.

Definition setBackgroundImage
    (f : option BackgroundImage → option BackgroundImage) (st : State) : State :=
  {| selectedImageUrls := selectedImageUrls st;
     draggableImages := draggableImages st;
     backgroundImage := f (backgroundImage st);
     selectedImageId := selectedImageId st;
     exportToken := exportToken st |}.

(** [{ ...img, rotation: r }] and [{ ...img, flipHorizontal: f }] *)
Definition withRotation (img : DraggableImage) (r : Q) : DraggableImage :=
  {| id := id img; url := url img; x := x img; y := y img;
     width := width img; height := height img;
     rotation := Some r; flipHorizontal := flipHorizontal img |}.

Definition withFlip (img : DraggableImage) (f : bool) : DraggableImage :=
  {| id := id img; url := url img; x := x img; y := y img;
     width := width img; height := height img;
     rotation := rotation img; flipHorizontal := Some f |}.

Definition rotateImageLeft (imageId : string) : State → State :=
  setDraggableImages (λ prev,
    (λ img, if decide (id img = imageId)
            then withRotation img (Double.round (default 0 (rotation img) - 90))
            else img) <$> prev).

Definition rotateImageRight (imageId : string) : State → State :=
  setDraggableImages (λ prev,
    (λ img, if decide (id img = imageId)
            then withRotation img (Double.round (default 0 (rotation img) + 90))
            else img) <$> prev).

Definition flipImageHorizontal (imageId : string) : State → State :=
  setDraggableImages (λ prev,
    (λ img, if decide (id img = imageId)
            then withFlip img (negb (default false (flipHorizontal img)))
            else img) <$> prev).

(** A rotation that is a whole number of degrees, at most [2^52] in size;
    an unset rotation counts as 0. *)
Definition wholeDegrees (r : option Q) : Prop :=
  ∃ z : Z, (Z.abs z ≤ 2 ^ 52)%Z ∧ default 0 r == inject_Z z.

(** Two layers that differ at most in rotation and flip. *)
Definition sameBox (d d' : DraggableImage) : Prop :=
  id d' = id d ∧ url d' = url d ∧ x d' = x d ∧ y d' = y d
  ∧ width d' = width d ∧ height d' = height d.

(** Two layers that differ at most in position. *)
Definition sameExceptPosition (d d' : DraggableImage) : Prop :=
  id d' = id d ∧ url d' = url d ∧ width d' = width d ∧ height d' = height d
  ∧ rotation d' = rotation d ∧ flipHorizontal d' = flipHorizontal d.

(** The selected URLs are what the sync effect would compute. *)
Definition synced (st : State) : Prop :=
  selectedImageUrls st = JS.uniq [] (url <$> draggableImages st).

(** [removeImage] of the project page and of the first builder page: by id.
    [remainingImages] and [urlToCheck] are computed from the layers of the
    render in which the handler was created, here the current state;
    [urlToCheck && ...] is false for an empty url. *)
Definition removeImage (imageId : string) (st : State) : State :=
  let shown := draggableImages st in
  let st := setDraggableImages (λ prev, filter (λ img, id img ≠ imageId) prev) st in
  let remainingImages := filter (λ img, id img ≠ imageId) shown in
  let urlToCheck := url <$> find (λ img, id img = imageId) shown in
  let st :=
    match urlToCheck with
    | Some u =>
        if bool_decide (u ≠ "") && negb (some (λ img, url img = u) remainingImages)
        then setSelectedImageUrls (λ prev, filter (λ v, v ≠ u) prev) st
        else st
    | None => st
    end in
  setSelectedImageId None st.

(** [removeImage] of the second builder page: by the url of the layer. *)
Definition removeImageByUrl (imageId : string) (st : State) : State :=
  match find (λ img, id img = imageId) (draggableImages st) with
  | Some image => setSelectedImageId None (removeFromMoodboard (url image) st)
  | None => st
  end.

Definition removeBackgroundImage : State → State :=
  setBackgroundImage (λ _, None).

(** [clearMoodboard]; [confirmed] is the answer to the [confirm] dialog. *)
Definition clearMoodboard (confirmed : bool) (st : State) : State :=
  if confirmed
  then setSelectedImageId None
         (setBackgroundImage (λ _, None) (setDraggableImages (λ _, []) st))
  else st.

(** [updateBackgroundSize] and [updateBackgroundLayer] of the second
    builder page. *)
Definition updateBackgroundSize (w h : Q) (st : State) : State :=
  match backgroundImage st with
  | None => st
  | Some bg =>
      setBackgroundImage (λ _, Some {| bg_url := bg_url bg; bg_x := bg_x bg;
                                       bg_y := bg_y bg; bg_width := w;
                                       bg_height := h; zIndex := zIndex bg |}) st
  end.

Definition updateBackgroundLayer (z : Z) (st : State) : State :=
  match backgroundImage st with
  | None => st
  | Some bg =>
      setBackgroundImage (λ _, Some {| bg_url := bg_url bg; bg_x := bg_x bg;
                                       bg_y := bg_y bg; bg_width := bg_width bg;
                                       bg_height := bg_height bg; zIndex := z |}) st
  end.

(** *** The download payload

    [productCountMap] is a [Map]: [set] on a present key keeps the key in
    its place, on a new key appends it; [entries()] goes in that order. *)
Fixpoint Map_set (k : string) (v : nat) (m : list (string * nat))
    : list (string * nat) :=
  match m with
  | [] => [(k, v)]
  | (k', v') :: rest =>
      if decide (k' = k) then (k, v) :: rest else (k', v') :: Map_set k v rest
  end.

Fixpoint Map_get (k : string) (m : list (string * nat)) : option nat :=
  match m with
  | [] => None
  | (k', v') :: rest => if decide (k' = k) then Some v' else Map_get k rest
  end.

Definition productCountMap (imgs : list DraggableImage) : list (string * nat) :=
  foldl (λ m img, Map_set (url img) (default 0 (Map_get (url img) m) + 1)%nat m)
        [] imgs.

(** A scraped product, with the fields the payload reads; a missing field
    is [None]. *)
Record ScrapedProduct := {
  sp_image : string;
  sp_productName : option string;
  sp_itemCode : option string;
  sp_price : option string;
}.

Record PayloadProduct := {
  pp_image : string;
  pp_productName : string;
  pp_itemCode : string;
  pp_price : string;
  pp_quantity : nat;
}.

Definition payloadProducts (scraped : list ScrapedProduct)
    (imgs : list DraggableImage) : list PayloadProduct :=
  (λ '(imageUrl, quantity),
     let product := find (λ p, sp_image p = imageUrl) scraped in
     {| pp_image := imageUrl;
        pp_productName := default "" (product ≫= sp_productName);
        pp_itemCode := default "" (product ≫= sp_itemCode);
        pp_price := default "" (product ≫= sp_price);
        pp_quantity := quantity |}) <$> productCountMap imgs.

(** [downloadMoodboard] of the project page and of the first builder page:
    the body posted to [/api/moodboard-webhook], if any, and the next
    state. *)
Definition downloadMoodboardWithPayload (scraped : list ScrapedProduct)
    (st : State) : option (list PayloadProduct) * State :=
  if bool_decide (draggableImages st = [] ∧ backgroundImage st = None)
  then (None, st)
  else (Some (payloadProducts scraped (draggableImages st)),
        setExportToken (λ t, (t + 1)%Z) st).

(** The states rendered while the user clicks the download button [n]
    times and nothing else happens, the state before the first click
    included. *)
Fixpoint downloads (n : nat) (st : State) : list State :=
  st :: match n with
        | O => []
        | S n => downloads n (downloadMoodboard st)
        end.

End PageOps.

(** ** The builder pages: pointer drag of layers and of the background,
    canvas sizing *)

Module Builder.

Import Page.

(** [getBoundingClientRect()] of the moodboard container. *)
Record DOMRect := {
  rect_left : Q;
  rect_top : Q;
  rect_width : Q;
  rect_height : Q;
}.

Record MouseEvent := { clientX : Q; clientY : Q }.

Record Offset := { off_x : Q; off_y : Q }.

(** The page state together with the drag cells of the builder pages. *)
Record State := {
  page : Page.State;
  draggedImage : option string;
  dragOffset : Offset;
  isDraggingBackground : bool;
  backgroundDragOffset : Offset;
}.

Definition idle (st : Page.State) : State :=
  {| page := st;
     draggedImage := None;
     dragOffset := {| off_x := 0; off_y := 0 |};
     isDraggingBackground := false;
     backgroundDragOffset := {| off_x := 0; off_y := 0 |} |}.

Definition setPage (f : Page.State → Page.State) (st : State) : State :=
  {| page := f (page st);
     draggedImage := draggedImage st;
     dragOffset := dragOffset st;
     isDraggingBackground := isDraggingBackground st;
     backgroundDragOffset := backgroundDragOffset st |}.

(** [if (draggedImage)]: set, and not the empty string. *)
Definition truthy (v : option string) : bool :=
  match v with
  | Some s => bool_decide (s ≠ "")
  | None => false
  end.

Definition handleMouseDown (rect : option DOMRect) (e : MouseEvent)
    (imageId : string) (st : State) : State :=
  match rect with
  | None => st
  | Some rect =>
      match PageOps.find (λ img, id img = imageId) (draggableImages (page st)) with
      | None => st
      | Some image =>
          {| page := page st;
             draggedImage := Some imageId;
             dragOffset := {| off_x := clientX e - rect_left rect - x image;
                              off_y := clientY e - rect_top rect - y image |};
             isDraggingBackground := isDraggingBackground st;
             backgroundDragOffset := backgroundDragOffset st |}
      end
  end.

Definition handleBackgroundMouseDown (rect : option DOMRect) (e : MouseEvent)
    (st : State) : State :=
  match rect, backgroundImage (page st) with
  | Some rect, Some bg =>
      {| page := page st;
         draggedImage := draggedImage st;
         dragOffset := dragOffset st;
         isDraggingBackground := true;
         backgroundDragOffset :=
           {| off_x := clientX e - rect_left rect - bg_x bg;
              off_y := clientY e - rect_top rect - bg_y bg |} |}
  | _, _ => st
  end.

Definition moveImage (img : DraggableImage) (newX newY : Q) (rect : DOMRect)
    : DraggableImage :=
  {| id := id img; url := url img;
     x := JS.Math_max 0 (JS.Math_min newX (rect_width rect - width img));
     y := JS.Math_max 0 (JS.Math_min newY (rect_height rect - height img));
     width := width img; height := height img;
     rotation := rotation img; flipHorizontal := flipHorizontal img |}.

Definition moveBackground (prev : BackgroundImage) (newX newY : Q) (rect : DOMRect)
    : BackgroundImage :=
  {| bg_url := bg_url prev;
     bg_x := JS.Math_max (- bg_width prev / 2)
               (JS.Math_min newX (rect_width rect - bg_width prev / 2));
     bg_y := JS.Math_max (- bg_height prev / 2)
               (JS.Math_min newY (rect_height rect - bg_height prev / 2));
     bg_width := bg_width prev; bg_height := bg_height prev;
     zIndex := zIndex prev |}.

Definition handleMouseMove (rect : option DOMRect) (e : MouseEvent)
    (st : State) : State :=
  match rect with
  | None => st
  | Some rect =>
      if truthy (draggedImage st) then
        let newX := clientX e - rect_left rect - off_x (dragOffset st) in
        let newY := clientY e - rect_top rect - off_y (dragOffset st) in
        setPage (setDraggableImages (λ prev,
          (λ img, if decide (Some (id img) = draggedImage st)
                  then moveImage img newX newY rect
                  else img) <$> prev)) st
      else if isDraggingBackground st && bool_decide (is_Some (backgroundImage (page st)))
      then
        let newX := clientX e - rect_left rect - off_x (backgroundDragOffset st) in
        let newY := clientY e - rect_top rect - off_y (backgroundDragOffset st) in
        setPage (PageOps.setBackgroundImage
                   (λ prev, (λ bg, moveBackground bg newX newY rect) <$> prev)) st
      else st
  end.

Definition handleMouseUp (st : State) : State :=
  {| page := page st;
     draggedImage := None;
     dragOffset := {| off_x := 0; off_y := 0 |};
     isDraggingBackground := false;
     backgroundDragOffset := {| off_x := 0; off_y := 0 |} |}.

(** The background set by [reader.onload] in [handleBackgroundUpload]. *)
Definition uploadedBackground (dataUrl : string) (rect : option DOMRect)
    : BackgroundImage :=
  {| bg_url := dataUrl;
     bg_x := match rect with Some r => rect_width r / 2 - 200 | None => 100 end;
     bg_y := match rect with Some r => rect_height r / 2 - 150 | None => 100 end;
     bg_width := 400; bg_height := 300; zIndex := (-1)%Z |}.

(** [updateCanvasSize]: the next value of the [canvasSize] cell.  The
    quotient [16 / 9], the division and the multiplication round to the
    nearest double; the comparison and [Math.floor] are exact. *)
Definition updateCanvasSize (rect : option DOMRect) (canvasSize : Z * Z) : Z * Z :=
  match rect with
  | None => canvasSize
  | Some rect =>
      let aspectRatio := Double.round (16 / 9) in
      let width := rect_width rect in
      let height := Double.round (width / aspectRatio) in
      let '(width, height) :=
        if Qlt_le_dec height (rect_height rect)
        then (Double.round (rect_height rect * aspectRatio), rect_height rect)
        else (width, height) in
      (Qfloor width, Qfloor height)
  end.

End Builder.

(** ** The editor, continued: image requests, the remaining item
    handlers, polygon authoring *)

Module EditorOps.

Import Editor.

(** [url.startsWith(prefix)] *)
Definition startsWith (s prefix : string) : bool := String.prefix prefix s.

(** What the effect of [useHTMLImage] asks the browser for. *)
Record ImageRequest := {
  crossOrigin : option string;
  src : string;
}.

(** The effect of [useHTMLImage(url)]: [None] when it sets the image to
    [null] without asking for anything ([!url]: no url, or the empty one).
    [encodeURIComponent] is the platform function. *)
Definition imageRequest (encodeURIComponent : string → string)
    (url : option string) : option ImageRequest :=
  match url with
  | None => None
  | Some url =>
      if decide (url = "") then None
      else
        let isHttp := startsWith url "http://" || startsWith url "https://" in
        let isAlreadyProxied := startsWith url "/api/proxy-image" in
        if isAlreadyProxied || isHttp
        then Some {| crossOrigin := Some "anonymous";
                     src := if isAlreadyProxied then url
                            else "/api/proxy-image?url=" +:+ encodeURIComponent url |}
        else Some {| crossOrigin := None; src := url |}
  end.

Definition handleToggleShadow (i : string) (its : list FurnitureItem)
    : list FurnitureItem :=
  (λ it, if decide (id it = i)
         then {| id := id it; url := url it; x := x it; y := y it;
                 width := width it; height := height it;
                 rotation := rotation it;
                 shadow := Some (negb (default false (shadow it)));
                 blendMode := blendMode it;
                 flipHorizontal := flipHorizontal it |}
         else it) <$> its.

Definition handleBlendMode (i : string) (mode : string)
    (its : list FurnitureItem) : list FurnitureItem :=
  (λ it, if decide (id it = i)
         then {| id := id it; url := url it; x := x it; y := y it;
                 width := width it; height := height it;
                 rotation := rotation it; shadow := shadow it;
                 blendMode := Some mode;
                 flipHorizontal := flipHorizontal it |}
         else it) <$> its.

(** The [onClick] of the polygon overlay: what [onPolygonPointsChange]
    receives, or the points as they are when the stage reports no pointer
    position. *)
Definition polygonClick (pointer : option Pos) (polygonPoints : list Pos)
    : list Pos :=
  match pointer with
  | None => polygonPoints
  | Some pos => polygonPoints ++ [{| pos_x := pos_x pos; pos_y := pos_y pos |}]
  end.

(** The attributes of every image node of a rendered stage, groups
    included, in drawing order. *)
Fixpoint node_images (n : Node) : list ImageAttrs :=
  match n with
  | KonvaImage attrs => [attrs]
  | Group _ children =>
      (fix go (ns : list Node) :=
         match ns with
         | [] => []
         | m :: ms => node_images m ++ go ms
         end) children
  | _ => []
  end.

Definition stage_images (t : StageTree) : list ImageAttrs :=
  layers t ≫= (λ l, layer_children l ≫= node_images).

End EditorOps.

(** ** The product cache ([productsCache.ts]) *)

Module ProductsCache.

Record RawProduct := {
  raw_image : string;
  raw_productName : string;
  raw_itemCode : string;
  raw_price : string;
}.

Record Product := {
  id : Z;
  image : string;
  productName : string;
  itemCode : string;
  price : string;
}.

(** The two module variables; [inflight] tells whether a promise is
    stored. *)
Record Cache := {
  cachedProducts : option (list Product);
  inflight : bool;
}.

Definition empty : Cache := {| cachedProducts := None; inflight := false |}.

Definition getCachedProducts (c : Cache) : option (list Product) :=
  cachedProducts c.

(** How the request of [loadProductsOnce] ends: [fetch] or [res.json()]
    rejects, or a body arrives; [body_products] is [data.products] when it is
    an array. *)
Inductive Fetched :=
| Rejected
| Body (ok success : bool) (body_products : option (list RawProduct)).

(** [data.products.map((p, i) => ({ id: Date.now() + i, ... }))];
    [clock i] is the reading of [Date.now()] in the call for index [i]. *)
Definition withIds (clock : nat → Z) (products : list RawProduct) : list Product :=
  imap (λ i p, {| id := (clock i + Z.of_nat i)%Z;
                  image := raw_image p;
                  productName := raw_productName p;
                  itemCode := raw_itemCode p;
                  price := raw_price p |}) products.

(** What a call of [loadProductsOnce] returns at once: a promise fulfilled
    with the cached list, or the pending promise. *)
Inductive Returned :=
| Fulfilled (products : list Product)
| Pending.

(** A call of [loadProductsOnce] up to its first [await]: the promise it
    returns, whether it issued a [fetch], and the cache. *)
Definition loadProductsOnce (c : Cache) : Returned * bool * Cache :=
  match cachedProducts c with
  | Some products => (Fulfilled products, false, c)
  | None =>
      if inflight c then (Pending, false, c)
      else (Pending, true, {| cachedProducts := None; inflight := true |})
  end.

(** The rest of the async body, run when the request ends: what the
    pending promise settles to ([None]: it rejects) and the cache. *)
Definition settle (clock : nat → Z) (r : Fetched) (c : Cache)
    : option (list Product) * Cache :=
  match r with
  | Rejected =>
      (None, {| cachedProducts := cachedProducts c; inflight := false |})
  | Body ok success body_products =>
      match body_products with
      | Some products =>
          if ok && success
          then let withIds := withIds clock products in
               (Some withIds, {| cachedProducts := Some withIds; inflight := false |})
          else (Some [], {| cachedProducts := Some []; inflight := false |})
      | None => (Some [], {| cachedProducts := Some []; inflight := false |})
      end
  end.

(** What happens to the module over time: calls, and ends of the pending
    request (which only happen while one is pending). *)
Inductive Event :=
| Call
| Ends (clock : nat → Z) (r : Fetched).

Definition step (c : Cache) (e : Event) : Cache * nat :=
  match e with
  | Call => let '(_, fetched, c') := loadProductsOnce c in
            (c', if fetched then 1%nat else 0%nat)
  | Ends clock r => if inflight c then ((settle clock r c).2, 0%nat) else (c, 0%nat)
  end.

(** The cache after a sequence of events, and the number of [fetch] calls
    made on the way. *)
Fixpoint run (c : Cache) (es : list Event) : Cache * nat :=
  match es with
  | [] => (c, 0%nat)
  | e :: rest =>
      let '(c1, n1) := step c e in
      let '(c2, n2) := run c1 rest in
      (c2, (n1 + n2)%nat)
  end.

(** The number of requests in a sequence of events that end rejected. *)
Fixpoint rejections (es : list Event) : nat :=
  match es with
  | [] => 0
  | Ends _ Rejected :: rest => S (rejections rest)
  | _ :: rest => rejections rest
  end.

End ProductsCache.

(** ** The image proxy ([api/proxy-image/route.ts]) *)

Module ProxyImage.

(** What [new URL(url)] yields, as far as the route reads it;
    [searchParams] holds the decoded pairs of the query, in order. *)
Record URL := {
  protocol : string;
  hostname : string;
  pathname : string;
  searchParams : list (string * string);
}.

(** [searchParams.has(name)] and [searchParams.get(name)] *)
Definition has (name : string) (params : list (string * string)) : bool :=
  bool_decide (name ∈ params.*1).

Definition get (name : string) (params : list (string * string)) : option string :=
  (λ found, found.2.2) <$> list_find (λ p, p.1 = name) params.

(** The class [[a-zA-Z0-9_-]]. *)
Definition idChar (c : Ascii.ascii) : bool :=
  let n := Ascii.N_of_ascii c in
  ((97 <=? n) && (n <=? 122) || (65 <=? n) && (n <=? 90)
   || (48 <=? n) && (n <=? 57) || (n =? 95) || (n =? 45))%N.

(** What [([a-zA-Z0-9_-]+)] takes at the start of [s]: the longest run of
    class characters, empty when the group does not match there. *)
Fixpoint idRun (s : string) : string :=
  match s with
  | String c rest => if idChar c then String c (idRun rest) else EmptyString
  | EmptyString => EmptyString
  end.

(** [s] without its prefix [literal], if it has it. *)
Fixpoint afterPrefix (literal s : string) : option string :=
  match literal, s with
  | EmptyString, _ => Some s
  | String a l, String b r => if Ascii.eqb a b then afterPrefix l r else None
  | String _ _, EmptyString => None
  end.

(** [s.match(/<literal>([a-zA-Z0-9_-]+)/)], of which the route reads the
    group: the capture of the leftmost match, [None] for [null].  The
    literals of the route hold no regex operator. *)
Fixpoint matchId (literal s : string) : option string :=
  let here := match afterPrefix literal s with
              | Some rest => idRun rest
              | None => EmptyString
              end in
  match here with
  | String _ _ => Some here
  | EmptyString =>
      match s with
      | String _ rest => matchId literal rest
      | EmptyString => None
      end
  end.

(** [s.includes(needle)] *)
Fixpoint includes (s needle : string) : bool :=
  if String.prefix needle s then true
  else match s with
       | String _ rest => includes rest needle
       | EmptyString => false
       end.

(** [convertGoogleDriveUrl]; [parse] is [new URL], [None] when it throws. *)
Definition convertGoogleDriveUrl (parse : string → option URL) (url : string)
    : string :=
  match parse url with
  | None => url
  | Some urlObj =>
      if decide (hostname urlObj = "drive.google.com") then
        let fileId : option string :=
          if bool_decide (pathname urlObj = "/uc") && has "id" (searchParams urlObj)
          then get "id" (searchParams urlObj)
          else if EditorOps.startsWith (pathname urlObj) "/file/d/"
          then matchId "/file/d/" (pathname urlObj)
          else if has "id" (searchParams urlObj)
          then get "id" (searchParams urlObj)
          else None in
        match fileId with
        | Some (String c rest) =>
            "https://drive.google.com/thumbnail?id=" +:+ String c rest +:+ "&sz=w2000"
        | _ => url
        end
      else url
  end.

(** A request of the route to an upstream server and its response;
    [res_contentType] is [headers.get('content-type')], [res_body] the
    result of [arrayBuffer()], [None] when it rejects. *)
Record Request := {
  req_url : string;
  userAgent : string;
  accept : option string;
  referer : option string;
}.

Record Response := {
  res_ok : bool;
  res_status : nat;
  res_contentType : option string;
  res_body : option string;
}.

(** What the route answers: a JSON error, or the image bytes. *)
Inductive Reply :=
| Json (error : string) (status : nat)
| Image (image : string) (contentType : string).

Definition firstRequest (convertedUrl : string) : Request :=
  {| req_url := convertedUrl;
     userAgent := "Mozilla/5.0 (Windows NT 10.0; Win64; x64) AppleWebKit/537.36 (KHTML, like Gecko) Chrome/91.0.4472.124 Safari/537.36";
     accept := Some "image/webp,image/apng,image/*,*/*;q=0.8";
     referer := Some "https://drive.google.com/" |}.

Definition downloadRequest (fileId : string) : Request :=
  {| req_url := "https://drive.google.com/uc?export=download&id=" +:+ fileId;
     userAgent := "Mozilla/5.0 (Windows NT 10.0; Win64; x64) AppleWebKit/537.36";
     accept := None;
     referer := None |}.

(** [value || fallback] on a header value. *)
Definition orElse (fallback : string) (value : option string) : string :=
  match value with
  | Some (String c rest) => String c rest
  | _ => fallback
  end.

Definition internalError : Reply := Json "Internal server error" 500.

(** [GET]: the upstream requests it makes, in order, and its answer.
    [imageUrl] is [searchParams.get('url')] of the request; [fetch] yields
    [None] when it rejects.  Whatever throws inside the [try] ends in the
    [catch]. *)
Definition GET (parse : string → option URL) (fetch : Request → option Response)
    (imageUrl : option string) : list Request * Reply :=
  match imageUrl with
  | None | Some EmptyString => ([], Json "Missing image URL" 400)
  | Some imageUrl =>
      match parse imageUrl with
      | None => ([], internalError)
      | Some url =>
          if negb (bool_decide (protocol url ∈ ["http:"; "https:"]))
          then ([], Json "Invalid protocol" 400)
          else
            let convertedUrl := convertGoogleDriveUrl parse imageUrl in
            let first := firstRequest convertedUrl in
            match fetch first with
            | None => ([first], internalError)
            | Some response =>
                if negb (res_ok response) then
                  let failed := Json "Failed to fetch image" (res_status response) in
                  if includes convertedUrl "drive.google.com"
                     && includes convertedUrl "thumbnail"
                  then
                    match matchId "id=" convertedUrl with
                    | Some fileId =>
                        let second := downloadRequest fileId in
                        match fetch second with
                        | None => ([first; second], internalError)
                        | Some downloadResponse =>
                            if res_ok downloadResponse then
                              match res_body downloadResponse with
                              | None => ([first; second], internalError)
                              | Some imageBuffer =>
                                  ([first; second],
                                   Image imageBuffer
                                     (orElse "image/jpeg"
                                        (res_contentType downloadResponse)))
                              end
                            else ([first; second], failed)
                        end
                    | None => ([first], failed)
                    end
                  else ([first], failed)
                else
                  let contentType := orElse "" (res_contentType response) in
                  if negb (EditorOps.startsWith contentType "image/")
                  then ([first],
                        Json "Image not accessible. Make sure the Google Drive file is publicly shared." 403)
                  else
                    match res_body response with
                    | None => ([first], internalError)
                    | Some imageBuffer => ([first], Image imageBuffer contentType)
                    end
            end
      end
  end.

End ProxyImage.

(** ** The product grid and the generate button of the builder pages *)

Module Grid.

(** [getImageUrl]: the [src] of a product image in the grid. *)
Definition getImageUrl (encodeURIComponent : string → string) (imageUrl : string)
    : string :=
  if ProxyImage.includes imageUrl "drive.google.com"
  then "/api/proxy-image?url=" +:+ encodeURIComponent imageUrl
  else imageUrl.

(** The three cells of the generate button. *)
Record Generate := {
  isGenerating : bool;
  generateMessage : string;
  generateError : string;
}.

(** How the request of [handleGenerateMoodboard] ends: [fetch] rejects,
    [res.text()] rejects, or the text arrives; [message] is [e?.message] of
    what was thrown, [None] when it has none. *)
Inductive Sent :=
| FetchRejects (message : option string)
| TextRejects (message : option string)
| Text (ok : bool) (text : string).

(** [value || fallback] on a string that may be missing. *)
Definition orElse (fallback : string) (value : option string) : string :=
  match value with
  | Some (String c rest) => String c rest
  | _ => fallback
  end.

(** [handleGenerateMoodboard], run to its end: the request bodies it
    posted (the [images] of each) and the cells afterwards.  [webhookUrl] is
    the environment variable, [fetch] the answer of the webhook to a posted
    list. *)
Definition handleGenerateMoodboard (webhookUrl : option string)
    (fetch : string → list string → Sent) (selectedImageUrls : list string)
    (st : Generate) : list (list string) * Generate :=
  if bool_decide (selectedImageUrls = []) || isGenerating st then ([], st)
  else
    let failed posted message :=
      (posted, {| isGenerating := false; generateMessage := "";
                  generateError :=
                    orElse "Unexpected error while generating moodboard" message |}) in
    match webhookUrl with
    | Some (String c rest) =>
        match fetch (String c rest) selectedImageUrls with
        | FetchRejects message => failed [selectedImageUrls] message
        | TextRejects message => failed [selectedImageUrls] message
        | Text false text =>
            failed [selectedImageUrls]
              (Some (orElse "Failed to generate moodboard" (Some text)))
        | Text true _ =>
            ([selectedImageUrls],
             {| isGenerating := false;
                generateMessage := "Moodboard request sent successfully.";
                generateError := "" |})
        end
    | _ => failed [] (Some "Missing NEXT_PUBLIC_MAGIC_WEBHOOK_URL")
    end.

End Grid.

(** ** More sample inputs: the builder page, the product list, the proxy *)

Module Scenarios.

Import Samples.

(** The moodboard container, 960 by 540, at (100, 50) in the viewport. *)
Definition container : Builder.DOMRect :=
  {| Builder.rect_left := 100; Builder.rect_top := 50;
     Builder.rect_width := 960; Builder.rect_height := 540 |}.

(** The pointer goes down on the lamp, 10 right of and 20 below its
    corner, and later moves far to the right and above the container. *)
Definition press : Builder.MouseEvent :=
  {| Builder.clientX := 410; Builder.clientY := 270 |}.

Definition farAway : Builder.MouseEvent :=
  {| Builder.clientX := 5000; Builder.clientY := -40 |}.

Definition grabbed : Builder.State :=
  Builder.handleMouseDown (Some container) press "lamp-2" (Builder.idle abc).

(** The sample scene with an uploaded background that is being dragged. *)
Definition wallpaper : Page.BackgroundImage :=
  Builder.uploadedBackground "data:image/png;base64,AAAA" (Some container).

Definition withWallpaper : Page.State :=
  PageOps.setBackgroundImage (λ _, Some wallpaper) abc.

Definition draggingWallpaper : Builder.State :=
  Builder.handleBackgroundMouseDown (Some container) press
    (Builder.idle withWallpaper).

(** Two containers whose width is not a whole number of pixels: the double
    just below 960 (959.9999999999999), over a height of 300, and the
    double nearest to 101 and a third (101.33333333333333), over a height
    of 10. *)
Definition hairNarrow : Builder.DOMRect :=
  {| Builder.rect_left := 0; Builder.rect_top := 0;
     Builder.rect_width := 8444249301319679 # 8796093022208;
     Builder.rect_height := 300 |}.

Definition thirdOver : Builder.DOMRect :=
  {| Builder.rect_left := 0; Builder.rect_top := 0;
     Builder.rect_width := 7130699410003285 # 70368744177664;
     Builder.rect_height := 10 |}.

(** The lamp turned by the double nearest to a tenth of a degree. *)
Definition tiltedLamp : Page.DraggableImage :=
  PageOps.withRotation layerB (3602879701896397 # 36028797018963968).

(** An encoder that escapes the colon and the slash only. *)
Fixpoint escape (s : string) : string :=
  match s with
  | EmptyString => EmptyString
  | String c rest =>
      if Ascii.eqb c ":" then "%3A" +:+ escape rest
      else if Ascii.eqb c "/" then "%2F" +:+ escape rest
      else String c (escape rest)
  end.

(** Two products of a response, and a clock that stands still during the
    [map]. *)
Definition rawSofa : ProductsCache.RawProduct :=
  {| ProductsCache.raw_image := sofa; ProductsCache.raw_productName := "Sofa";
     ProductsCache.raw_itemCode := "S-1"; ProductsCache.raw_price := "900" |}.

Definition rawLamp : ProductsCache.RawProduct :=
  {| ProductsCache.raw_image := lamp; ProductsCache.raw_productName := "Lamp";
     ProductsCache.raw_itemCode := "L-2"; ProductsCache.raw_price := "120" |}.

Definition stoppedClock (_ : nat) : Z := 1700000000000%Z.

(** A Drive file link, the parser on it, and an upstream that refuses
    the thumbnail and serves the download without a content type. *)
Definition driveLink : string := "https://drive.google.com/file/d/1AbC_d-9/view".

Definition parseLink (s : string) : option ProxyImage.URL :=
  if decide (s = driveLink)
  then Some {| ProxyImage.protocol := "https:";
               ProxyImage.hostname := "drive.google.com";
               ProxyImage.pathname := "/file/d/1AbC_d-9/view";
               ProxyImage.searchParams := [] |}
  else None.

Definition refused : ProxyImage.Response :=
  {| ProxyImage.res_ok := false; ProxyImage.res_status := 404;
     ProxyImage.res_contentType := Some "text/html";
     ProxyImage.res_body := Some "<html>" |}.

Definition upstream (request : ProxyImage.Request) : option ProxyImage.Response :=
  if decide (ProxyImage.req_url request
             = "https://drive.google.com/uc?export=download&id=1AbC_d-9")
  then Some {| ProxyImage.res_ok := true; ProxyImage.res_status := 200;
               ProxyImage.res_contentType := None;
               ProxyImage.res_body := Some "bytes" |}
  else Some refused.

End Scenarios.

(** * Properties *)

(** ** Layer order: [bringToFront] and [sendToBack] *)

Section Reorder.

Import Page.

Implicit Types (prev front back : list DraggableImage) (item : DraggableImage).

(** [findIndex] stops at the first element with the given id. *)
Lemma findIndex_first imageId front item back :
  Forall (λ img, id img ≠ imageId) front →
  id item = imageId →
  JS.findIndex (λ img, id img = imageId) (front ++ item :: back) = Some (length front).
Proof.
  intros Hl1 Hid. unfold JS.findIndex.
  induction Hl1 as [|img front Hne _ IH]; simpl.
  - rewrite decide_True by done. done.
  - rewrite decide_False by done.
    destruct (list_find _ (front ++ item :: back)) as [[i z]|]; simpl in *; [|done].
    congruence.
Qed.

(** A list that holds the id splits at its first holder. *)
Lemma split_first_id imageId prev :
  Exists (λ img, id img = imageId) prev →
  ∃ front item back, prev = front ++ item :: back ∧ id item = imageId
                ∧ Forall (λ img, id img ≠ imageId) front.
Proof.
  induction prev as [|img prev IH]; intros H.
  - by apply Exists_nil in H.
  - destruct (decide (id img = imageId)) as [Heq|Hne].
    + exists [], img, prev. by repeat split.
    + apply Exists_cons in H as [H|H]; [done|].
      destruct (IH H) as (front & item & back & -> & Hid & Hl1).
      exists (img :: front), item, back. repeat split; [done|]. by constructor.
Qed.

Lemma delete_middle {A} (k1 : list A) a (k2 : list A) :
  delete (length k1) (k1 ++ a :: k2) = k1 ++ k2.
Proof. induction k1 as [|b k1 IH]; simpl; [done|]. by rewrite IH. Qed.

Lemma bringToFront_upd_split imageId front item back :
  Forall (λ img, id img ≠ imageId) front →
  id item = imageId →
  bringToFront_upd imageId (front ++ item :: back) = front ++ back ++ [item].
Proof.
  intros Hl1 Hid. unfold bringToFront_upd.
  rewrite findIndex_first by done.
  rewrite list_lookup_middle by done.
  by rewrite delete_middle, <- (assoc_L (++)).
Qed.

Lemma sendToBack_upd_split imageId front item back :
  Forall (λ img, id img ≠ imageId) front →
  id item = imageId →
  sendToBack_upd imageId (front ++ item :: back) = item :: front ++ back.
Proof.
  intros Hl1 Hid. unfold sendToBack_upd.
  rewrite findIndex_first by done.
  rewrite list_lookup_middle by done.
  by rewrite delete_middle.
Qed.

Lemma filter_others_holder imageId item front :
  id item = imageId →
  filter (λ img, id img ≠ imageId) (item :: front)
  = filter (λ img, id img ≠ imageId) front.
Proof. intros Hid. apply filter_cons_False. by intros []. Qed.

(** C7. For a layer id present in the list, [bringToFront] followed by
    [sendToBack] with that id keeps every other layer in its original
    relative order and loses no layer: [bringToFront] moves the first
    holder of the id to the end, [sendToBack] moves the first holder to the
    start, and each leaves the order of the rest as it was.  With distinct
    ids the result is the moved layer followed by all the others in their
    original order.  The other cells of the page state are untouched. *)
Theorem C7_front_then_back_keeps_others (imageId : string) (st : State) :
  Exists (λ img, id img = imageId) (draggableImages st) →
  let prev := draggableImages st in
  let st' := sendToBack imageId (bringToFront imageId st) in
  let out := draggableImages st' in
  filter (λ img, id img ≠ imageId) out = filter (λ img, id img ≠ imageId) prev
  ∧ out ≡ₚ prev
  ∧ (∃ front item back,
        prev = front ++ item :: back ∧ id item = imageId
        ∧ Forall (λ img, id img ≠ imageId) front
        ∧ bringToFront_upd imageId prev = front ++ back ++ [item]
        ∧ sendToBack_upd imageId prev = item :: front ++ back
        ∧ (Forall (λ img, id img ≠ imageId) back → out = item :: front ++ back))
  ∧ selectedImageUrls st' = selectedImageUrls st
  ∧ backgroundImage st' = backgroundImage st.
Proof.
  intros Hin prev st' out.
  destruct (split_first_id imageId prev Hin) as (front & item & back & Hprev & Hid & Hl1).
  assert (Hfront : bringToFront_upd imageId prev = front ++ back ++ [item])
    by (rewrite Hprev; by apply bringToFront_upd_split).
  assert (Hout : out = sendToBack_upd imageId (bringToFront_upd imageId prev))
    by reflexivity.
  rewrite Hfront in Hout.
  (* the first holder after [bringToFront] is either a later duplicate
     inside [back] or the moved layer itself *)
  destruct (decide (Exists (λ img, id img = imageId) back)) as [Hdup|Hnodup].
  - destruct (split_first_id imageId back Hdup) as (m1 & dup & m2 & Hl2 & Hdid & Hm1).
    assert (Hout' : out = dup :: front ++ m1 ++ m2 ++ [item]).
    { rewrite Hout, Hl2.
      replace (front ++ (m1 ++ dup :: m2) ++ [item])
        with ((front ++ m1) ++ dup :: (m2 ++ [item]))
        by (by rewrite <- !(assoc_L (++))).
      rewrite sendToBack_upd_split; [|by apply Forall_app|done].
      by rewrite <- !(assoc_L (++)). }
    split_and!; [| |exists front, item, back; split_and!; try done| |]; try done.
    + rewrite Hout', Hprev, Hl2.
      rewrite (filter_others_holder _ dup) by done.
      rewrite !filter_app.
      rewrite !(filter_others_holder _ item) by done.
      rewrite filter_app, (filter_others_holder _ dup) by done.
      rewrite filter_nil. by rewrite (right_id_L [] (++)).
    + rewrite Hout', Hprev, Hl2.
      rewrite <- !Permutation_middle.
      rewrite (right_id_L [] (++)). apply perm_swap.
    + rewrite Hprev. by apply sendToBack_upd_split.
    + intros Hl2'. rewrite Hl2 in Hl2'.
      apply Forall_app in Hl2' as [_ Hl2']. by inversion Hl2'.
  - apply not_Exists_Forall in Hnodup; [|intros ?; apply _].
    assert (Hl2 : Forall (λ img, id img ≠ imageId) back).
    { eapply Forall_impl; [exact Hnodup|]. simpl. auto. }
    assert (Hout' : out = item :: front ++ back).
    { rewrite Hout.
      replace (front ++ back ++ [item]) with ((front ++ back) ++ item :: [])
        by (by rewrite <- (assoc_L (++))).
      rewrite sendToBack_upd_split; [|by apply Forall_app|done].
      by rewrite (right_id_L [] (++)). }
    split_and!; [| |exists front, item, back; split_and!; try done| |]; try done.
    + rewrite Hout', Hprev.
      rewrite (filter_others_holder _ item) by done.
      by rewrite !filter_app, (filter_others_holder _ item).
    + rewrite Hout', Hprev. apply Permutation_middle.
    + rewrite Hprev. by apply sendToBack_upd_split.
Qed.

End Reorder.

(** ** Instance counts, adding and removing layers *)

Section AddRemove.

Import Page.

Implicit Types (imgs : list DraggableImage) (st : State) (u : string).

Lemma countMap_from (m : gmap string nat) imgs u :
  default 0%nat
    (foldl (λ m img, <[url img := (default 0 (m !! url img) + 1)%nat]> m) m imgs !! u)
  = (default 0 (m !! u) + length (filter (λ img, url img = u) imgs))%nat.
Proof.
  revert m. induction imgs as [|img imgs IH]; intros m; simpl.
  - by rewrite Nat.add_0_r.
  - rewrite IH. destruct (decide (url img = u)) as [Heq|Hne].
    + rewrite Heq, lookup_insert_eq, filter_cons_True by done. simpl. lia.
    + by rewrite lookup_insert_ne, filter_cons_False by done.
Qed.

(** [getInstanceCount] counts the layers that carry the URL. *)
Lemma getInstanceCount_length imgs u :
  getInstanceCount imgs u = length (filter (λ img, url img = u) imgs).
Proof.
  unfold getInstanceCount, countMap. rewrite countMap_from.
  by rewrite lookup_empty.
Qed.

Lemma uniq_elem_of seen arr u : u ∈ JS.uniq seen arr → u ∈ arr.
Proof.
  revert seen. induction arr as [|v arr IH]; intros seen; simpl; [done|].
  destruct (decide (v ∈ seen)).
  - intros ?%IH. by right.
  - intros [->|?%IH]%elem_of_cons; [left|by right].
Qed.

Lemma filter_none_left imgs u :
  Forall (λ img, url img ≠ u) imgs → filter (λ img, url img = u) imgs = [].
Proof.
  induction 1 as [|img l Hne _ IH]; [done|].
  by rewrite filter_cons_False.
Qed.

(** C10. [removeFromMoodboard] removes in one call every layer whose url
    is the given URL, however many instances there are: what remains is
    exactly the layers with other urls, in their original order; the count
    of the URL drops to zero and the counts of other URLs are unchanged;
    the background is unchanged; and the URL leaves the selected URLs,
    both at once and after the effect that recomputes them from the
    layers. *)
Theorem C10_removeFromMoodboard_every_instance (imageUrl : string) st :
  let st' := removeFromMoodboard imageUrl st in
  Forall (λ img, url img ≠ imageUrl) (draggableImages st')
  ∧ draggableImages st' = filter (λ img, url img ≠ imageUrl) (draggableImages st)
  ∧ draggableImages st' `sublist_of` draggableImages st
  ∧ getInstanceCount (draggableImages st') imageUrl = 0%nat
  ∧ (∀ u, u ≠ imageUrl →
       filter (λ img, url img = u) (draggableImages st')
       = filter (λ img, url img = u) (draggableImages st)
       ∧ getInstanceCount (draggableImages st') u
         = getInstanceCount (draggableImages st) u)
  ∧ backgroundImage st' = backgroundImage st
  ∧ (imageUrl ∉ selectedImageUrls st')
  ∧ (∀ u, u ≠ imageUrl →
       (u ∈ selectedImageUrls st' ↔ u ∈ selectedImageUrls st))
  ∧ (imageUrl ∉ selectedImageUrls (syncSelectedImageUrls st')).
Proof.
  intros st'. subst st'. simpl.
  assert (Hgone : Forall (λ img, url img ≠ imageUrl)
                    (filter (λ img, url img ≠ imageUrl) (draggableImages st))).
  { apply Forall_forall. by intros img [? _]%list_elem_of_filter. }
  assert (Hother : ∀ u, u ≠ imageUrl →
            filter (λ img, url img = u)
              (filter (λ img, url img ≠ imageUrl) (draggableImages st))
            = filter (λ img, url img = u) (draggableImages st)).
  { intros u Hu. rewrite list_filter_filter.
    apply list_filter_iff. intros img. split; [tauto|]. intros <-. done. }
  split_and!; try done.
  - apply sublist_filter.
  - by rewrite getInstanceCount_length, filter_none_left.
  - intros u Hu. split; [by apply Hother|].
    rewrite !getInstanceCount_length. by rewrite Hother.
  - by intros [? _]%list_elem_of_filter.
  - intros u Hu. rewrite list_elem_of_filter. tauto.
  - intros Hin%uniq_elem_of.
    apply list_elem_of_fmap in Hin as (img & Hu & Himg).
    apply list_elem_of_filter in Himg as [Hne _]. done.
Qed.

Lemma newDraggableImage_id_inj imageUrl (now now' : N) r1 r2 r1' r2' :
  id (newDraggableImage imageUrl now r1 r2)
  = id (newDraggableImage imageUrl now' r1' r2') ↔ now = now'.
Proof.
  simpl. split; [|by intros ->].
  intros H. apply (inj (String.append imageUrl)) in H.
  apply (inj (String.append "-")) in H. by apply (inj pretty) in H.
Qed.

(** C5, in the form the code supports.  [addToMoodboard] appends exactly one layer at the end of the
    layer list.  With both readings of [Math.random()] in [0, 1), the new
    layer has [50 <= x < 350] and [50 <= y < 250], width and height 120,
    and reaches the editor with rotation 0 and no flip; the background is
    untouched and the instance count of the URL goes up by one.  Adding
    the same URL twice to an empty scene gives two layers with that url
    and an instance count of 2; their ids differ exactly when the two
    readings of [Date.now()] differ, and equal readings of [Math.random()]
    give equal positions: nothing keeps two adds apart. *)
Theorem C5_addToMoodboard_appends_one (imageUrl : string) (now now' : N)
    (r1 r2 r1' r2' : Q) st :
  0 <= r1 < 1 → 0 <= r2 < 1 → 0 <= r1' < 1 → 0 <= r2' < 1 →
  let new := newDraggableImage imageUrl now r1 r2 in
  let st1 := addToMoodboard imageUrl now r1 r2 st in
  draggableImages st1 = draggableImages st ++ [new]
  ∧ url new = imageUrl
  ∧ 50 <= x new < 350 ∧ 50 <= y new < 250
  ∧ width new = 120 ∧ height new = 120
  ∧ Editor.rotation (Wiring.toItem new) = Some 0
  ∧ Editor.flipHorizontal (Wiring.toItem new) = Some false
  ∧ backgroundImage st1 = backgroundImage st
  ∧ getInstanceCount (draggableImages st1) imageUrl
    = S (getInstanceCount (draggableImages st) imageUrl)
  ∧ (draggableImages st = [] →
     let new' := newDraggableImage imageUrl now' r1' r2' in
     let st2 := addToMoodboard imageUrl now' r1' r2' st1 in
     draggableImages st2 = [new; new']
     ∧ url new = url new'
     ∧ getInstanceCount (draggableImages st2) imageUrl = 2%nat
     ∧ 50 <= x new' < 350 ∧ 50 <= y new' < 250
     ∧ (id new ≠ id new' ↔ now ≠ now')
     ∧ (r1 == r1' ∧ r2 == r2' → x new == x new' ∧ y new == y new')).
Proof.
  intros Hr1 Hr2 Hr1' Hr2' new st1.
  split_and!; try done.
  - simpl. lra.
  - simpl. lra.
  - simpl. lra.
  - simpl. lra.
  - subst st1. simpl. rewrite !getInstanceCount_length, filter_app.
    rewrite filter_cons_True by done. rewrite length_app. simpl. lia.
  - intros Hempty new' st2. subst st2 st1. simpl. rewrite Hempty. simpl.
    split_and!; try done.
    + rewrite getInstanceCount_length.
      by rewrite !filter_cons_True by done.
    + simpl. lra.
    + simpl. lra.
    + simpl. lra.
    + simpl. lra.
    + pose proof (newDraggableImage_id_inj imageUrl now now' r1 r2 r1' r2') as Hinj.
      split; intros Hne Habs; apply Hne; by apply Hinj.
    + simpl. intros [H1 H2]. split; lra.
Qed.

End AddRemove.

(** ** Dragging: the clamp of variant A, and its absence in variant B *)

Section Drag.

Import Page Wiring.

Implicit Types (st : State) (cv : Canvas) (d : DraggableImage)
  (pos : Editor.Pos) (k j : nat).

Lemma Math_max_ge_0 (a : Q) : 0 <= JS.Math_max 0 a.
Proof. apply Q.le_max_l. Qed.

(** The clamp itself: whatever the pointer asks for, [dragBoundFunc]
    answers inside [0, max(0, stage - size)] on both axes. *)
Lemma dragBoundFunc_range (stage : option Editor.StageTree)
    (item : Editor.FurnitureItem) pos :
  let W := default 0 (Editor.stage_width <$> stage) in
  let H := default 0 (Editor.stage_height <$> stage) in
  let p := VariantA.dragBoundFunc stage item pos in
  0 <= Editor.pos_x p <= JS.Math_max 0 (W - Editor.width item)
  ∧ 0 <= Editor.pos_y p <= JS.Math_max 0 (H - Editor.height item).
Proof.
  simpl. unfold JS.Math_min.
  repeat split;
    first [ apply Q.min_glb; [apply Q.le_max_l | apply Math_max_ge_0]
          | apply Q.le_min_r ].
Qed.

(** For a layer no larger than the canvas the clamp range is the canvas
    range. *)
Lemma clamped_fits_inBounds cv d : fits cv d → clamped cv d → inBounds cv d.
Proof.
  unfold fits, clamped, inBounds, JS.Math_max.
  intros [Hw Hh] [[Hx0 Hx1] [Hy0 Hy1]].
  assert (Qmax 0 (canvasWidth cv - width d) <= canvasWidth cv - width d)
    by (apply Q.max_lub; lra).
  assert (Qmax 0 (canvasHeight cv - height d) <= canvasHeight cv - height d)
    by (apply Q.max_lub; lra).
  repeat split; lra.
Qed.

Lemma items_lookup st k :
  (toItem <$> draggableImages st) !! k = toItem <$> draggableImages st !! k.
Proof. apply list_lookup_fmap. Qed.

(** One drag of layer [k] in variant A, layer by layer: identity and
    size stay, the layers that carry the id of layer [k] go to the clamped
    position computed from the size of layer [k], the others stay where
    they are. *)
Lemma dragLayerA_lookup loaded isMobile cv k pos st target j d :
  draggableImages st !! k = Some target →
  draggableImages st !! j = Some d →
  ∃ d', draggableImages (dragLayerA loaded isMobile cv k pos st) !! j = Some d'
        ∧ id d' = id d ∧ url d' = url d
        ∧ width d' = width d ∧ height d' = height d
        ∧ (id d = id target →
           0 <= x d' <= JS.Math_max 0 (canvasWidth cv - width target)
           ∧ 0 <= y d' <= JS.Math_max 0 (canvasHeight cv - height target))
        ∧ (id d ≠ id target → x d' = x d ∧ y d' = y d).
Proof.
  intros Hk Hj. unfold dragLayerA, onItemsChange, VariantA.dragMove. simpl.
  rewrite (items_lookup st k), Hk. simpl.
  unfold Editor.handleDragMove.
  rewrite !list_lookup_fmap, Hj. simpl.
  eexists; split; [reflexivity|].
  case_decide as Hid; simpl; split_and!; try done.
  intros _.
  apply (dragBoundFunc_range
           (Some (VariantA.render loaded isMobile (props cv st)))
           (toItem target) pos).
Qed.

Lemma dragLayerA_lookup_miss loaded isMobile cv k pos st j d :
  draggableImages st !! k = None →
  draggableImages st !! j = Some d →
  ∃ d', draggableImages (dragLayerA loaded isMobile cv k pos st) !! j = Some d'
        ∧ id d' = id d ∧ url d' = url d
        ∧ width d' = width d ∧ height d' = height d
        ∧ x d' = x d ∧ y d' = y d.
Proof.
  intros Hk Hj. unfold dragLayerA, onItemsChange, VariantA.dragMove. simpl.
  rewrite (items_lookup st k), Hk. simpl.
  rewrite !list_lookup_fmap, Hj. simpl. by eexists.
Qed.

Lemma dragLayerA_length loaded isMobile cv k pos st :
  length (draggableImages (dragLayerA loaded isMobile cv k pos st))
  = length (draggableImages st).
Proof.
  unfold dragLayerA, onItemsChange, VariantA.dragMove. simpl.
  destruct (_ !! k); unfold Editor.handleDragMove;
    by rewrite !length_fmap.
Qed.

Lemma dragLayerA_ids loaded isMobile cv k pos st :
  id <$> draggableImages (dragLayerA loaded isMobile cv k pos st)
  = id <$> draggableImages st.
Proof.
  apply list_eq. intros j. rewrite !list_lookup_fmap.
  destruct (draggableImages st !! j) as [d|] eqn:Hj.
  - destruct (draggableImages st !! k) as [target|] eqn:Hk.
    + destruct (dragLayerA_lookup loaded isMobile cv k pos st target j d Hk Hj)
        as (d' & -> & Hid & _). simpl. by rewrite Hid.
    + destruct (dragLayerA_lookup_miss loaded isMobile cv k pos st j d Hk Hj)
        as (d' & -> & Hid & _). simpl. by rewrite Hid.
  - apply lookup_ge_None in Hj.
    rewrite (proj2 (lookup_ge_None _ j)); [done|].
    by rewrite dragLayerA_length.
Qed.

Lemma clamped_same_box cv d d' :
  x d' = x d → y d' = y d → width d' = width d → height d' = height d →
  clamped cv d → clamped cv d'.
Proof. unfold clamped. by intros -> -> -> ->. Qed.

(** With distinct ids, one drag in variant A leaves the dragged layer
    clamped and keeps every clamped layer clamped. *)
Lemma dragLayerA_clamped loaded isMobile cv k0 pos st k d :
  NoDup (id <$> draggableImages st) →
  draggableImages st !! k = Some d →
  (k = k0 ∨ clamped cv d) →
  ∃ d1, draggableImages (dragLayerA loaded isMobile cv k0 pos st) !! k = Some d1
        ∧ clamped cv d1.
Proof.
  intros Hnd Hk Hor.
  destruct (draggableImages st !! k0) as [target|] eqn:Hk0.
  - destruct (dragLayerA_lookup loaded isMobile cv k0 pos st target k d Hk0 Hk)
      as (d1 & Hd1 & Hid & _ & Hw & Hh & Hmoved & Hstill).
    exists d1. split; [done|].
    destruct (decide (id d = id target)) as [Heq|Hne].
    + assert (k = k0) as ->.
      { apply (NoDup_lookup (id <$> draggableImages st) k k0 (id d)); [done|..];
          rewrite list_lookup_fmap; [by rewrite Hk|by rewrite Hk0, Heq]. }
      assert (d = target) as -> by congruence.
      unfold clamped. rewrite Hw, Hh. by apply Hmoved.
    + destruct Hor as [->|Hcl]; [congruence|].
      destruct (Hstill Hne) as [Hx Hy]. by apply (clamped_same_box cv d).
  - destruct (dragLayerA_lookup_miss loaded isMobile cv k0 pos st k d Hk0 Hk)
      as (d1 & Hd1 & _ & _ & Hw & Hh & Hx & Hy).
    exists d1. split; [done|].
    destruct Hor as [->|Hcl]; [congruence|].
    by apply (clamped_same_box cv d).
Qed.

Lemma dragsA_clamped loaded isMobile cv (ds : list (nat * Editor.Pos)) st :
  NoDup (id <$> draggableImages st) →
  id <$> draggableImages (dragsA loaded isMobile cv ds st)
  = id <$> draggableImages st
  ∧ ∀ k d', draggableImages (dragsA loaded isMobile cv ds st) !! k = Some d' →
      (k ∈ ds.*1 ∨ ∃ d, draggableImages st !! k = Some d ∧ clamped cv d) →
      clamped cv d'.
Proof.
  revert st. induction ds as [|[k0 pos] ds IH]; intros st Hnd.
  - split; [done|]. simpl. intros k d' Hk [Hin|(d & Hd & Hcl)].
    + by apply elem_of_nil in Hin.
    + congruence.
  - unfold dragsA in *. simpl.
    set (st1 := dragLayerA loaded isMobile cv k0 pos st).
    assert (Hids : id <$> draggableImages st1 = id <$> draggableImages st)
      by apply dragLayerA_ids.
    destruct (IH st1) as [IHids IHcl]; [by rewrite Hids|].
    split; [by rewrite IHids|].
    intros k d' Hk Hor. apply (IHcl k d' Hk).
    destruct (decide (k ∈ ds.*1)) as [?|Hnotin]; [by left|]. right.
    assert (is_Some (draggableImages st !! k)) as [d Hd].
    { apply lookup_lt_is_Some.
      rewrite <- (length_fmap id (draggableImages st)), <- Hids, <- IHids.
      rewrite length_fmap. by apply lookup_lt_Some in Hk. }
    apply (dragLayerA_clamped loaded isMobile cv k0 pos st k d Hnd Hd).
    destruct Hor as [Hin|(d0 & Hd0 & Hcl)].
    + apply elem_of_cons in Hin as [->|?]; [by left|done].
    + right. congruence.
Qed.

(** One drag in variant B: the position the pointer asks for is stored
    as it is. *)
Lemma dragLayerB_position cv k pos st d :
  draggableImages st !! k = Some d →
  ∃ d', draggableImages (dragLayerB cv k pos st) !! k = Some d'
        ∧ x d' = Editor.pos_x pos ∧ y d' = Editor.pos_y pos
        ∧ width d' = width d ∧ height d' = height d.
Proof.
  intros Hk. unfold dragLayerB, onItemsChange, VariantB.dragMove. simpl.
  rewrite (items_lookup st k), Hk. simpl.
  unfold Editor.handleDragMove.
  rewrite !list_lookup_fmap, Hk. simpl.
  eexists; split; [reflexivity|]. by rewrite decide_True.
Qed.

(** C1, in the form the code supports.  In variant A every requested drag position passes
    through [dragBoundFunc]: after any sequence of drags on layers with
    distinct ids, every layer that was dragged at least once, and every
    layer that was in the clamp range before, has
    [0 <= x <= max(0, canvasWidth - width)] and
    [0 <= y <= max(0, canvasHeight - height)]; for a layer no larger than
    the canvas this is [0 <= x <= canvasWidth - width] and
    [0 <= y <= canvasHeight - height].  In variant B a drag stores the
    requested position as it is. *)
Theorem C1_drag_clamped_in_variantA loaded isMobile cv
    (ds : list (nat * Editor.Pos)) st :
  NoDup (id <$> draggableImages st) →
  let st' := dragsA loaded isMobile cv ds st in
  (∀ k d', draggableImages st' !! k = Some d' →
     (k ∈ ds.*1 ∨ ∃ d, draggableImages st !! k = Some d ∧ clamped cv d) →
     clamped cv d' ∧ (fits cv d' → inBounds cv d'))
  ∧ (∀ k pos d, draggableImages st !! k = Some d →
       ∃ d', draggableImages (dragLayerB cv k pos st) !! k = Some d'
             ∧ x d' = Editor.pos_x pos ∧ y d' = Editor.pos_y pos).
Proof.
  intros Hnd st'. split.
  - intros k d' Hk Hor.
    destruct (dragsA_clamped loaded isMobile cv ds st Hnd) as [_ Hcl].
    assert (clamped cv d') by by apply (Hcl k).
    split; [done|]. intros ?. by apply clamped_fits_inBounds.
  - intros k pos d Hk.
    destruct (dragLayerB_position cv k pos st d Hk) as (d' & ? & ? & ? & _).
    by exists d'.
Qed.

End Drag.

(** ** Resizing: [handleTransformEnd] *)

Section Resize.

Import Page Wiring.

Lemma Math_max_floor (a : Q) : 10 <= JS.Math_max 10 a.
Proof. apply Q.le_max_l. Qed.

(** Every item that [handleTransformEnd] rewrites comes out with the
    floor on both sides and with the rotation of the node. *)
Lemma handleTransformEnd_floor (i : string) (node : Editor.ImageNode)
    (its : list Editor.FurnitureItem) :
  Forall (λ it', Editor.id it' = i →
                 10 <= Editor.width it' ∧ 10 <= Editor.height it'
                 ∧ Editor.rotation it' = Some (Editor.node_rotation node))
         (Editor.handleTransformEnd i node its).1.
Proof.
  simpl. apply Forall_fmap, Forall_forall. intros it _. simpl.
  case_decide as Hid; simpl; [|done].
  intros _. split_and!; [apply Math_max_floor..|done].
Qed.

(** C6. At the end of a resize gesture on a layer, with scale factors
    [scaleX], [scaleY] and final angle [r] read from the node, the layer
    gets width [max(10, oldWidth * scaleX)], height
    [max(10, oldHeight * scaleY)] and rotation [r], whatever its rotation
    was; so its width and height are at least 10.  Its id and url stay,
    the layers with another id keep their size and position, and in the
    editor every item the handler rewrites has both sides at least 10. *)
Theorem C6_resize_sets_size_with_floor (cv : Canvas) (k : nat)
    (node : Editor.ImageNode) (st : State) (d : DraggableImage) :
  draggableImages st !! k = Some d →
  let st' := resizeLayer cv k node st in
  (∃ d', draggableImages st' !! k = Some d'
         ∧ width d' = JS.Math_max 10 (width d * Editor.node_scaleX node)
         ∧ height d' = JS.Math_max 10 (height d * Editor.node_scaleY node)
         ∧ rotation d' = Some (Editor.node_rotation node)
         ∧ 10 <= width d' ∧ 10 <= height d'
         ∧ id d' = id d ∧ url d' = url d)
  ∧ (∀ j dj, draggableImages st !! j = Some dj → id dj ≠ id d →
       ∃ dj', draggableImages st' !! j = Some dj'
              ∧ width dj' = width dj ∧ height dj' = height dj
              ∧ x dj' = x dj ∧ y dj' = y dj
              ∧ rotation dj' = Some (default 0 (rotation dj)))
  ∧ Forall (λ it', Editor.id it' = id d →
                   10 <= Editor.width it' ∧ 10 <= Editor.height it'
                   ∧ Editor.rotation it' = Some (Editor.node_rotation node))
           (Editor.handleTransformEnd (id d) node
              (Editor.items (props cv st))).1.
Proof.
  intros Hk st'. subst st'. unfold resizeLayer, onItemsChange. simpl.
  rewrite (list_lookup_fmap toItem (draggableImages st) k), Hk. simpl.
  split_and!.
  - rewrite !list_lookup_fmap, Hk. simpl.
    eexists; split; [reflexivity|].
    rewrite decide_True by done. simpl.
    split_and!; try done; apply Math_max_floor.
  - intros j dj Hj Hne.
    rewrite !list_lookup_fmap, Hj. simpl.
    eexists; split; [reflexivity|].
    by rewrite decide_False.
  - apply handleTransformEnd_floor.
Qed.

End Resize.

(** ** Export: what [doExport] does to the stage and what it hands out *)

Section ExportFacts.

Import Editor Exporting.

Context {Scene : Type} `{!KonvaOps Scene}.

Implicit Types (s : Stage Scene) (c : Component Scene) (props : Props).

(** Writing back the recorded visibilities undoes the hiding. *)
Lemma restore_hidden (vis : list bool) :
  imap (λ i t, default t (vis !! i)) (imap (λ _ _, false) vis) = vis.
Proof.
  apply list_eq. intros i. rewrite !list_lookup_imap.
  destruct (vis !! i) as [b|] eqn:Hi; simpl; by rewrite ?Hi.
Qed.

Lemma stage_eta s : {| scene := scene s; transformers := transformers s |} = s.
Proof. by destruct s. Qed.

(** [doExport], exit by exit. *)
Lemma doExport_unmounted props c :
  stageRef c = None → doExport props c = (Ok (), c).
Proof. intros H. unfold doExport, bind, readStageRef. by rewrite H. Qed.

Lemma doExport_mounted props c s :
  stageRef c = Some s →
  doExport props c =
    match stage_draw (hidden s) with
    | Throw e => (Throw e, setStage c (hidden s))
    | Ok _ =>
        match stage_toDataURL (pngConfig props) (hidden s) with
        | Throw e => (Throw e, setStage c (hidden s))
        | Ok png =>
            match stage_toDataURL (jpegConfig props) (hidden s) with
            | Throw e => (Throw e, setStage c (hidden s))
            | Ok jpeg =>
                match stage_draw s with
                | Throw e => (Throw e, setStage c s)
                | Ok _ => callOnExport props png jpeg (setStage c s)
                end
            end
        end
    end.
Proof.
  intros Hs.
  unfold doExport, bind, readStageRef, findTransformerVisibility,
    forEachTransformer, draw, toDataURL, onStage.
  rewrite Hs. simpl. rewrite Hs. simpl.
  fold (hidden s).
  destruct (stage_draw (hidden s)); [|done].
  destruct (stage_toDataURL (pngConfig props) (hidden s)); [|done].
  destruct (stage_toDataURL (jpegConfig props) (hidden s)); [|done].
  unfold hidden. simpl. rewrite restore_hidden, stage_eta.
  by destruct (stage_draw s).
Qed.

Lemma doExport_returns props c c' s :
  stageRef c = Some s →
  doExport props c = (Ok (), c') →
  ∃ png jpeg,
    stage_draw (hidden s) = Ok ()
    ∧ stage_toDataURL (pngConfig props) (hidden s) = Ok png
    ∧ stage_toDataURL (jpegConfig props) (hidden s) = Ok jpeg
    ∧ stage_draw s = Ok ()
    ∧ callOnExport props png jpeg (setStage c s) = (Ok (), c').
Proof.
  intros Hs. rewrite (doExport_mounted props c s Hs).
  destruct (stage_draw (hidden s)) as [[]|]; [|done].
  destruct (stage_toDataURL (pngConfig props) (hidden s)) as [png|]; [|done].
  destruct (stage_toDataURL (jpegConfig props) (hidden s)) as [jpeg|]; [|done].
  destruct (stage_draw s) as [[]|]; [|done].
  intros H. by exists png, jpeg.
Qed.

Lemma doExport_succeeds props c s png jpeg :
  stageRef c = Some s →
  stage_draw (hidden s) = Ok () →
  stage_toDataURL (pngConfig props) (hidden s) = Ok png →
  stage_toDataURL (jpegConfig props) (hidden s) = Ok jpeg →
  stage_draw s = Ok () →
  doExport props c = callOnExport props png jpeg (setStage c s).
Proof.
  intros Hs H1 H2 H3 H4.
  by rewrite (doExport_mounted props c s Hs), H1, H2, H3, H4.
Qed.

Lemma callOnExport_provided props png jpeg c :
  onExport props = true →
  callOnExport props png jpeg c
  = (Ok (), {| stageRef := stageRef c;
               prevExportTokenRef := prevExportTokenRef c;
               onExport_calls := onExport_calls c ++ [(png, jpeg)] |}).
Proof. intros H. unfold callOnExport. by rewrite H. Qed.

(** C4, in the form the code supports.  When [doExport] returns, every transformer has the
    visibility it had before the call, and the export token ref is
    untouched; without a mounted stage [doExport] returns at once and
    touches nothing.  When a draw or an encoding throws, [doExport] is
    left at that call: the exception reaches the caller, and the
    transformers are still hidden unless the throw came from the draw
    that follows the restoring loop. *)
Theorem C4_overlays_restored_on_return props c :
  (∀ c', doExport props c = (Ok (), c') →
         stageRef c' = stageRef c
         ∧ prevExportTokenRef c' = prevExportTokenRef c)
  ∧ (stageRef c = None → doExport props c = (Ok (), c))
  ∧ (∀ e c', doExport props c = (Throw e, c') →
       ∃ s, stageRef c = Some s
            ∧ (stageRef c' = Some (hidden s)
               ∨ (stageRef c' = Some s ∧ stage_draw s = Throw e))).
Proof.
  split_and!.
  - intros c' Hrun. destruct (stageRef c) as [s|] eqn:Hs.
    + destruct (doExport_returns props c c' s Hs Hrun)
        as (png & jpeg & _ & _ & _ & _ & Hcall).
      unfold callOnExport in Hcall.
      destruct (onExport props); by simplify_eq.
    + rewrite (doExport_unmounted props c Hs) in Hrun. by simplify_eq.
  - apply doExport_unmounted.
  - intros e c'. destruct (stageRef c) as [s|] eqn:Hs.
    + rewrite (doExport_mounted props c s Hs). intros Hrun. exists s.
      split; [done|].
      destruct (stage_draw (hidden s)) as [[]|];
        [|simplify_eq; by left].
      destruct (stage_toDataURL (pngConfig props) (hidden s)) as [png|];
        [|simplify_eq; by left].
      destruct (stage_toDataURL (jpegConfig props) (hidden s)) as [jpeg|];
        [|simplify_eq; by left].
      destruct (stage_draw s) as [[]|] eqn:Hdraw.
      * unfold callOnExport in Hrun. by destruct (onExport props).
      * simplify_eq. by right.
    + by rewrite (doExport_unmounted props c Hs).
Qed.

(** C9. With a mounted stage and an [onExport] prop, an export that
    returns hands out a PNG and a JPEG data URL and leaves the stage as it
    found it; a second export right after it returns as well and hands out
    the same two data URLs. *)
Theorem C9_export_twice_same_output props c c1 s :
  stageRef c = Some s →
  onExport props = true →
  doExport props c = (Ok (), c1) →
  ∃ png jpeg c2,
    onExport_calls c1 = onExport_calls c ++ [(png, jpeg)]
    ∧ stageRef c1 = Some s
    ∧ doExport props c1 = (Ok (), c2)
    ∧ onExport_calls c2 = onExport_calls c1 ++ [(png, jpeg)]
    ∧ stageRef c2 = Some s.
Proof.
  intros Hs Hon Hrun.
  destruct (doExport_returns props c c1 s Hs Hrun)
    as (png & jpeg & H1 & H2 & H3 & H4 & Hcall).
  rewrite callOnExport_provided in Hcall by done. simplify_eq. simpl.
  set (c1 := {| stageRef := Some s;
                prevExportTokenRef := prevExportTokenRef c;
                onExport_calls := onExport_calls c ++ [(png, jpeg)] |}).
  exists png, jpeg,
    {| stageRef := Some s;
       prevExportTokenRef := prevExportTokenRef c1;
       onExport_calls := onExport_calls c1 ++ [(png, jpeg)] |}.
  split_and!; try done.
  rewrite (doExport_succeeds props c1 s png jpeg) by done.
  by rewrite callOnExport_provided.
Qed.

(** The export-token effect, case by case. *)
Lemma exportEffect_first props c :
  prevExportTokenRef c = None →
  exportEffect props c
  = (Ok (), {| stageRef := stageRef c;
               prevExportTokenRef := requestExportToken props;
               onExport_calls := onExport_calls c |}).
Proof. intros H. unfold exportEffect. by rewrite H. Qed.

Lemma exportEffect_null props c prev :
  prevExportTokenRef c = Some prev →
  requestExportToken props = None →
  exportEffect props c = (Ok (), c).
Proof. intros H Ht. unfold exportEffect. by rewrite H, Ht. Qed.

Lemma exportEffect_same props c prev :
  prevExportTokenRef c = Some prev →
  requestExportToken props = Some prev →
  exportEffect props c = (Ok (), c).
Proof.
  intros H Ht. unfold exportEffect. rewrite H, Ht.
  by rewrite decide_False by (by intros []).
Qed.

Lemma exportEffect_changed props c prev t :
  prevExportTokenRef c = Some prev →
  requestExportToken props = Some t →
  t ≠ prev →
  exportEffect props c
  = doExport props {| stageRef := stageRef c;
                      prevExportTokenRef := Some t;
                      onExport_calls := onExport_calls c |}.
Proof.
  intros H Ht Hne. unfold exportEffect. rewrite H, Ht.
  by rewrite decide_True by done.
Qed.

Lemma runEffects_cons props (rest : list Props) c :
  runEffects (props :: rest) c
  = match exportEffect props c with
    | (Ok _, c1) => runEffects rest c1
    | (Throw e, c1) => (Throw e, c1)
    end.
Proof. done. Qed.

(** The effect, run by run, on a component whose stage is mounted and
    whose Konva calls return. *)
Lemma runEffects_calls props s png jpeg (tokens : list (option Z)) c :
  onExport props = true →
  stage_draw (hidden s) = Ok () →
  stage_toDataURL (pngConfig props) (hidden s) = Ok png →
  stage_toDataURL (jpegConfig props) (hidden s) = Ok jpeg →
  stage_draw s = Ok () →
  stageRef c = Some s →
  ∃ c', runEffects (withToken props <$> tokens) c = (Ok (), c')
        ∧ stageRef c' = Some s
        ∧ onExport_calls c'
          = onExport_calls c
            ++ replicate (match prevExportTokenRef c with
                          | None => changes (numeric tokens)
                          | Some prev => changesAfter prev (numeric tokens)
                          end) (png, jpeg).
Proof.
  intros Hon H1 H2 H3 H4. revert c.
  induction tokens as [|token tokens IH]; intros c Hs.
  - exists c. simpl. split_and!; [done..|].
    destruct (prevExportTokenRef c); simpl; by rewrite (right_id_L [] (++)).
  - rewrite fmap_cons, runEffects_cons.
    destruct (prevExportTokenRef c) as [prev|] eqn:Hprev.
    + destruct token as [t|].
      * destruct (decide (t = prev)) as [->|Hne].
        -- rewrite (exportEffect_same _ c prev) by done.
           destruct (IH c Hs) as (c' & -> & Hs' & Hcalls). exists c'.
           split_and!; [done..|]. rewrite Hcalls, Hprev.
           unfold numeric. simpl. by rewrite decide_False by (by intros []).
        -- rewrite (exportEffect_changed _ c prev t) by done.
           rewrite (doExport_succeeds _ _ s png jpeg) by done.
           rewrite callOnExport_provided by done.
           edestruct IH as (c' & -> & Hs' & Hcalls); [|exists c'].
           { done. }
           split_and!; [done..|]. rewrite Hcalls.
           unfold numeric. simpl. rewrite decide_True by done. simpl.
           by rewrite <- (assoc_L (++)).
      * rewrite (exportEffect_null _ c prev) by done.
        destruct (IH c Hs) as (c' & -> & Hs' & Hcalls). exists c'.
        split_and!; [done..|]. by rewrite Hcalls, Hprev.
    + rewrite exportEffect_first by done.
      edestruct IH as (c' & -> & Hs' & Hcalls); [|exists c'].
      { done. }
      split_and!; [done..|]. rewrite Hcalls. simpl.
      by destruct token.
Qed.

Lemma numeric_Some (ts : list Z) : numeric (Some <$> ts) = ts.
Proof.
  induction ts as [|t ts IH]; [done|].
  change (numeric (Some <$> t :: ts)) with (t :: numeric (Some <$> ts)).
  by rewrite IH.
Qed.

(** C8.  On a mounted stage whose Konva calls return, with an [onExport]
    prop: for every sequence of export-token values the first value
    observed after mount never triggers an export, and thereafter each
    value triggers exactly one export, that is one [onExport] call with the
    PNG and the JPEG data URL, when it differs from the value before it, and
    none when it equals it: the exports are as many as the changes of the
    token value, and a lone first value triggers none.  [null] is the
    editor's way of saying that there is no token
    ([requestExportToken ?? null], the initial value of the ref); no page
    passes it, and an observation of [null] neither fires nor counts as a
    value. *)
Theorem C8_one_export_per_numeric_change props s png jpeg
    (tokens : list (option Z)) :
  onExport props = true →
  stage_draw (hidden s) = Ok () →
  stage_toDataURL (pngConfig props) (hidden s) = Ok png →
  stage_toDataURL (jpegConfig props) (hidden s) = Ok jpeg →
  stage_draw s = Ok () →
  ∃ c', runEffects (withToken props <$> tokens) (mount s) = (Ok (), c')
        ∧ stageRef c' = Some s
        ∧ onExport_calls c' = replicate (changes (numeric tokens)) (png, jpeg)
        ∧ (∀ ts, tokens = Some <$> ts →
             onExport_calls c' = replicate (changes ts) (png, jpeg))
        ∧ (∀ t, tokens = [t] → onExport_calls c' = []).
Proof.
  intros Hon H1 H2 H3 H4.
  destruct (runEffects_calls props s png jpeg tokens (mount s))
    as (c' & Hrun & Hs & Hcalls); [done..|].
  simpl in Hcalls. exists c'. split_and!; [done..| |].
  - intros ts ->. by rewrite Hcalls, numeric_Some.
  - intros t ->. rewrite Hcalls. by destruct t.
Qed.

Section Region.

(** What the stage shows at a point, and the contract of
    [stage.toDataURL]: its result is determined by what the stage shows
    inside the rectangle it is asked for. *)
Context {Color : Type} (pixelAt : Stage Scene → Q → Q → Color).

Hypothesis toDataURL_reads_region : ∀ cfg s1 s2,
  (∀ px py,
     cfg_x cfg <= px < cfg_x cfg + cfg_width cfg →
     cfg_y cfg <= py < cfg_y cfg + cfg_height cfg →
     pixelAt s1 px py = pixelAt s2 px py) →
  stage_toDataURL cfg s1 = stage_toDataURL cfg s2.

(** C3. An export that returns hands [onExport] two data URLs, both
    read from the stage with its transformers hidden: one with mime
    type PNG, one with mime type JPEG at quality 0.95, both at pixel
    ratio 2 and both over the rectangle that starts at (0, 0) and is
    [width] by [height], the size of the canvas and not of the stage
    (in variant B the stage is strictly larger on both axes).
    Nothing outside that rectangle reaches the output: an export of any
    other stage that shows the same inside the rectangle hands out the
    same two data URLs. *)
Theorem C3_export_reads_canvas_rectangle props c c' s :
  stageRef c = Some s →
  onExport props = true →
  doExport props c = (Ok (), c') →
  ∃ png jpeg,
    onExport_calls c' = onExport_calls c ++ [(png, jpeg)]
    ∧ stage_toDataURL (pngConfig props) (hidden s) = Ok png
    ∧ stage_toDataURL (jpegConfig props) (hidden s) = Ok jpeg
    ∧ Forall (λ cfg, cfg_x cfg = 0 ∧ cfg_y cfg = 0
                     ∧ cfg_width cfg = props_width props
                     ∧ cfg_height cfg = props_height props
                     ∧ pixelRatio cfg = 2 ∧ 2 <= pixelRatio cfg)
             [pngConfig props; jpegConfig props]
    ∧ mimeType (pngConfig props) = "image/png"
    ∧ quality (pngConfig props) = None
    ∧ mimeType (jpegConfig props) = "image/jpeg"
    ∧ quality (jpegConfig props) = Some (95 # 100)
    ∧ (0 < props_width props → 0 < props_height props →
       cfg_width (pngConfig props) < VariantB.stageWidth props
       ∧ cfg_height (pngConfig props) < VariantB.stageHeight props)
    ∧ (∀ c2 c2' s2,
         stageRef c2 = Some s2 →
         doExport props c2 = (Ok (), c2') →
         (∀ px py, 0 <= px < props_width props →
                   0 <= py < props_height props →
                   pixelAt (hidden s) px py = pixelAt (hidden s2) px py) →
         onExport_calls c2' = onExport_calls c2 ++ [(png, jpeg)]).
Proof.
  intros Hs Hon Hrun.
  destruct (doExport_returns props c c' s Hs Hrun)
    as (png & jpeg & H1 & H2 & H3 & H4 & Hcall).
  rewrite callOnExport_provided in Hcall by done. simplify_eq. simpl.
  exists png, jpeg. split_and!; try done.
  - repeat constructor; simpl; lra.
  - intros Hw Hh. unfold VariantB.stageWidth, VariantB.stageHeight, JS.Math_max.
    pose proof (Q.le_max_l (props_width props * (15 # 10)) 1440).
    pose proof (Q.le_max_l (props_height props * (15 # 10)) 810).
    simpl. split; lra.
  - intros c2 c2' s2 Hs2 Hrun2 Hsame.
    destruct (doExport_returns props c2 c2' s2 Hs2 Hrun2)
      as (png2 & jpeg2 & _ & H2' & H3' & _ & Hcall2).
    rewrite callOnExport_provided in Hcall2 by done. simplify_eq. simpl.
    assert (Hin : ∀ cfg, cfg_x cfg = 0 → cfg_y cfg = 0 →
              cfg_width cfg = props_width props →
              cfg_height cfg = props_height props →
              stage_toDataURL cfg (hidden s) = stage_toDataURL cfg (hidden s2)).
    { intros cfg Hx Hy Hw Hh. apply toDataURL_reads_region.
      intros px py. rewrite Hx, Hy, Hw, Hh. intros ? ?.
      apply Hsame; lra. }
    rewrite (Hin (pngConfig props)) in H2 by done.
    rewrite (Hin (jpegConfig props)) in H3 by done.
    congruence.
Qed.

End Region.

End ExportFacts.

(** ** The polygon clip: computed, never attached *)

Section PolygonClip.

Import Editor.

Lemma polygonKonvaPoints_length (pts : list Pos) :
  length (polygonKonvaPoints pts) = (2 * length pts)%nat.
Proof.
  unfold polygonKonvaPoints. induction pts as [|p pts IH]; [done|].
  change (length (pos_x p :: pos_y p :: (pts ≫= λ p, [pos_x p; pos_y p]))
          = (2 * S (length pts))%nat).
  simpl in *. lia.
Qed.

Lemma images_no_clip (bound : bool) (loaded : string → bool)
    (its : list FurnitureItem) :
  (DraggableTransformableImage bound loaded <$> its) ≫= node_clips = [].
Proof. induction its as [|it its IH]; [done|]. simpl. exact IH. Qed.

Lemma transformers_no_clip {A} (its : list A) :
  ((λ _, Transformer 8 1) <$> its) ≫= node_clips = [].
Proof. induction its as [|it its IH]; [done|]. simpl. exact IH. Qed.

Lemma backgroundLayer_no_clip loaded props :
  layer_clips (backgroundLayer loaded props) = [].
Proof.
  unfold layer_clips, backgroundLayer. simpl.
  by destruct (useHTMLImage loaded (background props)).
Qed.

Lemma polygonOverlay_no_clip props :
  polygonOverlay props ≫= layer_clips = [].
Proof.
  unfold polygonOverlay. case_decide; [|done].
  unfold layer_clips. simpl. by case_bool_decide.
Qed.

(** C2, what the code does.  In polygon mode with at least three
    points, [itemsClipFunc] does yield the closed path through the points,
    but neither variant hands it to a layer or a group: the rendered stage
    carries no clip function at all, so every item and the background are
    drawn in full, inside and outside the polygon. *)
Theorem C2_polygon_clip_never_attached (props : Props)
    (loaded : string → bool) (isMobile brushMaskImage : bool) :
  maskMode props = polygon →
  (3 ≤ length (polygonPoints props))%nat →
  itemsClipFunc props brushMaskImage
  = Some (clipPath (polygonKonvaPoints (polygonPoints props)))
  ∧ stage_clips (VariantA.render loaded isMobile props) = []
  ∧ stage_clips (VariantB.render loaded props) = []
  ∧ Forall (λ l, layer_clipFunc l = None)
           (layers (VariantA.render loaded isMobile props)
            ++ layers (VariantB.render loaded props)).
Proof.
  intros Hmode Hlen. split_and!.
  - unfold itemsClipFunc. rewrite bool_decide_eq_true_2; [done|].
    split; [done|]. rewrite polygonKonvaPoints_length. lia.
  - unfold stage_clips. simpl.
    rewrite backgroundLayer_no_clip, polygonOverlay_no_clip.
    unfold layer_clips. simpl.
    rewrite bind_app, images_no_clip. done.
  - unfold stage_clips. simpl.
    rewrite backgroundLayer_no_clip, polygonOverlay_no_clip.
    unfold layer_clips. simpl.
    rewrite bind_app, images_no_clip, transformers_no_clip. done.
  - simpl. unfold polygonOverlay. rewrite decide_True by done.
    repeat constructor.
Qed.

End PolygonClip.

(** * Worked instances *)

Section Instances.

Import Samples.

Ltac by_computation := vm_compute; first [reflexivity | discriminate | exact I].

(** Closes a goal from a false inequality between rational constants. *)
Ltac refute_le H := vm_compute in H; exact (H eq_refl).

Lemma abc_ids_distinct : NoDup (Page.id <$> Page.draggableImages abc).
Proof. apply (bool_decide_unpack _). by_computation. Defined.

(** Dragging the lamp of the sample scene far out of the canvas in
    variant A leaves it inside the canvas. *)
Lemma C1_drag_lamp_stays_inside :
  NoDup (Page.id <$> Page.draggableImages abc)
  ∧ ∀ d', Page.draggableImages
            (Wiring.dragsA allLoaded false canvas [(1%nat, outside)] abc) !! 1%nat
          = Some d' →
          Wiring.inBounds canvas d'.
Proof.
  split; [exact abc_ids_distinct|]. intros d' Hd'.
  destruct (C1_drag_clamped_in_variantA allLoaded false canvas
              [(1%nat, outside)] abc abc_ids_distinct) as [Hclamp _].
  destruct (Hclamp 1%nat d' Hd') as [_ Hin].
  - left. apply list_elem_of_here.
  - apply Hin. vm_compute in Hd'. injection Hd' as <-.
    split; by_computation.
Defined.

(** The same drag in variant B puts the lamp outside the canvas, and
    in variant A a rug larger than the canvas cannot be inside it. *)
Lemma C1_variantB_leaves_canvas :
  (∃ d', Page.draggableImages
           (Wiring.dragsB canvas [(1%nat, outside)] abc) !! 1%nat = Some d'
         ∧ ¬ Wiring.inBounds canvas d')
  ∧ (∃ d', Page.draggableImages
             (Wiring.dragsA allLoaded false canvas [(0%nat, outside)] (scene [wide]))
             !! 0%nat = Some d'
           ∧ ¬ Wiring.inBounds canvas d').
Proof.
  split.
  - eexists. split; [reflexivity|].
    intros [[Hx _] _]. refute_le Hx.
  - eexists. split; [reflexivity|].
    intros [[_ Hx] _]. refute_le Hx.
Qed.

(** Two adds of the sofa, one millisecond apart. *)
Lemma C5_two_sofas :
  (0 <= 1 # 4 < 1 ∧ 0 <= 3 # 4 < 1 ∧ 0 <= 1 # 2 < 1 ∧ 0 <= 1 # 8 < 1)
  ∧ Page.getInstanceCount
      (Page.draggableImages
         (Page.addToMoodboard sofa 1001 (1 # 2) (1 # 8)
            (Page.addToMoodboard sofa 1000 (1 # 4) (3 # 4) Page.initial)))
      sofa = 2%nat.
Proof.
  assert (H14 : 0 <= 1 # 4 < 1) by (split; by_computation).
  assert (H34 : 0 <= 3 # 4 < 1) by (split; by_computation).
  assert (H12 : 0 <= 1 # 2 < 1) by (split; by_computation).
  assert (H18 : 0 <= 1 # 8 < 1) by (split; by_computation).
  split; [done|].
  destruct (C5_addToMoodboard_appends_one sofa 1000 1001
              (1 # 4) (3 # 4) (1 # 2) (1 # 8) Page.initial H14 H34 H12 H18)
    as (_ & _ & _ & _ & _ & _ & _ & _ & _ & _ & Htwice).
  destruct (Htwice eq_refl) as (_ & _ & Hcount & _).
  exact Hcount.
Defined.

(** Two adds of the sofa within one millisecond and with the same two
    random readings: two layers, one id, one position. *)
Lemma C5_same_millisecond_same_id :
  ∃ a b,
    Page.draggableImages
      (Page.addToMoodboard sofa 1000 (1 # 2) (1 # 2)
         (Page.addToMoodboard sofa 1000 (1 # 2) (1 # 2) Page.initial))
    = [a; b]
    ∧ Page.url a = Page.url b
    ∧ Page.id a = Page.id b
    ∧ Page.x a = Page.x b ∧ Page.y a = Page.y b.
Proof. eexists _, _. by split_and!. Qed.

(** Where the moved layer itself ends up: first, not second. *)
Lemma lamp_front_then_back_is_first :
  Page.draggableImages
    (Page.sendToBack "lamp-2" (Page.bringToFront "lamp-2" abc))
  = [layerB; layerA; layerC].
Proof. reflexivity. Qed.

(** Squeezing the lamp of the sample scene. *)
Lemma C6_squeezed_lamp :
  Page.draggableImages abc !! 1%nat = Some layerB
  ∧ ∃ d', Page.draggableImages (Wiring.resizeLayer canvas 1 squeezed abc) !! 1%nat
          = Some d'
          ∧ 10 <= Page.width d' ∧ 10 <= Page.height d'
          ∧ Page.rotation d' = Some 45.
Proof.
  split; [reflexivity|].
  destruct (C6_resize_sets_size_with_floor canvas 1 squeezed abc layerB eq_refl)
    as [(d' & Hd' & _ & _ & Hrot & Hw & Hh & _) _].
  exists d'. by split_and!.
Defined.

(** Lamp to the front, then to the back: sofa-1 still comes before
    sofa-3. *)
Lemma C7_lamp_front_then_back :
  Exists (λ img, Page.id img = "lamp-2") (Page.draggableImages abc)
  ∧ filter (λ img, Page.id img ≠ "lamp-2")
      (Page.draggableImages
         (Page.sendToBack "lamp-2" (Page.bringToFront "lamp-2" abc)))
    = [layerA; layerC].
Proof.
  assert (Hin : Exists (λ img, Page.id img = "lamp-2") (Page.draggableImages abc))
    by (apply Exists_cons_tl, Exists_cons_hd; reflexivity).
  split; [exact Hin|].
  destruct (C7_front_then_back_keeps_others "lamp-2" abc Hin) as [Hothers _].
  rewrite Hothers. reflexivity.
Defined.

(** The sample rasterizer honours the contract of [toDataURL]. *)
Lemma rasterizer_reads_region (cfg : Exporting.ToDataURLConfig)
    (s1 s2 : Exporting.Stage Paint) :
  (∀ px py,
     Exporting.cfg_x cfg <= px < Exporting.cfg_x cfg + Exporting.cfg_width cfg →
     Exporting.cfg_y cfg <= py < Exporting.cfg_y cfg + Exporting.cfg_height cfg →
     Exporting.scene s1 px py = Exporting.scene s2 px py) →
  @Exporting.stage_toDataURL Paint rasterizer cfg s1
  = @Exporting.stage_toDataURL Paint rasterizer cfg s2.
Proof.
  intros Hsame. simpl. unfold sample.
  destruct (Qlt_le_dec 0 (Exporting.cfg_width cfg)) as [Hw|]; [|done].
  destruct (Qlt_le_dec 0 (Exporting.cfg_height cfg)) as [Hh|]; [|done].
  rewrite Hsame; [done|split; lra..].
Qed.

(** One export of the sample stage. *)
Lemma C3_sample_export :
  ∃ c',
    (Exporting.stageRef (Exporting.mount stage) = Some stage
     ∧ Editor.onExport editorProps = true
     ∧ @Exporting.doExport Paint rasterizer editorProps (Exporting.mount stage)
       = (Exporting.Ok (), c'))
    ∧ Exporting.onExport_calls c'
      = [("data:image/png,painted", "data:image/jpeg,painted")].
Proof.
  eexists. split; [split_and!; reflexivity|].
  destruct (@C3_export_reads_canvas_rectangle Paint rasterizer bool
              (λ s, Exporting.scene s) rasterizer_reads_region
              editorProps (Exporting.mount stage) _ stage
              eq_refl eq_refl eq_refl)
    as (png & jpeg & Hcalls & Hpng & Hjpeg & _).
  injection Hpng as <-. injection Hjpeg as <-. exact Hcalls.
Defined.

(** Both pages hand the editor a numeric token, which [downloadMoodboard]
    bumps by one when there is something to export. *)
Lemma page_token_is_numeric (cv : Wiring.Canvas) (st : Page.State) :
  Editor.requestExportToken (Wiring.props cv st) = Some (Page.exportToken st)
  ∧ (Page.draggableImages st ≠ [] →
     Page.exportToken (Page.downloadMoodboard st) = (Page.exportToken st + 1)%Z).
Proof.
  split; [done|]. intros Hne. unfold Page.downloadMoodboard.
  rewrite bool_decide_eq_false_2; [done|]. by intros [? _].
Qed.

(** Two exports of the sample stage in a row. *)
Lemma C9_sample_export_twice :
  ∃ c1,
    (Exporting.stageRef (Exporting.mount stage) = Some stage
     ∧ Editor.onExport editorProps = true
     ∧ @Exporting.doExport Paint rasterizer editorProps (Exporting.mount stage)
       = (Exporting.Ok (), c1))
    ∧ ∃ c2, @Exporting.doExport Paint rasterizer editorProps c1
            = (Exporting.Ok (), c2)
            ∧ Exporting.stageRef c2 = Some stage.
Proof.
  eexists. split; [split_and!; reflexivity|].
  destruct (@C9_export_twice_same_output Paint rasterizer
              editorProps (Exporting.mount stage) _ stage
              eq_refl eq_refl eq_refl)
    as (png & jpeg & c2 & _ & _ & Hrun & _ & Hstage).
  by exists c2.
Defined.

(** Tokens 0, 1, 1, null, 2: two exports. *)
Lemma C8_sample_token_run :
  (Editor.onExport editorProps = true
   ∧ @Exporting.stage_draw Paint rasterizer (Exporting.hidden stage)
     = Exporting.Ok ()
   ∧ @Exporting.stage_toDataURL Paint rasterizer
       (Exporting.pngConfig editorProps) (Exporting.hidden stage)
     = Exporting.Ok "data:image/png,painted"
   ∧ @Exporting.stage_toDataURL Paint rasterizer
       (Exporting.jpegConfig editorProps) (Exporting.hidden stage)
     = Exporting.Ok "data:image/jpeg,painted"
   ∧ @Exporting.stage_draw Paint rasterizer stage = Exporting.Ok ())
  ∧ ∃ c', @Exporting.runEffects Paint rasterizer
            (Exporting.withToken editorProps
               <$> [Some 0%Z; Some 1%Z; Some 1%Z; None; Some 2%Z])
            (Exporting.mount stage)
          = (Exporting.Ok (), c')
          ∧ length (Exporting.onExport_calls c') = 2%nat.
Proof.
  split; [split_and!; reflexivity|].
  destruct (@C8_one_export_per_numeric_change Paint rasterizer
              editorProps stage _ _
              [Some 0%Z; Some 1%Z; Some 1%Z; None; Some 2%Z]
              eq_refl eq_refl eq_refl eq_refl eq_refl)
    as (c' & Hrun & _ & Hcalls & _).
  exists c'. split; [exact Hrun|]. by rewrite Hcalls.
Defined.

(** On a tainted canvas the read-back throws, and the handle that was
    visible before the export is hidden after it. *)
Lemma C4_throwing_readback_leaves_handles_hidden :
  ∃ c', @Exporting.doExport Paint tainted editorProps (Exporting.mount stage)
        = (Exporting.Throw "SecurityError", c')
        ∧ Exporting.transformers <$> Exporting.stageRef (Exporting.mount stage)
          = Some [true]
        ∧ Exporting.transformers <$> Exporting.stageRef c' = Some [false].
Proof. eexists. split_and!; reflexivity. Qed.

(** The sample scene under the triangle lasso: the path exists, the
    stage has no clip. *)
Lemma C2_lasso_without_clip :
  (Editor.maskMode (Wiring.props lasso abc) = Editor.polygon
   ∧ (3 ≤ length (Editor.polygonPoints (Wiring.props lasso abc)))%nat)
  ∧ Editor.itemsClipFunc (Wiring.props lasso abc) false
    = Some [Editor.beginPath; Editor.moveTo 0 0; Editor.lineTo 100 0;
            Editor.lineTo 0 100; Editor.closePath]
  ∧ Editor.stage_clips (VariantA.render allLoaded false (Wiring.props lasso abc)) = []
  ∧ Editor.stage_clips (VariantB.render allLoaded (Wiring.props lasso abc)) = [].
Proof.
  split; [split; [reflexivity|by_computation]|].
  destruct (C2_polygon_clip_never_attached (Wiring.props lasso abc)
              allLoaded false false eq_refl)
    as (Hpath & HA & HB & _).
  - by_computation.
  - split_and!; [|exact HA|exact HB]. rewrite Hpath. reflexivity.
Defined.

End Instances.

(** * Double-precision rounding

    [Double.round] is within half a unit in the last place of its argument,
    monotone, and the identity on the whole numbers below [2^53]. *)

Section Rounding.

Import Double.

Lemma pow2_pos e : 0 < pow2 e.
Proof. apply Qpower_0_lt. reflexivity. Qed.

Lemma pow2_add a b : pow2 (a + b) == pow2 a * pow2 b.
Proof. apply Qpower_plus. discriminate. Qed.

Lemma pow2_cancel e : pow2 (- e) * pow2 e == 1.
Proof. rewrite <- pow2_add. by replace (- e + e)%Z with 0%Z by lia. Qed.

Lemma pow2_le a b : (a ≤ b)%Z → pow2 a <= pow2 b.
Proof. intros H. apply Qpower_le_compat_l; [done|]. discriminate. Qed.

Lemma pow2_lt_inv a b : pow2 a < pow2 b → (a < b)%Z.
Proof. intros H. eapply Qpower_lt_compat_l_inv; [exact H|reflexivity]. Qed.

Lemma pow2_Z k : (0 ≤ k)%Z → pow2 k == inject_Z (2 ^ k).
Proof. intros H. unfold pow2. by rewrite Zpower_Qpower. Qed.

Lemma nearestEven_error x :
  inject_Z (nearestEven x) - x <= 1 # 2 ∧ x - inject_Z (nearestEven x) <= 1 # 2.
Proof.
  unfold nearestEven.
  pose proof (Qfloor_le x) as Hlo. pose proof (Qlt_floor x) as Hhi.
  rewrite inject_Z_plus in Hhi. change (inject_Z 1) with 1 in Hhi.
  destruct (Qcompare_spec (x - inject_Z (Qfloor x)) (1 # 2)) as [Heq|Hlt|Hgt].
  - destruct (Z.even (Qfloor x)); rewrite ?inject_Z_plus;
      change (inject_Z 1) with 1; split; lra.
  - split; lra.
  - rewrite inject_Z_plus. change (inject_Z 1) with 1. split; lra.
Qed.

Lemma nearestEven_Z z : nearestEven (inject_Z z) = z.
Proof.
  unfold nearestEven. rewrite Qfloor_Z.
  destruct (Qcompare_spec (inject_Z z - inject_Z z) (1 # 2)) as [H|H|H]; [lra|done|lra].
Qed.

Lemma nearestEven_mono x y : x <= y → (nearestEven x ≤ nearestEven y)%Z.
Proof.
  intros Hxy. unfold nearestEven.
  pose proof (Qfloor_resp_le x y Hxy) as Hf.
  pose proof (Qfloor_le x) as Hx. pose proof (Qlt_floor x) as Hx'.
  pose proof (Qfloor_le y) as Hy. pose proof (Qlt_floor y) as Hy'.
  rewrite inject_Z_plus in Hx', Hy'. change (inject_Z 1) with 1 in Hx', Hy'.
  destruct (decide (Qfloor x = Qfloor y)) as [Heq|Hne].
  - rewrite <- Heq.
    destruct (Qcompare_spec (x - inject_Z (Qfloor x)) (1 # 2)) as [H|H|H];
      destruct (Qcompare_spec (y - inject_Z (Qfloor x)) (1 # 2)) as [H'|H'|H'];
      try destruct (Z.even (Qfloor x)); try lia; lra.
  - assert (Qfloor x + 1 ≤ Qfloor y)%Z by lia.
    destruct (Qcompare (x - inject_Z (Qfloor x)) (1 # 2));
      destruct (Qcompare (y - inject_Z (Qfloor y)) (1 # 2));
      try destruct (Z.even (Qfloor x)); try destruct (Z.even (Qfloor y)); lia.
Qed.

Lemma nearestEven_comp x y : x == y → nearestEven x = nearestEven y.
Proof.
  intros H. apply Z.le_antisymm; apply nearestEven_mono; rewrite H; apply Qle_refl.
Qed.

Lemma scaled_lt q e k : q * pow2 (- e) < pow2 k ↔ q < pow2 (k + e).
Proof.
  rewrite pow2_add. pose proof (pow2_pos e) as He. pose proof (pow2_cancel e) as Hc.
  split; intros H.
  - apply (Qmult_lt_r _ _ (pow2 (- e))); [apply pow2_pos|].
    assert (E : pow2 k * pow2 e * pow2 (- e) == pow2 k)
      by (rewrite <- Qmult_assoc, (Qmult_comm (pow2 e)), Hc; ring).
    by rewrite E.
  - apply (Qmult_lt_r _ _ (pow2 e)); [done|].
    assert (E : q * pow2 (- e) * pow2 e == q)
      by (rewrite <- Qmult_assoc, Hc; ring).
    by rewrite E.
Qed.

Lemma scaled_le q e k : pow2 k <= q * pow2 (- e) ↔ pow2 (k + e) <= q.
Proof.
  pose proof (scaled_lt q e k) as H.
  split; intros Hle; apply Qnot_lt_le; intros Hlt; apply (Qle_not_lt _ _ Hle);
    by apply H.
Qed.

Lemma magnitude q :
  0 < q →
  let l := (Z.log2 (Qnum q) - Z.log2 (Zpos (Qden q)))%Z in
  pow2 (l - 1) < q ∧ q < pow2 (l + 1).
Proof.
  intros Hq. destruct q as [n d]. cbn [Qnum Qden].
  assert (Hn : (0 < n)%Z) by (unfold Qlt in Hq; simpl in Hq; lia).
  pose proof (Z.log2_spec n Hn) as [Hn1 Hn2].
  pose proof (Z.log2_spec (Zpos d) (Pos2Z.is_pos d)) as [Hd1 Hd2].
  pose proof (Z.log2_nonneg n) as Hln. pose proof (Z.log2_nonneg (Zpos d)) as Hld.
  set (ln := Z.log2 n) in *. set (ld := Z.log2 (Zpos d)) in *.
  assert (Hqd : (n # d) * inject_Z (Zpos d) == inject_Z n).
  { unfold Qeq, Qmult, inject_Z. simpl. lia. }
  rewrite Zle_Qle in Hn1, Hd1. rewrite Zlt_Qlt in Hn2, Hd2.
  rewrite <- pow2_Z in Hn1, Hd1, Hn2, Hd2 by lia.
  pose proof (pow2_pos ld) as Hpd.
  assert (Hdpos : 0 < inject_Z (Zpos d)) by (eapply Qlt_le_trans; [exact Hpd|done]).
  split.
  - apply (Qmult_lt_r _ _ (inject_Z (Zpos d))); [done|]. rewrite Hqd.
    eapply Qlt_le_trans; [|exact Hn1].
    replace ln with ((ln - ld - 1) + Z.succ ld)%Z at 2 by lia.
    rewrite (pow2_add (ln - ld - 1)).
    apply Qmult_lt_l; [apply pow2_pos|done].
  - apply (Qmult_lt_r _ _ (pow2 ld)); [done|].
    rewrite <- pow2_add. replace (ln - ld + 1 + ld)%Z with (Z.succ ln) by lia.
    eapply Qle_lt_trans; [|exact Hn2]. rewrite <- Hqd.
    apply Qmult_le_l; [done|done].
Qed.

Lemma exponent_spec q :
  0 < q →
  (-1074 ≤ exponent q)%Z
  ∧ q < pow2 (exponent q + 53)
  ∧ ((-1074 < exponent q)%Z → pow2 (exponent q + 52) <= q).
Proof.
  intros Hq. destruct (magnitude q Hq) as [Hlo Hhi]. unfold exponent.
  set (e0 := (Z.log2 (Qnum q) - Z.log2 (Zpos (Qden q)) - 52)%Z).
  replace (Z.log2 (Qnum q) - Z.log2 (Zpos (Qden q)) - 1)%Z with (e0 + 51)%Z in Hlo
    by (unfold e0; lia).
  replace (Z.log2 (Qnum q) - Z.log2 (Zpos (Qden q)) + 1)%Z with (e0 + 53)%Z in Hhi
    by (unfold e0; lia).
  destruct (Qlt_le_dec (q * pow2 (- e0)) (pow2 52)) as [Hbelow|Habove].
  - apply scaled_lt in Hbelow.
    split; [lia|]. split.
    + eapply Qlt_le_trans; [exact Hbelow|]. apply pow2_le. lia.
    + intros He. replace (Z.max (e0 - 1) (-1074) + 52)%Z with (e0 + 51)%Z by lia.
      by apply Qlt_le_weak.
  - apply scaled_le in Habove.
    split; [lia|]. split.
    + eapply Qlt_le_trans; [exact Hhi|]. apply pow2_le. lia.
    + intros He. by replace (Z.max e0 (-1074) + 52)%Z with (52 + e0)%Z by lia.
Qed.

Lemma roundPositive_error q :
  0 < q →
  roundPositive q - q <= pow2 (-53) * q + pow2 (-1075)
  ∧ q - roundPositive q <= pow2 (-53) * q + pow2 (-1075).
Proof.
  intros Hq. destruct (exponent_spec q Hq) as (Hmin & _ & Hlow).
  unfold roundPositive. set (e := exponent q) in *.
  pose proof (nearestEven_error (q * pow2 (- e))) as [Hup Hdown].
  set (m := inject_Z (nearestEven (q * pow2 (- e)))) in *.
  pose proof (pow2_pos e) as He. pose proof (pow2_cancel e) as Hc.
  assert (Hhalf : pow2 e * (1 # 2) <= pow2 (-53) * q + pow2 (-1075)).
  { pose proof (pow2_pos (-53)) as Hu. pose proof (pow2_pos (-1075)) as Heta.
    destruct (decide (e = (-1074)%Z)) as [->|Hne].
    - assert (E : pow2 (-1074) * (1 # 2) == pow2 (-1075)) by (by vm_compute).
      rewrite E. nra.
    - assert (Hq52 : pow2 (e + 52) <= q) by (apply Hlow; lia).
      assert (E : pow2 e * (1 # 2) == pow2 (-53) * pow2 (e + 52)).
      { rewrite <- pow2_add. replace (-53 + (e + 52))%Z with (e + -1)%Z by lia.
        rewrite pow2_add. apply Qmult_comp; reflexivity. }
      rewrite E. nra. }
  assert (Hq' : m * pow2 e - q == (m - q * pow2 (- e)) * pow2 e).
  { transitivity (m * pow2 e - q * (pow2 (- e) * pow2 e)); [|ring].
    rewrite Hc. ring. }
  assert (Hq'' : q - m * pow2 e == (q * pow2 (- e) - m) * pow2 e).
  { transitivity (q * (pow2 (- e) * pow2 e) - m * pow2 e); [|ring].
    rewrite Hc. ring. }
  split.
  - rewrite Hq'. eapply Qle_trans; [|exact Hhalf].
    rewrite (Qmult_comm (pow2 e)). apply Qmult_le_compat_r; [done|by apply Qlt_le_weak].
  - rewrite Hq''. eapply Qle_trans; [|exact Hhalf].
    rewrite (Qmult_comm (pow2 e)). apply Qmult_le_compat_r; [done|by apply Qlt_le_weak].
Qed.

Lemma mantissa_bounds q :
  0 < q →
  (nearestEven (q * pow2 (- exponent q)) ≤ 2 ^ 53)%Z
  ∧ ((-1074 < exponent q)%Z → (2 ^ 52 ≤ nearestEven (q * pow2 (- exponent q)))%Z).
Proof.
  intros Hq. destruct (exponent_spec q Hq) as (_ & Hhigh & Hlow).
  set (e := exponent q) in *. split.
  - rewrite <- (nearestEven_Z (2 ^ 53)). apply nearestEven_mono.
    rewrite <- pow2_Z by lia. apply Qlt_le_weak. apply scaled_lt.
    by replace (53 + e)%Z with (e + 53)%Z by lia.
  - intros He. rewrite <- (nearestEven_Z (2 ^ 52)). apply nearestEven_mono.
    rewrite <- pow2_Z by lia. apply scaled_le.
    replace (52 + e)%Z with (e + 52)%Z by lia. by apply Hlow.
Qed.

Lemma roundPositive_nonneg q : 0 < q → 0 <= roundPositive q.
Proof.
  intros Hq. unfold roundPositive.
  apply Qmult_le_0_compat; [|apply Qlt_le_weak, pow2_pos].
  change 0 with (inject_Z 0). rewrite <- Zle_Qle.
  rewrite <- (nearestEven_Z 0). apply nearestEven_mono.
  apply Qmult_le_0_compat; [by apply Qlt_le_weak|apply Qlt_le_weak, pow2_pos].
Qed.

Lemma roundPositive_mono q q' :
  0 < q → q <= q' → roundPositive q <= roundPositive q'.
Proof.
  intros Hq Hle. assert (Hq' : 0 < q') by (eapply Qlt_le_trans; done).
  destruct (exponent_spec q Hq) as (Hmin & Hhigh & Hlow).
  destruct (exponent_spec q' Hq') as (Hmin' & Hhigh' & Hlow').
  destruct (mantissa_bounds q Hq) as [Hm _].
  destruct (mantissa_bounds q' Hq') as [_ Hm'].
  unfold roundPositive.
  set (e := exponent q) in *. set (e' := exponent q') in *.
  set (m := nearestEven (q * pow2 (- e))) in *.
  set (m' := nearestEven (q' * pow2 (- e'))) in *.
  assert (Hee : (e ≤ e')%Z).
  { destruct (Z.le_gt_cases e e') as [?|Hgt]; [done|]. exfalso.
    assert (Hlt : pow2 (e + 52) < pow2 (e' + 53)).
    { eapply Qle_lt_trans; [apply Hlow; lia|]. eapply Qle_lt_trans; done. }
    apply pow2_lt_inv in Hlt. lia. }
  destruct (decide (e = e')) as [Heq|Hne].
  - subst m m'. rewrite <- Heq. apply Qmult_le_compat_r; [|apply Qlt_le_weak, pow2_pos].
    rewrite <- Zle_Qle. apply nearestEven_mono.
    apply Qmult_le_compat_r; [done|apply Qlt_le_weak, pow2_pos].
  - apply (Qle_trans _ (pow2 (e + 53))).
    + rewrite Z.add_comm, pow2_add. apply Qmult_le_compat_r; [|apply Qlt_le_weak, pow2_pos].
      rewrite pow2_Z by lia. by rewrite <- Zle_Qle.
    + apply (Qle_trans _ (pow2 (e' + 52))); [apply pow2_le; lia|].
      rewrite Z.add_comm, pow2_add. apply Qmult_le_compat_r; [|apply Qlt_le_weak, pow2_pos].
      rewrite pow2_Z by lia. rewrite <- Zle_Qle. apply Hm'. lia.
Qed.

Lemma roundPositive_Z z :
  (0 < z < 2 ^ 53)%Z → roundPositive (inject_Z z) == inject_Z z.
Proof.
  intros [Hz Hsafe].
  assert (Hq : 0 < inject_Z z) by (change 0 with (inject_Z 0); by rewrite <- Zlt_Qlt).
  destruct (exponent_spec _ Hq) as (Hmin & _ & Hlow).
  unfold roundPositive. set (e := exponent (inject_Z z)) in *.
  assert (He : (e ≤ 0)%Z).
  { destruct (decide (e = (-1074)%Z)) as [->|Hne]; [done|].
    assert (Hlt : pow2 (e + 52) < pow2 53).
    { eapply Qle_lt_trans; [apply Hlow; lia|].
      rewrite pow2_Z by lia. by rewrite <- Zlt_Qlt. }
    apply pow2_lt_inv in Hlt. lia. }
  assert (Hx : inject_Z z * pow2 (- e) == inject_Z (z * 2 ^ (- e))).
  { rewrite inject_Z_mult, pow2_Z by lia. reflexivity. }
  assert (Hm : nearestEven (inject_Z z * pow2 (- e)) = (z * 2 ^ (- e))%Z).
  { rewrite <- (nearestEven_Z (z * 2 ^ (- e))). by apply nearestEven_comp. }
  rewrite Hm, <- Hx, <- Qmult_assoc, pow2_cancel. ring.
Qed.

Lemma round_cases q :
  (q == 0 ∧ round q == 0)
  ∨ (0 < q ∧ round q == roundPositive (Qred q))
  ∨ (q < 0 ∧ round q == - roundPositive (Qred (- q))).
Proof.
  unfold round. rewrite Qred_correct, Qred_opp.
  pose proof (Qred_correct q) as Hred.
  destruct (Qred q) as [[|n|n] d] eqn:Hq; cbn [Qnum].
  - left. split; [|reflexivity]. by rewrite <- Hred.
  - right. left. split; [|reflexivity]. by rewrite <- Hred.
  - right. right. split; [|reflexivity]. by rewrite <- Hred.
Qed.

Lemma round_comp q q' : q == q' → round q = round q'.
Proof. intros H. unfold round. by rewrite (Qred_complete q q' H). Qed.

Lemma round_nonneg q : 0 <= q → 0 <= round q.
Proof.
  intros Hq. destruct (round_cases q) as [[_ ->]|[[Hpos ->]|[Hneg _]]]; [done| |lra].
  apply roundPositive_nonneg. by rewrite Qred_correct.
Qed.

Lemma round_nonpos q : q <= 0 → round q <= 0.
Proof.
  intros Hq. destruct (round_cases q) as [[_ ->]|[[Hpos _]|[Hneg ->]]]; [done|lra|].
  assert (0 <= roundPositive (Qred (- q))); [|lra].
  apply roundPositive_nonneg. rewrite Qred_correct. lra.
Qed.

(** Rounding keeps the order. *)
Lemma round_mono q q' : q <= q' → round q <= round q'.
Proof.
  intros Hle.
  destruct (Qlt_le_dec 0 q) as [Hq|Hq]; [|destruct (Qlt_le_dec q' 0) as [Hq'|Hq']].
  - assert (Hq' : 0 < q') by lra.
    destruct (round_cases q) as [[? _]|[[_ ->]|[? _]]]; [lra| |lra].
    destruct (round_cases q') as [[? _]|[[_ ->]|[? _]]]; [lra| |lra].
    apply roundPositive_mono; rewrite ?Qred_correct; done.
  - assert (Hneg : q < 0) by lra.
    destruct (round_cases q) as [[? _]|[[? _]|[_ ->]]]; [lra|lra|].
    destruct (round_cases q') as [[? _]|[[? _]|[_ ->]]]; [lra|lra|].
    assert (roundPositive (Qred (- q')) <= roundPositive (Qred (- q))); [|lra].
    apply roundPositive_mono; rewrite ?Qred_correct; lra.
  - pose proof (round_nonpos q Hq). pose proof (round_nonneg q' Hq'). lra.
Qed.

(** The result is within half a unit in the last place of the exact
    value. *)
Lemma round_error q :
  0 <= q →
  round q - q <= pow2 (-53) * q + pow2 (-1075)
  ∧ q - round q <= pow2 (-53) * q + pow2 (-1075).
Proof.
  intros Hq. pose proof (pow2_pos (-1075)).
  destruct (round_cases q) as [[H0 ->]|[[Hpos ->]|[Hneg _]]]; [| |lra].
  - rewrite H0. split; lra.
  - pose proof (Qred_correct q) as Hred.
    destruct (roundPositive_error (Qred q)) as [Hup Hdown]; [by rewrite Hred|].
    pose proof (pow2_pos (-53)).
    revert Hup Hdown Hred. generalize (roundPositive (Qred q)), (Qred q).
    intros r t Hup Hdown Hred.
    assert (E : pow2 (-53) * t == pow2 (-53) * q) by (by rewrite Hred).
    split; lra.
Qed.

(** Whole numbers below [2^53] are doubles. *)
Lemma round_Z z : (Z.abs z < 2 ^ 53)%Z → round (inject_Z z) == inject_Z z.
Proof.
  intros Hz.
  assert (Hred : ∀ y, Qred (inject_Z y) = inject_Z y).
  { intros y. unfold Qred, inject_Z.
    pose proof (Z.ggcd_gcd y 1) as Hg.
    pose proof (Z.ggcd_correct_divisors y 1) as Hd.
    destruct (Z.ggcd y 1) as [g [a b]]. simpl in Hg, Hd.
    rewrite Z.gcd_1_r in Hg. subst g. destruct Hd as [Ha Hb].
    rewrite !Z.mul_1_l in *. by subst. }
  destruct (round_cases (inject_Z z)) as [[H0 ->]|[[Hpos ->]|[Hneg ->]]].
  - by rewrite H0.
  - rewrite Hred. apply roundPositive_Z.
    change 0 with (inject_Z 0) in Hpos. rewrite <- Zlt_Qlt in Hpos. lia.
  - change (- inject_Z z) with (inject_Z (- z)). rewrite Hred.
    rewrite roundPositive_Z.
    + rewrite inject_Z_opp. ring.
    + change 0 with (inject_Z 0) in Hneg. rewrite <- Zlt_Qlt in Hneg. lia.
Qed.

Lemma round_error_bound q :
  0 <= q →
  round q - q <= (1 # 9007199254740992) * q + (1 # 1000000)
  ∧ q - round q <= (1 # 9007199254740992) * q + (1 # 1000000).
Proof.
  intros Hq. destruct (round_error q Hq) as [Hup Hdown].
  assert (Hu : pow2 (-53) == 1 # 9007199254740992) by (by vm_compute).
  assert (Heta : pow2 (-1075) <= 1 # 1000000) by (by vm_compute).
  rewrite Hu in Hup, Hdown. split; lra.
Qed.

(** A whole number of degrees stays one under the quarter turns, and the
    turns add up exactly. *)
Lemma turn_whole q z k :
  q == inject_Z z → (Z.abs (z + k) < 2 ^ 53)%Z →
  round (q + inject_Z k) == inject_Z (z + k).
Proof.
  intros Hq Hz. rewrite <- (round_Z (z + k)) by done.
  rewrite (round_comp (q + inject_Z k) (inject_Z (z + k))); [done|].
  by rewrite Hq, inject_Z_plus.
Qed.

Lemma quarter_turns_whole q z :
  (Z.abs z ≤ 2 ^ 52)%Z → q == inject_Z z →
  round (round (q + 90) - 90) == q
  ∧ round (round (q - 90) + 90) == q
  ∧ round (round (round (round (q + 90) + 90) + 90) + 90) == q + 360.
Proof.
  intros Hz Hq.
  assert (Hsmall : ∀ k, (Z.abs k ≤ 360)%Z → (Z.abs (z + k) < 2 ^ 53)%Z).
  { intros k Hk. change (2 ^ 53)%Z with 9007199254740992%Z.
    change (2 ^ 52)%Z with 4503599627370496%Z in Hz. lia. }
  change (q + 90) with (q + inject_Z 90). change (q - 90) with (q + inject_Z (-90)).
  pose proof (turn_whole q z 90 Hq (Hsmall 90%Z ltac:(lia))) as H1.
  pose proof (turn_whole q z (-90) Hq (Hsmall (-90)%Z ltac:(lia))) as H2.
  split_and!.
  - change (?a - 90) with (a + inject_Z (-90)).
    rewrite (turn_whole _ (z + 90) (-90) H1).
    + rewrite Hq. by replace (z + 90 + -90)%Z with z by lia.
    + replace (z + 90 + -90)%Z with (z + 0)%Z by lia. apply Hsmall. lia.
  - change (?a + 90) with (a + inject_Z 90).
    rewrite (turn_whole _ (z + -90) 90 H2).
    + rewrite Hq. by replace (z + -90 + 90)%Z with z by lia.
    + replace (z + -90 + 90)%Z with (z + 0)%Z by lia. apply Hsmall. lia.
  - change (?a + 90) with (a + inject_Z 90).
    assert (H180 : round (round (q + inject_Z 90) + inject_Z 90)
                   == inject_Z (z + 90 + 90)).
    { apply turn_whole; [done|].
      replace (z + 90 + 90)%Z with (z + 180)%Z by lia. apply Hsmall. lia. }
    assert (H270 : round (round (round (q + inject_Z 90) + inject_Z 90) + inject_Z 90)
                   == inject_Z (z + 90 + 90 + 90)).
    { apply turn_whole; [done|].
      replace (z + 90 + 90 + 90)%Z with (z + 270)%Z by lia. apply Hsmall. lia. }
    rewrite (turn_whole _ (z + 90 + 90 + 90) 90 H270).
    + rewrite Hq. replace (z + 90 + 90 + 90 + 90)%Z with (z + 360)%Z by lia.
      by rewrite inject_Z_plus.
    + replace (z + 90 + 90 + 90 + 90)%Z with (z + 360)%Z by lia. apply Hsmall. lia.
Qed.

End Rounding.

(** * Further properties of the pages *)

Section Removal.

Import Page.

Implicit Types (st : State) (imgs : list DraggableImage) (u imageId : string).

Lemma find_Some_first imageId imgs img :
  PageOps.find (λ d, id d = imageId) imgs = Some img →
  id img = imageId ∧ img ∈ imgs.
Proof.
  unfold PageOps.find. intros H.
  destruct (list_find _ imgs) as [[k d]|] eqn:Hfind; simplify_eq/=.
  apply list_find_Some in Hfind as (Hk & Hid & _).
  split; [done|]. by eapply list_elem_of_lookup_2.
Qed.

Lemma find_None_absent imageId imgs :
  PageOps.find (λ d, id d = imageId) imgs = None ↔
  Forall (λ d, id d ≠ imageId) imgs.
Proof.
  unfold PageOps.find. rewrite fmap_None, list_find_None. done.
Qed.

Lemma filter_all_kept {A} (P : A → Prop) `{!∀ a, Decision (P a)} (l : list A) :
  Forall P l → filter P l = l.
Proof.
  induction 1 as [|a l Ha _ IH]; [done|]. by rewrite filter_cons_True, IH.
Qed.

Lemma removeImage_layers imageId st :
  draggableImages (PageOps.removeImage imageId st)
  = filter (λ d, id d ≠ imageId) (draggableImages st).
Proof.
  unfold PageOps.removeImage.
  destruct (PageOps.find _ _) as [img|]; simpl; [|done].
  by destruct (_ && _).
Qed.

(** X1. [removeImage] (project page, first builder page) removes the layers
    with the given id and no other, keeps the order of the rest, leaves the
    background alone and clears the selection.  A URL leaves the selected
    URLs exactly when it is the non-empty url of the first layer with that id
    and no layer with another id carries it; every other selected URL
    stays. *)
Theorem removeImage_by_id imageId st :
  let st' := PageOps.removeImage imageId st in
  draggableImages st' = filter (λ d, id d ≠ imageId) (draggableImages st)
  ∧ selectedImageId st' = None
  ∧ backgroundImage st' = backgroundImage st
  ∧ ∀ u, u ∈ selectedImageUrls st' ↔
         u ∈ selectedImageUrls st
         ∧ ¬ (u ≠ ""
              ∧ (∃ img, PageOps.find (λ d, id d = imageId) (draggableImages st) = Some img
                        ∧ url img = u)
              ∧ Forall (λ d, id d ≠ imageId → url d ≠ u) (draggableImages st)).
Proof.
  intros st'. subst st'. unfold PageOps.removeImage.
  set (shown := draggableImages st).
  destruct (PageOps.find (λ d, id d = imageId) shown) as [img|] eqn:Hfind; simpl.
  - assert (Hsome : PageOps.some (λ d, url d = url img)
                      (filter (λ d, id d ≠ imageId) shown) = true
                    ↔ Exists (λ d, id d ≠ imageId ∧ url d = url img) shown).
    { unfold PageOps.some. rewrite bool_decide_eq_true, !Exists_exists.
      split.
      - intros (d & [Hid Hin]%list_elem_of_filter & Hu). by exists d.
      - intros (d & Hin & Hid & Hu). exists d. by rewrite list_elem_of_filter. }
    assert (Hnone : Forall (λ d, id d ≠ imageId → url d ≠ url img) shown
                    ↔ ¬ Exists (λ d, id d ≠ imageId ∧ url d = url img) shown).
    { rewrite Forall_forall, Exists_exists. split.
      - intros Hall (d & Hin & Hid & Hu). by apply (Hall d Hin Hid).
      - intros Hnot d Hin Hid Hu. apply Hnot. by exists d. }
    destruct (bool_decide (url img ≠ "")) eqn:Hne; simpl.
    + destruct (PageOps.some _ _) eqn:Hs; simpl.
      * split_and!; try done. intros u. split; [|tauto].
        intros Hu. split; [done|]. intros (_ & (img' & ? & <-) & Hall).
        simplify_eq. apply Hnone in Hall. by apply Hall, Hsome.
      * split_and!; try done. intros u.
        rewrite list_elem_of_filter. apply bool_decide_eq_true in Hne.
        assert (Hall : Forall (λ d, id d ≠ imageId → url d ≠ url img) shown).
        { apply Hnone. intros Hex%Hsome. congruence. }
        split.
        -- intros [Hu Hin]. split; [done|].
           intros (_ & (img' & ? & <-) & _). by simplify_eq.
        -- intros [Hin Hkeep]. split; [|done]. intros ->. apply Hkeep.
           split_and!; [done| |done]. by exists img.
    + split_and!; try done. intros u. split; [|tauto].
      intros Hu. split; [done|]. intros (Hnonempty & (img' & ? & <-) & _).
      simplify_eq. apply bool_decide_eq_false in Hne. by apply Hne.
  - split_and!; try done. intros u. split; [|tauto].
    intros Hu. split; [done|]. by intros (_ & (img' & ? & _) & _).
Qed.

(** X2. [removeImage] of the second builder page removes, for a layer id that
    is present, every layer that shares the url of the first layer with that
    id, whatever its id, and drops that url from the selected URLs; the
    per-id [removeImage] keeps the layers with the same url and another id.
    For an id that is absent it leaves the whole state as it is, selection
    included. *)
Theorem removeImageByUrl_takes_every_instance imageId st img :
  PageOps.find (λ d, id d = imageId) (draggableImages st) = Some img →
  let st' := PageOps.removeImageByUrl imageId st in
  draggableImages st' = filter (λ d, url d ≠ url img) (draggableImages st)
  ∧ getInstanceCount (draggableImages st') (url img) = 0%nat
  ∧ (url img ∉ selectedImageUrls st')
  ∧ selectedImageId st' = None
  ∧ (∀ d, d ∈ draggableImages st → url d = url img → id d ≠ imageId →
          (d ∉ draggableImages st')
          ∧ d ∈ draggableImages (PageOps.removeImage imageId st))
  ∧ (∀ other, Forall (λ d, id d ≠ other) (draggableImages st) →
              PageOps.removeImageByUrl other st = st).
Proof.
  intros Hfind st'. subst st'.
  assert (Hkeep : ∀ d, d ∈ draggableImages st → id d ≠ imageId →
                       d ∈ draggableImages (PageOps.removeImage imageId st)).
  { intros d Hin Hid. rewrite removeImage_layers. by apply list_elem_of_filter. }
  unfold PageOps.removeImageByUrl.
  rewrite Hfind. simpl. split_and!; try done.
  - rewrite getInstanceCount_length, filter_none_left; [done|].
    apply Forall_forall. by intros d [? _]%list_elem_of_filter.
  - by intros [? _]%list_elem_of_filter.
  - intros d Hin Hu Hid. split.
    + by intros [? _]%list_elem_of_filter.
    + by apply Hkeep.
  - intros other Habsent. apply find_None_absent in Habsent.
    by rewrite Habsent.
Qed.

End Removal.

Section LayerActions.

Import Page.

Implicit Types (st : State) (imgs : list DraggableImage) (d : DraggableImage)
  (u imageId : string).

Lemma setDraggableImages_same (f : list DraggableImage → list DraggableImage) st :
  f (draggableImages st) = draggableImages st → setDraggableImages f st = st.
Proof. intros H. destruct st. unfold setDraggableImages. simpl in *. by rewrite H. Qed.

Lemma fmap_if_absent {A} (P : A → Prop) `{!∀ a, Decision (P a)} (f : A → A)
    (l : list A) :
  Forall (λ a, ¬ P a) l → (λ a, if decide (P a) then f a else a) <$> l = l.
Proof.
  induction 1 as [|a l Ha _ IH]; [done|].
  rewrite fmap_cons, IH. by rewrite decide_False.
Qed.

Lemma findIndex_absent imageId imgs :
  Forall (λ d, id d ≠ imageId) imgs →
  JS.findIndex (λ d, id d = imageId) imgs = None.
Proof.
  intros H. unfold JS.findIndex. rewrite fmap_None, list_find_None. done.
Qed.

(** X3. [rotateImageLeft] undoes [rotateImageRight] and the other way round:
    every layer keeps id, url, position, size and flip, the layers with
    another id are as they were, and a layer whose rotation is a whole number
    of degrees (an unset rotation counting as 0) gets back the rotation it
    had.  A rotation with a fraction need not come back: the two sums round.
    Rotation is not wrapped: four turns to the right add 360 to a whole
    rotation of the layers with the id and leave the others as they are. *)
Theorem rotate_left_undoes_rotate_right imageId st :
  let restored d d' :=
    PageOps.sameBox d d' ∧ flipHorizontal d' = flipHorizontal d
    ∧ (id d ≠ imageId → d' = d)
    ∧ (PageOps.wholeDegrees (rotation d) →
       default 0 (rotation d') == default 0 (rotation d)) in
  let right := PageOps.rotateImageRight imageId in
  Forall2 restored (draggableImages st)
    (draggableImages (PageOps.rotateImageLeft imageId (right st)))
  ∧ Forall2 restored (draggableImages st)
      (draggableImages (right (PageOps.rotateImageLeft imageId st)))
  ∧ Forall2 (λ d d', if decide (id d = imageId)
                     then PageOps.sameBox d d'
                          ∧ (PageOps.wholeDegrees (rotation d) →
                             default 0 (rotation d')
                             == default 0 (rotation d) + 360)
                     else d' = d)
      (draggableImages st)
      (draggableImages (right (right (right (right st))))).
Proof.
  intros restored right. subst restored right. simpl.
  rewrite <- !list_fmap_compose. split_and!.
  - apply Forall2_fmap_r, Forall_Forall2_diag, Forall_forall. intros d _. simpl.
    destruct (decide (id d = imageId)) as [Hid|Hid]; simpl.
    + rewrite decide_True by done. simpl. unfold PageOps.sameBox. simpl.
      split_and!; try done. intros (z & Hz & Hq).
      by destruct (quarter_turns_whole _ z Hz Hq) as (? & ? & ?).
    + rewrite decide_False by done. unfold PageOps.sameBox. by split_and!.
  - apply Forall2_fmap_r, Forall_Forall2_diag, Forall_forall. intros d _. simpl.
    destruct (decide (id d = imageId)) as [Hid|Hid]; simpl.
    + rewrite decide_True by done. simpl. unfold PageOps.sameBox. simpl.
      split_and!; try done. intros (z & Hz & Hq).
      by destruct (quarter_turns_whole _ z Hz Hq) as (? & ? & ?).
    + rewrite decide_False by done. unfold PageOps.sameBox. by split_and!.
  - apply Forall2_fmap_r, Forall_Forall2_diag, Forall_forall. intros d _. simpl.
    destruct (decide (id d = imageId)) as [Hid|Hid]; simpl.
    + repeat (rewrite (decide_True (P := id d = imageId)) by done; simpl).
      unfold PageOps.sameBox. simpl. split_and!; try done.
      intros (z & Hz & Hq).
      by destruct (quarter_turns_whole _ z Hz Hq) as (? & ? & ?).
    + by repeat (rewrite (decide_False (P := id d = imageId)) by done; simpl).
Qed.

(** X4. [flipImageHorizontal] is its own inverse: after two flips every layer
    has its id, url, position, size and rotation as before and is flipped
    exactly if it was (an unset flip counting as not flipped); after one
    flip the layers with the id are flipped exactly if they were not. *)
Theorem flip_twice_restores imageId st :
  let flip := PageOps.flipImageHorizontal imageId in
  Forall2 (λ d d', PageOps.sameBox d d' ∧ rotation d' = rotation d
                   ∧ default false (flipHorizontal d')
                     = default false (flipHorizontal d))
    (draggableImages st) (draggableImages (flip (flip st)))
  ∧ Forall2 (λ d d', PageOps.sameBox d d' ∧ rotation d' = rotation d
                     ∧ default false (flipHorizontal d')
                       = if decide (id d = imageId)
                         then negb (default false (flipHorizontal d))
                         else default false (flipHorizontal d))
      (draggableImages st) (draggableImages (flip st)).
Proof.
  intros flip. subst flip. simpl. rewrite <- !list_fmap_compose. split.
  - apply Forall2_fmap_r, Forall_Forall2_diag, Forall_forall. intros d _. simpl.
    destruct (decide (id d = imageId)) as [Hid|Hid]; simpl.
    + rewrite decide_True by done. simpl. unfold PageOps.sameBox. simpl.
      split_and!; try done. apply negb_involutive.
    + rewrite decide_False by done. unfold PageOps.sameBox. by split_and!.
  - apply Forall2_fmap_r, Forall_Forall2_diag, Forall_forall. intros d _. simpl.
    destruct (decide (id d = imageId)) as [Hid|Hid]; unfold PageOps.sameBox; by split_and!.
Qed.

(** X5. An id that no layer carries is a no-op: rotating, flipping, bringing
    to front, sending to back and the by-url [removeImage] return the state
    unchanged, the by-id [removeImage] only clears the selection, and the
    drag and transform-end handlers of the editor hand back the items they
    were given. *)
Theorem unknown_id_is_no_op imageId st :
  Forall (λ d, id d ≠ imageId) (draggableImages st) →
  PageOps.rotateImageLeft imageId st = st
  ∧ PageOps.rotateImageRight imageId st = st
  ∧ PageOps.flipImageHorizontal imageId st = st
  ∧ bringToFront imageId st = st
  ∧ sendToBack imageId st = st
  ∧ PageOps.removeImageByUrl imageId st = st
  ∧ PageOps.removeImage imageId st = PageOps.setSelectedImageId None st
  ∧ (∀ pos, Editor.handleDragMove imageId pos (Wiring.toItem <$> draggableImages st)
            = Wiring.toItem <$> draggableImages st)
  ∧ (∀ node, (Editor.handleTransformEnd imageId node
                (Wiring.toItem <$> draggableImages st)).1
             = Wiring.toItem <$> draggableImages st).
Proof.
  intros Habsent.
  assert (Hitems : Forall (λ it, ¬ Editor.id it = imageId)
                     (Wiring.toItem <$> draggableImages st)).
  { apply Forall_fmap. eapply Forall_impl; [exact Habsent|]. by intros d. }
  split_and!.
  - apply setDraggableImages_same. by apply fmap_if_absent.
  - apply setDraggableImages_same. by apply fmap_if_absent.
  - apply setDraggableImages_same. by apply fmap_if_absent.
  - apply setDraggableImages_same. unfold bringToFront_upd.
    by rewrite findIndex_absent.
  - apply setDraggableImages_same. unfold sendToBack_upd.
    by rewrite findIndex_absent.
  - unfold PageOps.removeImageByUrl.
    by rewrite (proj2 (find_None_absent imageId _)).
  - unfold PageOps.removeImage.
    rewrite (proj2 (find_None_absent imageId _)) by done. simpl.
    rewrite setDraggableImages_same; [done|]. by apply filter_all_kept.
  - intros pos. unfold Editor.handleDragMove.
    by apply (fmap_if_absent (λ it, Editor.id it = imageId)).
  - intros node. simpl.
    by apply (fmap_if_absent (λ it, Editor.id it = imageId)).
Qed.

End LayerActions.

Section SelectedUrls.

Import Page.

Implicit Types (st : State) (u v : string) (seen urls : list string).

Lemma uniq_seen_ext seen seen' urls :
  (∀ v, v ∈ urls → (v ∈ seen ↔ v ∈ seen')) →
  JS.uniq seen urls = JS.uniq seen' urls.
Proof.
  revert seen seen'. induction urls as [|w urls IH]; intros seen seen' Hext; [done|].
  simpl. assert (w ∈ seen ↔ w ∈ seen') as Hw by (apply Hext; left).
  destruct (decide (w ∈ seen)) as [Hin|Hout].
  - rewrite decide_True by tauto. apply IH. intros v Hv. apply Hext. by right.
  - rewrite decide_False by tauto. f_equal. apply IH. intros v Hv.
    rewrite !elem_of_app. specialize (Hext v (list_elem_of_further _ _ _ Hv)). tauto.
Qed.

Lemma uniq_elem_of_iff seen urls v :
  v ∈ JS.uniq seen urls ↔ v ∈ urls ∧ v ∉ seen.
Proof.
  revert seen. induction urls as [|w urls IH]; intros seen; simpl.
  - rewrite elem_of_nil. tauto.
  - destruct (decide (w ∈ seen)) as [Hin|Hout].
    + rewrite IH, elem_of_cons. split; [tauto|]. intros [[->|?] ?]; tauto.
    + rewrite !elem_of_cons, IH, elem_of_app, list_elem_of_singleton.
      destruct (decide (v = w)) as [->|]; tauto.
Qed.

Lemma uniq_snoc seen urls u :
  JS.uniq seen (urls ++ [u])
  = JS.uniq seen urls ++ (if decide (u ∈ seen ∨ u ∈ urls) then [] else [u]).
Proof.
  revert seen. induction urls as [|w urls IH]; intros seen; simpl.
  - destruct (decide (u ∈ seen)).
    + by rewrite decide_True by tauto.
    + rewrite decide_False; [done|]. rewrite elem_of_nil. tauto.
  - destruct (decide (w ∈ seen)) as [Hin|Hout].
    + rewrite IH. f_equal. apply decide_ext. rewrite elem_of_cons.
      split; [tauto|]. intros [?|[->|?]]; tauto.
    + rewrite IH. simpl. f_equal. f_equal. apply decide_ext.
      rewrite elem_of_app, list_elem_of_singleton, elem_of_cons. tauto.
Qed.

Lemma uniq_filter seen urls u :
  filter (λ v, v ≠ u) (JS.uniq seen urls)
  = JS.uniq seen (filter (λ v, v ≠ u) urls).
Proof.
  revert seen. induction urls as [|w urls IH]; intros seen; simpl; [done|].
  destruct (decide (w = u)) as [->|Hne].
  - rewrite (filter_cons_False _ u urls) by naive_solver.
    destruct (decide (u ∈ seen)); [apply IH|].
    rewrite filter_cons_False by naive_solver. rewrite IH.
    apply uniq_seen_ext. intros v [Hv _]%list_elem_of_filter.
    rewrite elem_of_app, list_elem_of_singleton. tauto.
  - rewrite (filter_cons_True _ w urls) by done. simpl.
    destruct (decide (w ∈ seen)); [apply IH|].
    rewrite filter_cons_True by done. by rewrite IH.
Qed.

(** X6. [addToMoodboard] and [removeFromMoodboard] update the selected URLs by
    hand to exactly what the sync effect computes from the new layers (the
    distinct urls, in order of first appearance): from a state in which the
    two agree they lead to a state in which they agree, so the effect that
    follows changes nothing. *)
Theorem add_remove_keep_selected_urls_synced u (now : N) (r1 r2 : Q) st :
  PageOps.synced st →
  PageOps.synced (addToMoodboard u now r1 r2 st)
  ∧ PageOps.synced (removeFromMoodboard u st)
  ∧ syncSelectedImageUrls (addToMoodboard u now r1 r2 st)
    = addToMoodboard u now r1 r2 st
  ∧ syncSelectedImageUrls (removeFromMoodboard u st) = removeFromMoodboard u st
  ∧ NoDup (selectedImageUrls st).
Proof.
  unfold PageOps.synced. intros Hsync.
  assert (Hadd : selectedImageUrls (addToMoodboard u now r1 r2 st)
                 = JS.uniq [] (url <$> draggableImages (addToMoodboard u now r1 r2 st))).
  { change (selectedImageUrls (addToMoodboard u now r1 r2 st))
      with (if decide (u ∈ selectedImageUrls st) then selectedImageUrls st
            else selectedImageUrls st ++ [u]).
    change (draggableImages (addToMoodboard u now r1 r2 st))
      with (draggableImages st ++ [newDraggableImage u now r1 r2]).
    rewrite fmap_app.
    change (url <$> [newDraggableImage u now r1 r2]) with [u].
    rewrite uniq_snoc, Hsync.
    destruct (decide (u ∈ JS.uniq [] (url <$> draggableImages st))) as [Hin|Hout].
    - rewrite decide_True; [by rewrite (right_id_L [] (++))|].
      right. by apply uniq_elem_of_iff in Hin as [? _].
    - rewrite decide_False; [done|]. intros [Hnil|Hin].
      + by apply elem_of_nil in Hnil.
      + apply Hout, uniq_elem_of_iff. split; [done|]. apply not_elem_of_nil. }
  assert (Hrem : selectedImageUrls (removeFromMoodboard u st)
                 = JS.uniq [] (url <$> draggableImages (removeFromMoodboard u st))).
  { change (selectedImageUrls (removeFromMoodboard u st))
      with (filter (λ v, v ≠ u) (selectedImageUrls st)).
    change (draggableImages (removeFromMoodboard u st))
      with (filter (λ d, url d ≠ u) (draggableImages st)).
    rewrite Hsync, uniq_filter. f_equal. clear.
    induction (draggableImages st) as [|d l IH]; [done|].
    rewrite fmap_cons. destruct (decide (url d = u)) as [Heq|Hne].
    - rewrite !filter_cons_False by naive_solver. exact IH.
    - rewrite !filter_cons_True by done. rewrite fmap_cons. by rewrite IH. }
  split_and!; [done|done| | |].
  - unfold syncSelectedImageUrls. rewrite <- Hadd.
    by destruct st.
  - unfold syncSelectedImageUrls. rewrite <- Hrem.
    by destruct st.
  - rewrite Hsync. clear.
    assert (∀ seen urls, NoDup (JS.uniq seen urls)) as H; [|apply H].
    intros seen urls. revert seen.
    induction urls as [|w urls IH]; intros seen; simpl; [constructor|].
    destruct (decide (w ∈ seen)); [apply IH|].
    constructor; [|apply IH]. rewrite uniq_elem_of_iff, elem_of_app.
    rewrite list_elem_of_singleton. tauto.
Qed.

End SelectedUrls.

(** * Pointer drag and canvas sizing of the builder pages *)

Section PointerDrag.

Import Page Builder.

Implicit Types (st : Builder.State) (rect : DOMRect) (e : MouseEvent)
  (d : DraggableImage) (i : string).

(** The two ways of clamping, [max(0, min(a, c))] of the page and
    [min(max(0, a), max(0, c))] of [dragBoundFunc], agree. *)
Lemma clamp_orders_agree (a c : Q) :
  JS.Math_max 0 (JS.Math_min a c)
  == JS.Math_min (JS.Math_max 0 a) (JS.Math_max 0 c).
Proof.
  unfold JS.Math_max, JS.Math_min.
  pose proof (Q.min_spec a c) as H1.
  pose proof (Q.max_spec 0 (Qmin a c)) as H2.
  pose proof (Q.max_spec 0 a) as H3.
  pose proof (Q.max_spec 0 c) as H4.
  pose proof (Q.min_spec (Qmax 0 a) (Qmax 0 c)) as H5.
  revert H1 H2 H3 H4 H5.
  generalize (Qmin (Qmax 0 a) (Qmax 0 c)), (Qmax 0 (Qmin a c)), (Qmin a c),
    (Qmax 0 a), (Qmax 0 c).
  intros. lra.
Qed.

Lemma clamp_range (a c : Q) :
  0 <= JS.Math_max 0 (JS.Math_min a c)
  ∧ (0 <= c → JS.Math_max 0 (JS.Math_min a c) <= c).
Proof.
  unfold JS.Math_max, JS.Math_min. split; [apply Q.le_max_l|].
  intros Hc. apply Q.max_lub; [done|apply Q.le_min_r].
Qed.

Lemma truthy_Some (v : option string) :
  truthy v = true ↔ ∃ i, v = Some i ∧ i ≠ "".
Proof.
  destruct v as [i|]; simpl.
  - rewrite bool_decide_eq_true. split; [by eauto|].
    by intros (j & [= <-] & Hj).
  - split; [done|]. by intros (j & ? & _).
Qed.

(** X7. While a layer is being dragged, a mouse move gives every layer with
    the dragged id a position with [0 <= x] and [0 <= y], and with
    [x <= rect.width - width] and [y <= rect.height - height] when the layer
    is no larger than the container: the same position, on both axes, that
    [dragBoundFunc] of the canvas editor computes on a stage of the size of
    the container.  Identity, size, rotation and flip of every layer, the
    other layers and the background stay as they are. *)
Theorem pointer_move_clamps_like_dragBoundFunc rect e st i :
  draggedImage st = Some i → i ≠ "" →
  let st' := handleMouseMove (Some rect) e st in
  let newX := clientX e - rect_left rect - off_x (dragOffset st) in
  let newY := clientY e - rect_top rect - off_y (dragOffset st) in
  let stage := {| Editor.stage_width := rect_width rect;
                  Editor.stage_height := rect_height rect;
                  Editor.layers := [] |} in
  Forall2 (λ d d',
      PageOps.sameExceptPosition d d'
      ∧ if decide (id d = i)
        then 0 <= x d' ∧ 0 <= y d'
             ∧ (width d <= rect_width rect → x d' <= rect_width rect - width d)
             ∧ (height d <= rect_height rect → y d' <= rect_height rect - height d)
             ∧ x d' == Editor.pos_x (VariantA.dragBoundFunc (Some stage) (Wiring.toItem d)
                                       {| Editor.pos_x := newX; Editor.pos_y := newY |})
             ∧ y d' == Editor.pos_y (VariantA.dragBoundFunc (Some stage) (Wiring.toItem d)
                                       {| Editor.pos_x := newX; Editor.pos_y := newY |})
        else d' = d)
    (draggableImages (page st)) (draggableImages (page st'))
  ∧ backgroundImage (page st') = backgroundImage (page st)
  ∧ draggedImage st' = Some i.
Proof.
  intros Hdrag Hne st' newX newY stage. subst st'. unfold handleMouseMove.
  rewrite (proj2 (truthy_Some (draggedImage st))) by eauto.
  rewrite Hdrag. simpl. split_and!; [|done..].
  apply Forall2_fmap_r, Forall_Forall2_diag, Forall_forall. intros d _. simpl.
  destruct (decide (id d = i)) as [Hid|Hid].
  - rewrite decide_True by congruence. unfold PageOps.sameExceptPosition. simpl.
    split_and!; try done.
    + apply clamp_range.
    + apply clamp_range.
    + intros Hw. apply clamp_range. lra.
    + intros Hh. apply clamp_range. lra.
    + apply clamp_orders_agree.
    + apply clamp_orders_agree.
  - rewrite decide_False by congruence. unfold PageOps.sameExceptPosition. by split_and!.
Qed.

Lemma clamp_mono (a a' c : Q) :
  a <= a' → JS.Math_max 0 (JS.Math_min a c) <= JS.Math_max 0 (JS.Math_min a' c).
Proof.
  unfold JS.Math_max, JS.Math_min. intros H.
  apply Q.max_le_compat_l, Q.min_le_compat_r, H.
Qed.

(** X8. The grab offset: a mouse down on a layer marks it as dragged,
    records how far the pointer is from the corner of the first layer with
    that id, and changes no layer.  A mouse move then puts the layers with
    that id at the pointer position less that offset, clamped to the
    container, so the layer does not jump under the pointer; and the layer
    follows the pointer: of two pointer positions, the one further right
    (further down) never leaves the layer further left (further up). *)
Theorem pointer_drag_follows_pointer rect e0 i img st :
  i ≠ "" →
  PageOps.find (λ d, id d = i) (draggableImages (page st)) = Some img →
  let st1 := handleMouseDown (Some rect) e0 i st in
  draggedImage st1 = Some i
  ∧ page st1 = page st
  ∧ off_x (dragOffset st1) = clientX e0 - rect_left rect - x img
  ∧ off_y (dragOffset st1) = clientY e0 - rect_top rect - y img
  ∧ ∀ e1 e1' k d, draggableImages (page st) !! k = Some d → id d = i →
      ∃ d1 d1',
        draggableImages (page (handleMouseMove (Some rect) e1 st1)) !! k = Some d1
        ∧ draggableImages (page (handleMouseMove (Some rect) e1' st1)) !! k = Some d1'
        ∧ x d1 = JS.Math_max 0
                   (JS.Math_min
                      (clientX e1 - rect_left rect
                       - (clientX e0 - rect_left rect - x img))
                      (rect_width rect - width d))
        ∧ y d1 = JS.Math_max 0
                   (JS.Math_min
                      (clientY e1 - rect_top rect
                       - (clientY e0 - rect_top rect - y img))
                      (rect_height rect - height d))
        ∧ (clientX e1 <= clientX e1' → x d1 <= x d1')
        ∧ (clientY e1 <= clientY e1' → y d1 <= y d1').
Proof.
  intros Hne Hfind st1. subst st1. unfold handleMouseDown.
  rewrite Hfind. split_and!; [done..|].
  intros e1 e1' k d Hk Hid. unfold handleMouseMove. simpl.
  rewrite bool_decide_eq_true_2 by done. simpl.
  rewrite !list_lookup_fmap, Hk. simpl.
  destruct (decide (Some (id d) = Some i)) as [_|Hother]; [|congruence].
  eexists _, _. split_and!; [reflexivity..| |]; simpl.
  - intros Hright. apply clamp_mono. lra.
  - intros Hdown. apply clamp_mono. lra.
Qed.

(** X9. Dragging the background: with no layer being dragged, a mouse move
    keeps the background inside the bounds that the code computes, on both
    axes: at most half of it lies left of (above) the container,
    [-width/2 <= x], and at most half of it right of (below) the container,
    [x <= rect.width - width/2] (the container having a non-negative size).
    The move changes neither its size, url or rank nor any layer.  After a
    mouse up no move changes anything. *)
Theorem background_drag_keeps_half_inside rect e st bg :
  truthy (draggedImage st) = false →
  isDraggingBackground st = true →
  backgroundImage (page st) = Some bg →
  0 <= rect_width rect → 0 <= rect_height rect →
  let st' := handleMouseMove (Some rect) e st in
  (∃ bg', backgroundImage (page st') = Some bg'
          ∧ - bg_width bg / 2 <= bg_x bg' <= rect_width rect - bg_width bg / 2
          ∧ - bg_height bg / 2 <= bg_y bg' <= rect_height rect - bg_height bg / 2
          ∧ bg_width bg' = bg_width bg ∧ bg_height bg' = bg_height bg
          ∧ bg_url bg' = bg_url bg ∧ zIndex bg' = zIndex bg)
  ∧ draggableImages (page st') = draggableImages (page st)
  ∧ (∀ e', handleMouseMove (Some rect) e' (handleMouseUp st) = handleMouseUp st).
Proof.
  intros Hidle Hbg Hsome Hw Hh st'. subst st'. unfold handleMouseMove.
  rewrite Hidle, Hbg, Hsome. simpl. rewrite Hsome. simpl.
  split_and!; [|done|done].
  eexists. split; [reflexivity|]. simpl. unfold JS.Math_max, JS.Math_min.
  set (cx := Qmin _ (rect_width rect - bg_width bg / 2)).
  set (cy := Qmin _ (rect_height rect - bg_height bg / 2)).
  pose proof (Q.le_max_l (- bg_width bg / 2) cx).
  pose proof (Q.le_max_l (- bg_height bg / 2) cy).
  assert (Qmax (- bg_width bg / 2) cx <= rect_width rect - bg_width bg / 2).
  { apply Q.max_lub; [|apply Q.le_min_r]. unfold Qdiv. lra. }
  assert (Qmax (- bg_height bg / 2) cy <= rect_height rect - bg_height bg / 2).
  { apply Q.max_lub; [|apply Q.le_min_r]. unfold Qdiv. lra. }
  by split_and!.
Qed.

End PointerDrag.

Section CanvasSize.

Import Builder.

Lemma floor_bounds (a : Q) :
  inject_Z (Qfloor a) <= a ∧ a < inject_Z (Qfloor a) + 1.
Proof.
  split; [apply Qfloor_le|].
  pose proof (Qlt_floor a) as H. by rewrite inject_Z_plus in H.
Qed.

Lemma ratio_in_Z (cw ch : Z) :
  -10 < 9 * inject_Z cw - 16 * inject_Z ch < 17 →
  (-9 ≤ 9 * cw - 16 * ch ≤ 16)%Z.
Proof.
  intros [Hlo Hhi].
  assert (E : 9 * inject_Z cw - 16 * inject_Z ch == inject_Z (9 * cw - 16 * ch)).
  { unfold Z.sub. rewrite inject_Z_plus, inject_Z_opp, !inject_Z_mult. ring. }
  rewrite E in Hlo, Hhi.
  change (-10) with (inject_Z (-10)) in Hlo. change 17 with (inject_Z 17) in Hhi.
  rewrite <- Zlt_Qlt in Hlo, Hhi. lia.
Qed.

(** X10. [updateCanvasSize] makes the canvas cover the container at 16:9.
    For a container whose width and height are doubles between 0 and [10^9]:
    the canvas is less than one pixel short of the container on either axis
    (the flooring), one of its sides is the floor of the container's side,
    and its sides are in the ratio 16:9 up to the flooring and the rounding
    of the quotient, [-9 <= 9 * width - 16 * height <= 16].  Without a
    container the size stays as it is. *)
Theorem canvas_covers_container_at_16_9 (rect : DOMRect) (old : Z * Z) :
  Double.round (rect_width rect) == rect_width rect →
  Double.round (rect_height rect) == rect_height rect →
  0 <= rect_width rect <= 1000000000 →
  0 <= rect_height rect <= 1000000000 →
  let size := updateCanvasSize (Some rect) old in
  let cw := inject_Z size.1 in
  let ch := inject_Z size.2 in
  rect_width rect < cw + 1
  ∧ rect_height rect < ch + 1
  ∧ (-9 ≤ 9 * size.1 - 16 * size.2 ≤ 16)%Z
  ∧ (size.1 = Qfloor (rect_width rect) ∨ size.2 = Qfloor (rect_height rect))
  ∧ updateCanvasSize None old = old.
Proof.
  intros HW HH [HW0 HWmax] [HH0 HHmax]. unfold updateCanvasSize.
  assert (Ha : Double.round (16 / 9) = 2001599834386887 # 1125899906842624)
    by (by vm_compute).
  rewrite Ha. unfold Qdiv.
  change (/ (2001599834386887 # 1125899906842624))
    with (1125899906842624 # 2001599834386887).
  set (W := rect_width rect) in *. set (H := rect_height rect) in *.
  set (t := W * (1125899906842624 # 2001599834386887)).
  set (g := H * (2001599834386887 # 1125899906842624)).
  assert (Ht : 0 <= t) by (unfold t; lra).
  assert (Hg : 0 <= g) by (unfold g; lra).
  destruct (round_error_bound t Ht) as [Ht1 Ht2].
  destruct (round_error_bound g Hg) as [Hg1 Hg2].
  destruct (Qlt_le_dec (Double.round t) H) as [Hgrow|Hkeep]; cbn [fst snd].
  - assert (Hcover : W <= Double.round g).
    { rewrite <- HW. apply round_mono. apply Qnot_lt_le. intros Hshort.
      assert (Hlt : H <= t) by (unfold t, g in *; lra).
      apply round_mono in Hlt. rewrite HH in Hlt. lra. }
    destruct (floor_bounds (Double.round g)) as [Hw1 Hw2].
    destruct (floor_bounds H) as [Hh1 Hh2].
    split; [lra|]. split; [lra|]. split; [|split; [by right|done]].
    apply ratio_in_Z. unfold g in *. split; lra.
  - destruct (floor_bounds W) as [Hw1 Hw2].
    destruct (floor_bounds (Double.round t)) as [Hh1 Hh2].
    split; [lra|]. split; [lra|]. split; [|split; [by left|done]].
    apply ratio_in_Z. unfold t in *. split; lra.
Qed.
End CanvasSize.

(** * Further properties of the editor *)

Section ImageRequests.

Import EditorOps.

Lemma startsWith_first (s p : string) (c c' : Ascii.ascii) :
  c ≠ c' → startsWith (String c' s) (String c p) = false.
Proof. intros Hne. unfold startsWith. simpl. by destruct (Ascii.ascii_dec c c'). Qed.

(** An url that starts like a proxied one does not start like an http
    one. *)
Lemma proxied_is_not_http (url : string) :
  startsWith url "/api/proxy-image" = true →
  startsWith url "http://" || startsWith url "https://" = false.
Proof.
  destruct url as [|c url]; [done|].
  destruct (decide (c = "/"%char)) as [->|Hne].
  - intros _. by rewrite !startsWith_first.
  - intros H. by rewrite startsWith_first in H.
Qed.

(** X11. The request of [useHTMLImage] never goes through the proxy twice:
    asking for the [src] of a request yields that very request.  An http(s)
    url is asked for at [/api/proxy-image?url=] followed by its encoding,
    with [crossOrigin] anonymous; an url that already starts with
    [/api/proxy-image] is asked for as it is, also with [crossOrigin]; any
    other non-empty url (data:, blob:, relative) is asked for as it is
    without [crossOrigin]; and for no url or the empty url nothing is asked
    for. *)
Theorem imageRequest_proxies_once (encodeURIComponent : string → string)
    (url : string) (r : ImageRequest) :
  imageRequest encodeURIComponent (Some url) = Some r →
  imageRequest encodeURIComponent (Some (src r)) = Some r
  ∧ (startsWith url "http://" || startsWith url "https://" = true →
     r = {| crossOrigin := Some "anonymous";
            src := "/api/proxy-image?url=" +:+ encodeURIComponent url |})
  ∧ (startsWith url "/api/proxy-image" = true →
     r = {| crossOrigin := Some "anonymous"; src := url |})
  ∧ (startsWith url "http://" || startsWith url "https://" = false →
     startsWith url "/api/proxy-image" = false →
     r = {| crossOrigin := None; src := url |})
  ∧ imageRequest encodeURIComponent None = None
  ∧ imageRequest encodeURIComponent (Some "") = None.
Proof.
  unfold imageRequest. destruct (decide (url = "")) as [|Hne]; [done|].
  destruct (startsWith url "/api/proxy-image") eqn:Hprox.
  - rewrite (proxied_is_not_http url Hprox). simpl. intros [= <-]. simpl.
    rewrite decide_False by done. rewrite Hprox. simpl.
    by split_and!.
  - destruct (startsWith url "http://" || startsWith url "https://") eqn:Hhttp; simpl.
    + intros [= <-]. simpl. by split_and!.
    + intros [= <-]. simpl. rewrite decide_False by done.
      rewrite Hprox, Hhttp. simpl. by split_and!.
Qed.

End ImageRequests.

Section PolygonAuthoring.

Import Editor EditorOps.

Lemma lineTos_points (pts : list Pos) :
  lineTos (polygonKonvaPoints pts) = (λ p, lineTo (pos_x p) (pos_y p)) <$> pts.
Proof.
  induction pts as [|p pts IH]; [done|].
  change (polygonKonvaPoints (p :: pts))
    with (pos_x p :: pos_y p :: polygonKonvaPoints pts).
  simpl. by rewrite IH.
Qed.

Lemma clipPath_points (p0 : Pos) (rest : list Pos) :
  clipPath (polygonKonvaPoints (p0 :: rest))
  = beginPath :: moveTo (pos_x p0) (pos_y p0)
      :: ((λ p, lineTo (pos_x p) (pos_y p)) <$> rest) ++ [closePath].
Proof.
  change (polygonKonvaPoints (p0 :: rest))
    with (pos_x p0 :: pos_y p0 :: polygonKonvaPoints rest).
  unfold clipPath. cbn [drop app].
  by rewrite drop_0, lineTos_points.
Qed.

Lemma clicks_accumulate (pts clicks : list Pos) :
  foldl (λ acc p, polygonClick (Some p) acc) pts clicks = pts ++ clicks.
Proof.
  revert pts. induction clicks as [|p clicks IH]; intros pts; simpl.
  - by rewrite (right_id_L [] (++)).
  - rewrite IH. destruct p. simpl. by rewrite <- (assoc_L (++)).
Qed.

(** X12. [itemsClipFunc] yields a clip exactly in polygon mode with at least
    three points; with fewer points, or in mode none or brush (whatever the
    brush snapshot), it yields none.  The clip it yields visits every point
    once, in the order of the clicks: [moveTo] the first point, [lineTo]
    each later one, [closePath].  Clicks on the overlay append their point
    to the list, a click without pointer position changes nothing, so from
    an empty list the clip appears with the third click. *)
Theorem clip_exists_from_third_point (props : Props) (brushMaskImage : bool) :
  (is_Some (itemsClipFunc props brushMaskImage)
   ↔ maskMode props = polygon ∧ (3 ≤ length (polygonPoints props))%nat)
  ∧ (∀ path, itemsClipFunc props brushMaskImage = Some path →
       ∃ p0 rest, polygonPoints props = p0 :: rest
                  ∧ path = beginPath :: moveTo (pos_x p0) (pos_y p0)
                             :: ((λ p, lineTo (pos_x p) (pos_y p)) <$> rest)
                             ++ [closePath])
  ∧ (∀ clicks, foldl (λ acc p, polygonClick (Some p) acc) [] clicks = clicks)
  ∧ polygonClick None (polygonPoints props) = polygonPoints props.
Proof.
  assert (Hguard : bool_decide (maskMode props = polygon
                     ∧ (6 ≤ length (polygonKonvaPoints (polygonPoints props)))%nat)
                   = true
                   ↔ maskMode props = polygon ∧ (3 ≤ length (polygonPoints props))%nat).
  { rewrite bool_decide_eq_true, polygonKonvaPoints_length.
    split; intros [? ?]; split; [done|lia|done|lia]. }
  split_and!.
  - unfold itemsClipFunc. rewrite <- Hguard.
    destruct (bool_decide _); [by split|].
    split; [|done]. destruct (_ && _); by intros [? ?].
  - intros path. unfold itemsClipFunc.
    destruct (bool_decide _) eqn:Hb.
    + intros [= <-]. destruct (proj1 Hguard eq_refl) as [_ Hlen].
      destruct (polygonPoints props) as [|p0 rest]; [simpl in Hlen; lia|].
      exists p0, rest. split; [done|]. apply clipPath_points.
    + by destruct (_ && _).
  - intros clicks. apply (clicks_accumulate [] clicks).
  - done.
Qed.

End PolygonAuthoring.

Section PageAndEditor.

Import Editor EditorOps.

Lemma images_of_items (bound : bool) (loaded : string → bool)
    (its : list FurnitureItem) :
  Forall (λ it, shadow it = None ∧ blendMode it = None) its →
  Forall (λ n, Forall (λ a, shadowEnabled a = false
                            ∧ globalCompositeOperation a = None)
                      (node_images n))
         (DraggableTransformableImage bound loaded <$> its).
Proof.
  intros Hits. apply Forall_fmap. eapply Forall_impl; [exact Hits|].
  intros it [Hs Hb]. simpl. rewrite Hs, Hb. by repeat constructor.
Qed.

Lemma toItem_plain (ds : list Page.DraggableImage) :
  Forall (λ it, shadow it = None ∧ blendMode it = None) (Wiring.toItem <$> ds).
Proof. apply Forall_fmap, Forall_forall. by intros d _. Qed.

Lemma background_plain (loaded : string → bool) (props : Props) :
  Forall (λ n, Forall (λ a, shadowEnabled a = false
                            ∧ globalCompositeOperation a = None)
                      (node_images n))
         (layer_children (backgroundLayer loaded props)).
Proof.
  unfold backgroundLayer. simpl.
  destruct (useHTMLImage loaded (background props)); by repeat constructor.
Qed.

Lemma overlay_plain (props : Props) :
  Forall (λ l, Forall (λ n, Forall (λ a, shadowEnabled a = false
                                         ∧ globalCompositeOperation a = None)
                                   (node_images n))
                      (layer_children l))
         (polygonOverlay props).
Proof.
  unfold polygonOverlay. case_decide; [|constructor].
  constructor; [|constructor]. simpl.
  case_bool_decide; by repeat constructor.
Qed.

(** X13. What the editor hands to [onItemsChange] comes back in the items of
    the next render with id, url, position and size as handed over, with
    rotation and flip as handed over but for an unset one becoming 0 or
    false, and with shadow and blend mode erased.  So whatever the page
    state, no image on the stage of either variant has its shadow enabled or
    a blend mode: what [handleToggleShadow] and [handleBlendMode] set does
    not survive the round through the page. *)
Theorem items_round_trip_drops_shadow_and_blend (cv : Wiring.Canvas)
    (next : list FurnitureItem) (st : Page.State)
    (loaded : string → bool) (isMobile : bool) :
  Forall2 (λ n it,
      id it = id n ∧ url it = url n ∧ x it = x n ∧ y it = y n
      ∧ width it = width n ∧ height it = height n
      ∧ rotation it = Some (default 0 (rotation n))
      ∧ flipHorizontal it = Some (default false (flipHorizontal n))
      ∧ shadow it = None ∧ blendMode it = None)
    next (items (Wiring.props cv (Wiring.onItemsChange next st)))
  ∧ Forall (λ a, shadowEnabled a = false ∧ globalCompositeOperation a = None)
      (stage_images (VariantA.render loaded isMobile (Wiring.props cv st))
       ++ stage_images (VariantB.render loaded (Wiring.props cv st)))
  ∧ (∀ i mode,
       Wiring.toItem <$> (Wiring.ofItem <$> handleToggleShadow i (items (Wiring.props cv st)))
       = items (Wiring.props cv st)
       ∧ Wiring.toItem <$> (Wiring.ofItem <$> handleBlendMode i mode (items (Wiring.props cv st)))
         = items (Wiring.props cv st)).
Proof.
  split_and!.
  - simpl. rewrite <- list_fmap_compose.
    apply Forall2_fmap_r, Forall_Forall2_diag, Forall_forall. by intros n _.
  - apply Forall_app_2; unfold stage_images; apply Forall_bind;
      (apply Forall_app_2; [|eapply Forall_impl; [apply overlay_plain|];
                             intros l Hl; by apply Forall_bind]);
      repeat apply Forall_cons_2; try apply Forall_nil_2; apply Forall_bind.
    + apply background_plain.
    + apply Forall_app_2; [apply images_of_items, toItem_plain|by repeat constructor].
    + apply background_plain.
    + apply Forall_app_2; [apply images_of_items, toItem_plain|].
      apply Forall_fmap, Forall_forall. intros ? _. apply Forall_nil_2.
  - intros i mode. unfold handleToggleShadow, handleBlendMode.
    change (items (Wiring.props cv st))
      with (Wiring.toItem <$> Page.draggableImages st).
    rewrite <- !list_fmap_compose.
    split; apply list_fmap_ext; intros k d _; unfold compose;
      destruct (decide (id (Wiring.toItem d) = i)); done.
Qed.

(** X14. No handler of the editor adds, drops, reorders or renames a layer:
    after a drag, a transform end, a shadow toggle or a blend mode change
    the items have the same ids and the same urls, in the same order, and so
    have the layers of the page after [onItemsChange]. *)
Theorem editor_handlers_keep_layer_identity (i mode : string) (pos : Pos)
    (node : ImageNode) (its : list FurnitureItem) (st : Page.State) :
  Forall (λ next, id <$> next = id <$> its ∧ url <$> next = url <$> its
                  ∧ Page.id <$> Page.draggableImages (Wiring.onItemsChange next st)
                    = id <$> its
                  ∧ Page.url <$> Page.draggableImages (Wiring.onItemsChange next st)
                    = url <$> its)
    [handleDragMove i pos its; (handleTransformEnd i node its).1;
     handleToggleShadow i its; handleBlendMode i mode its].
Proof.
  assert (Hkeep : ∀ f : FurnitureItem → FurnitureItem,
            (∀ it, id (f it) = id it ∧ url (f it) = url it) →
            id <$> (f <$> its) = id <$> its ∧ url <$> (f <$> its) = url <$> its
            ∧ Page.id <$> Page.draggableImages (Wiring.onItemsChange (f <$> its) st)
              = id <$> its
            ∧ Page.url <$> Page.draggableImages (Wiring.onItemsChange (f <$> its) st)
              = url <$> its).
  { intros f Hf. simpl. rewrite <- !list_fmap_compose.
    split_and!; apply list_fmap_ext; intros k it _; simpl; apply Hf. }
  repeat constructor; try (apply Hkeep; intros it; simpl; by case_decide).
Qed.

End PageAndEditor.

Section Payload.

Import Page PageOps.

Implicit Types (m : list (string * nat)) (imgs : list DraggableImage).

Lemma Map_get_None k m : Map_get k m = None ↔ k ∉ m.*1.
Proof.
  induction m as [|[k' v'] m IH]; simpl.
  - split; [intros _; apply not_elem_of_nil|done].
  - rewrite not_elem_of_cons. destruct (decide (k' = k)) as [->|Hne].
    + split; [done|]. by intros [? _].
    + rewrite IH. split; [by intros; split|by intros [_ ?]].
Qed.

Lemma Map_set_keys k v m :
  (Map_set k v m).*1 = m.*1 ++ (if decide (k ∈ m.*1) then [] else [k]).
Proof.
  induction m as [|[k' v'] m IH].
  - cbn [Map_set]. rewrite decide_False; [done|apply not_elem_of_nil].
  - cbn [Map_set]. destruct (decide (k' = k)) as [->|Hne]; rewrite !fmap_cons.
    + cbn [fst]. rewrite decide_True by left. by rewrite (right_id_L [] (++)).
    + rewrite IH. cbn [fst]. rewrite <- app_comm_cons.
      f_equal. f_equal. apply decide_ext. rewrite elem_of_cons.
      split; [tauto|]. by intros [->|?].
Qed.

Lemma Map_get_set k v k' m :
  Map_get k' (Map_set k v m) = if decide (k = k') then Some v else Map_get k' m.
Proof.
  induction m as [|[k0 v0] m IH]; simpl.
  - destruct (decide (k = k')); [done|done].
  - destruct (decide (k0 = k)) as [->|Hne]; simpl.
    + by destruct (decide (k = k')).
    + destruct (decide (k0 = k')) as [->|Hne'].
      * by rewrite decide_False by done.
      * apply IH.
Qed.

Lemma Map_set_total k v m :
  (default 0 (Map_get k m) + sum_list (Map_set k v m).*2
   = v + sum_list m.*2)%nat.
Proof.
  induction m as [|[k0 v0] m IH]; [simpl; lia|].
  cbn [Map_set Map_get].
  destruct (decide (k0 = k)) as [->|Hne]; rewrite !fmap_cons; simpl sum_list;
    cbn [snd default]; unfold Datatypes.id in *; lia.
Qed.

Lemma productCountMap_snoc imgs img :
  productCountMap (imgs ++ [img])
  = Map_set (url img)
      (default 0 (Map_get (url img) (productCountMap imgs)) + 1)%nat
      (productCountMap imgs).
Proof. unfold productCountMap. by rewrite foldl_app. Qed.

Lemma productCountMap_keys imgs :
  (productCountMap imgs).*1 = JS.uniq [] (url <$> imgs).
Proof.
  induction imgs as [|img imgs IH] using rev_ind; [done|].
  rewrite productCountMap_snoc, Map_set_keys, fmap_app.
  change (url <$> [img]) with [url img]. rewrite uniq_snoc, IH.
  f_equal. apply decide_ext.
  rewrite uniq_elem_of_iff, elem_of_nil. tauto.
Qed.

Lemma productCountMap_get imgs u :
  default 0%nat (Map_get u (productCountMap imgs)) = getInstanceCount imgs u.
Proof.
  rewrite getInstanceCount_length.
  induction imgs as [|img imgs IH] using rev_ind; [done|].
  rewrite productCountMap_snoc, Map_get_set, filter_app, length_app.
  destruct (decide (url img = u)) as [Heq|Hne].
  - rewrite filter_cons_True by done. rewrite Heq, IH. done.
  - rewrite filter_cons_False by done. rewrite IH. simpl. lia.
Qed.

Lemma productCountMap_total imgs :
  sum_list (productCountMap imgs).*2 = length imgs.
Proof.
  induction imgs as [|img imgs IH] using rev_ind; [done|].
  rewrite length_app. simpl. rewrite <- IH.
  pose proof (Map_set_total (url img)
    (default 0 (Map_get (url img) (productCountMap imgs)) + 1)%nat
    (productCountMap imgs)) as Htot.
  rewrite productCountMap_snoc. lia.
Qed.

Lemma uniq_NoDup (seen urls : list string) : NoDup (JS.uniq seen urls).
Proof.
  revert seen. induction urls as [|w urls IH]; intros seen; simpl.
  - constructor.
  - destruct (decide (w ∈ seen)); [apply IH|].
    constructor; [|apply IH].
    rewrite uniq_elem_of_iff, elem_of_app, list_elem_of_singleton. tauto.
Qed.

Lemma Map_get_entry k v m : NoDup m.*1 → (k, v) ∈ m → Map_get k m = Some v.
Proof.
  induction m as [|[k0 v0] m IH]; simpl.
  - by intros _ ?%elem_of_nil.
  - intros [Hout Hnd]%NoDup_cons [[= -> ->]|Hin]%elem_of_cons.
    + by rewrite decide_True.
    + rewrite decide_False; [by apply IH|].
      intros ->. apply Hout. by apply (list_elem_of_fmap_2 fst _ (k, v)).
Qed.

Lemma productCountMap_entry imgs u q :
  (u, q) ∈ productCountMap imgs →
  q = getInstanceCount imgs u ∧ (1 ≤ q)%nat.
Proof.
  intros Hin.
  assert (Hq : q = getInstanceCount imgs u).
  { rewrite <- productCountMap_get, (Map_get_entry u q); [done| |done].
    rewrite productCountMap_keys. apply uniq_NoDup. }
  split; [done|]. subst q. rewrite getInstanceCount_length.
  apply (list_elem_of_fmap_2 fst) in Hin. simpl in Hin.
  rewrite productCountMap_keys in Hin.
  apply uniq_elem_of, list_elem_of_fmap in Hin as (img & -> & Himg).
  assert (Hf : img ∈ filter (λ i, url i = url img) imgs)
    by by apply list_elem_of_filter.
  destruct (filter _ imgs); [by apply elem_of_nil in Hf|simpl; lia].
Qed.

(** X15. A download sends nothing and asks for no export exactly when the
    scene has neither a layer nor a background.  Otherwise the posted
    product list has one entry per distinct layer url, in the order in
    which the urls first appear among the layers; the quantity of an entry
    is the instance count of its url, at least 1, and the quantities add up
    to the number of layers; name, item code and price are those of the
    first scraped product with that image, else empty; and the export token
    goes up by one. *)
Theorem download_payload_counts_layers (scraped : list ScrapedProduct)
    (st : State) :
  match downloadMoodboardWithPayload scraped st with
  | (None, st') =>
      draggableImages st = [] ∧ backgroundImage st = None ∧ st' = st
  | (Some products, st') =>
      ¬ (draggableImages st = [] ∧ backgroundImage st = None)
      ∧ pp_image <$> products = JS.uniq [] (url <$> draggableImages st)
      ∧ Forall (λ p, pp_quantity p = getInstanceCount (draggableImages st) (pp_image p)
                     ∧ (1 ≤ pp_quantity p)%nat
                     ∧ match PageOps.find (λ s, sp_image s = pp_image p) scraped with
                       | Some s => pp_productName p = default "" (sp_productName s)
                                   ∧ pp_itemCode p = default "" (sp_itemCode s)
                                   ∧ pp_price p = default "" (sp_price s)
                       | None => pp_productName p = "" ∧ pp_itemCode p = ""
                                 ∧ pp_price p = ""
                       end) products
      ∧ sum_list (pp_quantity <$> products) = length (draggableImages st)
      ∧ exportToken st' = (exportToken st + 1)%Z
      ∧ draggableImages st' = draggableImages st
      ∧ st' = Page.downloadMoodboard st
  end.
Proof.
  unfold downloadMoodboardWithPayload, Page.downloadMoodboard.
  case_bool_decide as Hempty; [by destruct Hempty|].
  split_and!; try done.
  - unfold payloadProducts. rewrite <- productCountMap_keys, <- list_fmap_compose.
    apply list_fmap_ext. by intros k [u q] _.
  - unfold payloadProducts. apply Forall_fmap, Forall_forall.
    intros [u q] Hin. simpl.
    destruct (productCountMap_entry _ _ _ Hin) as [<- Hq].
    split_and!; [done|done|].
    by destruct (PageOps.find _ scraped).
  - unfold payloadProducts. rewrite <- productCountMap_total, <- list_fmap_compose.
    f_equal. apply list_fmap_ext. by intros k [u q] _.
Qed.

End Payload.

Section DownloadsAndExports.

Import Editor Exporting.
Context {Scene : Type} `{!KonvaOps Scene}.

Lemma withToken_withToken props t t' :
  withToken (withToken props t) t' = withToken props t'.
Proof. done. Qed.

Lemma props_downloadMoodboard cv st :
  Wiring.props cv (Page.downloadMoodboard st)
  = withToken (Wiring.props cv st)
      (Some (Page.exportToken (Page.downloadMoodboard st))).
Proof. unfold Page.downloadMoodboard. by case_bool_decide. Qed.

Lemma downloads_renders cv n st :
  Wiring.props cv <$> PageOps.downloads n st
  = withToken (Wiring.props cv st)
      <$> (Some <$> (Page.exportToken <$> PageOps.downloads n st)).
Proof.
  revert st. induction n as [|n IH]; intros st; [done|].
  change (PageOps.downloads (S n) st)
    with (st :: PageOps.downloads n (Page.downloadMoodboard st)).
  rewrite !fmap_cons. f_equal.
  rewrite IH, props_downloadMoodboard, <- !list_fmap_compose.
  apply list_fmap_ext. by intros k st' _.
Qed.

Lemma downloadMoodboard_empty st :
  Page.draggableImages st = [] ∧ Page.backgroundImage st = None →
  Page.downloadMoodboard st = st.
Proof. intros H. unfold Page.downloadMoodboard. by rewrite bool_decide_eq_true_2. Qed.

Lemma downloadMoodboard_bump st :
  ¬ (Page.draggableImages st = [] ∧ Page.backgroundImage st = None) →
  Page.exportToken (Page.downloadMoodboard st) = (Page.exportToken st + 1)%Z
  ∧ ¬ (Page.draggableImages (Page.downloadMoodboard st) = []
       ∧ Page.backgroundImage (Page.downloadMoodboard st) = None).
Proof. intros H. unfold Page.downloadMoodboard. by rewrite bool_decide_eq_false_2. Qed.

Lemma downloads_changesAfter n st :
  changesAfter (Page.exportToken st)
    (Page.exportToken <$> PageOps.downloads n (Page.downloadMoodboard st))
  = if bool_decide (Page.draggableImages st = [] ∧ Page.backgroundImage st = None)
    then 0%nat else S n.
Proof.
  revert st. induction n as [|n IH]; intros st.
  - change (PageOps.downloads 0 (Page.downloadMoodboard st))
      with [Page.downloadMoodboard st].
    change (changesAfter ?a (Page.exportToken <$> [?b]))
      with ((if decide (Page.exportToken b ≠ a) then 1 else 0) + 0)%nat.
    case_bool_decide as Hempty.
    + rewrite downloadMoodboard_empty by done.
      by rewrite decide_False by (intros Hn; by apply Hn).
    + destruct (downloadMoodboard_bump st Hempty) as [-> _].
      rewrite decide_True; [done|lia].
  - change (PageOps.downloads (S n) (Page.downloadMoodboard st))
      with (Page.downloadMoodboard st
              :: PageOps.downloads n (Page.downloadMoodboard (Page.downloadMoodboard st))).
    rewrite fmap_cons.
    change (changesAfter ?a (?b :: ?l))
      with ((if decide (b ≠ a) then 1 else 0) + changesAfter b l)%nat.
    rewrite IH.
    destruct (decide (Page.draggableImages st = [] ∧ Page.backgroundImage st = None))
      as [Hempty|Hempty].
    + rewrite downloadMoodboard_empty by done.
      rewrite decide_False by (intros Hn; by apply Hn).
      by rewrite bool_decide_eq_true_2.
    + destruct (downloadMoodboard_bump st Hempty) as [Ht Hne].
      rewrite !bool_decide_eq_false_2 by done.
      rewrite Ht, decide_True; [done|lia].
Qed.

Lemma downloads_changes n st :
  changes (Page.exportToken <$> PageOps.downloads n st)
  = if bool_decide (Page.draggableImages st = [] ∧ Page.backgroundImage st = None)
    then 0%nat else n.
Proof.
  destruct n as [|n]; [simpl; by case_bool_decide|].
  apply downloads_changesAfter.
Qed.

(** X16. From the download button to the exported files.  With the stage
    mounted and the Konva calls returning, [n] clicks on download (nothing
    else happening in between) make the editor export exactly [n] times,
    each time handing the page the PNG and the JPEG data URL, when the scene
    has a layer or a background; on a scene with neither they export
    nothing.  After a confirmed [clearMoodboard] the scene is such a scene:
    downloads export nothing until something is added. *)
Theorem each_download_exports_once (cv : Wiring.Canvas) (st : Page.State)
    (s : Stage Scene) (png jpeg : string) (n : nat) :
  stage_draw (hidden s) = Ok () →
  stage_toDataURL (pngConfig (Wiring.props cv st)) (hidden s) = Ok png →
  stage_toDataURL (jpegConfig (Wiring.props cv st)) (hidden s) = Ok jpeg →
  stage_draw s = Ok () →
  (∃ c', runEffects (Wiring.props cv <$> PageOps.downloads n st) (mount s)
         = (Ok (), c')
         ∧ onExport_calls c'
           = replicate (if bool_decide (Page.draggableImages st = []
                                        ∧ Page.backgroundImage st = None)
                        then 0%nat else n) (png, jpeg))
  ∧ (∃ c', runEffects (Wiring.props cv
                         <$> PageOps.downloads n (PageOps.clearMoodboard true st))
                      (mount s)
           = (Ok (), c')
           ∧ onExport_calls c' = [])
  ∧ PageOps.downloads n (PageOps.clearMoodboard false st) = PageOps.downloads n st.
Proof.
  intros H1 H2 H3 H4.
  assert (Hrun : ∀ st',
            ∃ c', runEffects (Wiring.props cv <$> PageOps.downloads n st') (mount s)
                  = (Ok (), c')
                  ∧ onExport_calls c'
                    = replicate (if bool_decide (Page.draggableImages st' = []
                                                 ∧ Page.backgroundImage st' = None)
                                 then 0%nat else n) (png, jpeg)).
  { intros st'. rewrite downloads_renders.
    destruct (runEffects_calls (Wiring.props cv st') s png jpeg
                (Some <$> (Page.exportToken <$> PageOps.downloads n st')) (mount s))
      as (c' & -> & _ & Hcalls); [done..|].
    exists c'. split; [done|]. rewrite Hcalls. simpl.
    by rewrite numeric_Some, downloads_changes. }
  split_and!.
  - by apply Hrun.
  - destruct (Hrun (PageOps.clearMoodboard true st)) as (c' & ? & Hcalls).
    exists c'. split; [done|]. rewrite Hcalls.
    by rewrite bool_decide_eq_true_2.
  - done.
Qed.

End DownloadsAndExports.

Section ProductLoading.

Import ProductsCache.

Implicit Types (c : Cache) (es : list Event).

Lemma run_cons c e es :
  run c (e :: es) = ((run (step c e).1 es).1, ((step c e).2 + (run (step c e).1 es).2)%nat).
Proof. simpl. destruct (step c e) as [c1 n1]. simpl. by destruct (run c1 es). Qed.

Lemma run_app c es es' :
  run c (es ++ es')
  = ((run (run c es).1 es').1, ((run c es).2 + (run (run c es).1 es').2)%nat).
Proof.
  revert c. induction es as [|e es IH]; intros c.
  - simpl. by destruct (run c es').
  - rewrite <- app_comm_cons, !run_cons, IH. simpl. f_equal. lia.
Qed.

Lemma run_filled c es products :
  cachedProducts c = Some products → inflight c = false → run c es = (c, 0%nat).
Proof.
  intros Hc Hi. induction es as [|e es IH]; [done|].
  rewrite run_cons.
  assert (Hstep : step c e = (c, 0%nat)).
  { destruct e; simpl; [unfold loadProductsOnce|]; by rewrite ?Hc, ?Hi. }
  rewrite Hstep. cbn [fst snd]. by rewrite IH.
Qed.

Lemma run_budget c es :
  (inflight c = true → cachedProducts c = None) →
  ((inflight (run c es).1 = true → cachedProducts (run c es).1 = None)
   ∧ (run c es).2
     ≤ match cachedProducts c with
       | Some _ => 0
       | None => if inflight c then 0 else 1
       end + rejections es)%nat.
Proof.
  revert c. induction es as [|e es IH]; intros c Hinv.
  { simpl. split; [done|lia]. }
  rewrite run_cons.
  pose proof (IH c Hinv) as [Hsame Hn].
  destruct e as [|clock r].
  - simpl step. unfold loadProductsOnce.
    destruct (cachedProducts c) as [products|]; [by split|].
    destruct (inflight c); [by split|].
    destruct (IH {| cachedProducts := None; inflight := true |}) as [? Hn'];
      [done|].
    simpl in *. split; [done|lia].
  - simpl step. destruct (inflight c) eqn:Hi; cbn [fst snd].
    + rewrite (Hinv eq_refl) in *.
      destruct r as [|ok success [products|]]; simpl settle; cbn [fst snd].
      * destruct (IH {| cachedProducts := cachedProducts c; inflight := false |})
          as [? Hn']; [done|].
        rewrite (Hinv eq_refl) in *. simpl in *. split; [done|lia].
      * destruct (ok && success); cbn [fst snd];
          match goal with
          | |- context [run ?c' es] =>
              destruct (IH c') as [? Hn']; [done|]; simpl in *; split; [done|lia]
          end.
      * match goal with
        | |- context [run ?c' es] =>
            destruct (IH c') as [? Hn']; [done|]; simpl in *; split; [done|lia]
        end.
    + split; [done|]. destruct (cachedProducts c); destruct r; simpl; lia.
Qed.


Lemma withIds_lookup clock (products : list RawProduct) i p :
  withIds clock products !! i = Some p →
  id p = (clock i + Z.of_nat i)%Z ∧ (i < length products)%nat.
Proof.
  unfold withIds. rewrite list_lookup_imap.
  destruct (products !! i) as [raw|] eqn:Hraw; simpl; [|done].
  intros [= <-]. split; [done|]. by eapply lookup_lt_Some.
Qed.

(** X18. [withIds] keeps the products in place and their fields as they are,
    and under a clock that does not run backwards during the [map] it gives
    strictly increasing ids, so no two products of a load share an id. *)
Theorem withIds_ids_increase (clock : nat → Z) (products : list RawProduct) :
  (∀ i j, (i ≤ j)%nat → (clock i ≤ clock j)%Z) →
  Forall2 (λ raw p, image p = raw_image raw ∧ productName p = raw_productName raw
                    ∧ itemCode p = raw_itemCode raw ∧ price p = raw_price raw)
          products (withIds clock products)
  ∧ (∀ i j p q, (i < j)%nat →
       withIds clock products !! i = Some p →
       withIds clock products !! j = Some q →
       (id p < id q)%Z)
  ∧ NoDup (id <$> withIds clock products).
Proof.
  intros Hclock.
  assert (Hlt : ∀ i j p q, (i < j)%nat →
            withIds clock products !! i = Some p →
            withIds clock products !! j = Some q →
            (id p < id q)%Z).
  { intros i j p q Hij [-> _]%withIds_lookup [-> _]%withIds_lookup.
    specialize (Hclock i j). lia. }
  split_and!; [|exact Hlt|].
  - unfold withIds. apply Forall2_same_length_lookup_2.
    + by rewrite length_imap.
    + intros i raw p Hraw. rewrite list_lookup_imap, Hraw. simpl.
      by intros [= <-].
  - apply NoDup_alt. intros i j v.
    rewrite !list_lookup_fmap.
    destruct (withIds clock products !! i) as [p|] eqn:Hp; simpl; [|done].
    destruct (withIds clock products !! j) as [q|] eqn:Hq; simpl; [|done].
    intros [= <-] [= Heq].
    destruct (Nat.lt_trichotomy i j) as [Hij|[->|Hji]]; [|done|].
    + pose proof (Hlt i j p q Hij Hp Hq). lia.
    + pose proof (Hlt j i q p Hji Hq Hp). lia.
Qed.

End ProductLoading.

Section ReorderAgain.

Import Page.

Implicit Types (prev front back : list DraggableImage) (item : DraggableImage).

Lemma distinct_ids_after imageId front item back :
  NoDup (id <$> front ++ item :: back) → id item = imageId →
  Forall (λ img, id img ≠ imageId) front ∧ Forall (λ img, id img ≠ imageId) back.
Proof.
  rewrite fmap_app, fmap_cons. intros Hnd <-.
  apply NoDup_app in Hnd as (_ & Hfront & [Hback _]%NoDup_cons).
  split; apply Forall_forall; intros img Himg Heq.
  - apply (Hfront (id img)); [by apply list_elem_of_fmap_2|rewrite Heq; left].
  - apply Hback. rewrite <- Heq. by apply list_elem_of_fmap_2.
Qed.

Lemma reorder_updates_settle imageId prev :
  NoDup (id <$> prev) →
  bringToFront_upd imageId (bringToFront_upd imageId prev)
  = bringToFront_upd imageId prev
  ∧ sendToBack_upd imageId (sendToBack_upd imageId prev)
    = sendToBack_upd imageId prev
  ∧ bringToFront_upd imageId (sendToBack_upd imageId prev)
    = bringToFront_upd imageId prev
  ∧ sendToBack_upd imageId (bringToFront_upd imageId prev)
    = sendToBack_upd imageId prev
  ∧ bringToFront_upd imageId prev ≡ₚ prev
  ∧ sendToBack_upd imageId prev ≡ₚ prev.
Proof.
  intros Hnd.
  destruct (decide (Exists (λ img, id img = imageId) prev)) as [Hin|Hout].
  - destruct (split_first_id imageId prev Hin)
      as (front & item & back & -> & Hid & Hfront).
    destruct (distinct_ids_after imageId front item back Hnd Hid) as [_ Hback].
    rewrite bringToFront_upd_split, sendToBack_upd_split by done.
    assert (Hlast : front ++ back ++ [item] = (front ++ back) ++ item :: [])
      by (by rewrite <- (assoc_L (++))).
    assert (Hfirst : item :: front ++ back = [] ++ item :: (front ++ back))
      by done.
    split_and!.
    + rewrite Hlast at 1.
      rewrite bringToFront_upd_split; [|by apply Forall_app|done].
      cbn [app]. by rewrite <- (assoc_L (++)).
    + rewrite Hfirst at 1. by rewrite sendToBack_upd_split.
    + rewrite Hfirst at 1. rewrite bringToFront_upd_split by done.
      by rewrite <- (assoc_L (++)).
    + rewrite Hlast at 1.
      rewrite sendToBack_upd_split; [|by apply Forall_app|done].
      by rewrite (right_id_L [] (++)).
    + apply Permutation_app_head. symmetry. apply Permutation_cons_append.
    + by rewrite <- Permutation_middle.
  - apply not_Exists_Forall in Hout; [|intros ?; apply _].
    assert (Habsent : JS.findIndex (λ img, id img = imageId) prev = None).
    { apply findIndex_absent. eapply Forall_impl; [exact Hout|]. simpl. auto. }
    assert (Hf : bringToFront_upd imageId prev = prev)
      by (unfold bringToFront_upd; by rewrite Habsent).
    assert (Hb : sendToBack_upd imageId prev = prev)
      by (unfold sendToBack_upd; by rewrite Habsent).
    by rewrite !Hf, !Hb, !Hf.
Qed.

(** X19. With distinct layer ids the last reorder of a layer decides: bringing
    a layer to the front twice is bringing it once, and so for sending it
    back; bringing it to the front after sending it back is bringing it to
    the front, and the other way round.  Either action only permutes the
    layers, so every instance count is what it was, and the layer ids stay
    distinct. *)
Theorem last_reorder_decides (imageId : string) (st : State) :
  NoDup (id <$> draggableImages st) →
  bringToFront imageId (bringToFront imageId st) = bringToFront imageId st
  ∧ sendToBack imageId (sendToBack imageId st) = sendToBack imageId st
  ∧ bringToFront imageId (sendToBack imageId st) = bringToFront imageId st
  ∧ sendToBack imageId (bringToFront imageId st) = sendToBack imageId st
  ∧ (∀ u, getInstanceCount (draggableImages (bringToFront imageId st)) u
          = getInstanceCount (draggableImages st) u
          ∧ getInstanceCount (draggableImages (sendToBack imageId st)) u
            = getInstanceCount (draggableImages st) u)
  ∧ NoDup (id <$> draggableImages (bringToFront imageId st))
  ∧ NoDup (id <$> draggableImages (sendToBack imageId st)).
Proof.
  intros Hnd.
  destruct (reorder_updates_settle imageId (draggableImages st) Hnd)
    as (Hff & Hbb & Hfb & Hbf & Hpf & Hpb).
  unfold bringToFront, sendToBack, setDraggableImages. simpl.
  split_and!; try (f_equal; done).
  - intros u. rewrite !getInstanceCount_length. split.
    + by rewrite Hpf.
    + by rewrite Hpb.
  - by rewrite Hpf.
  - by rewrite Hpb.
Qed.

End ReorderAgain.

Section BackgroundControls.

Import Editor EditorOps.

(** X20. Of the background the editor receives the url only.  So the size
    slider and the layer select of the builder page ([updateBackgroundSize],
    [updateBackgroundLayer]) and a pointer move during a background drag
    leave the props of the editor, and with them the stage of either
    variant, as they were; an uploaded background arrives as its data URL;
    and whatever position, size and layer the page holds, the background,
    once loaded, is the one image of the bottom layer, drawn at the origin
    with the width and height of the canvas. *)
Theorem background_geometry_is_not_drawn (cv : Wiring.Canvas) (st : Page.State)
    (w h : Q) (z : Z) (rect : option Builder.DOMRect) (e : Builder.MouseEvent)
    (b : Builder.State) (dataUrl : string) (loaded : string → bool) :
  Wiring.props cv (PageOps.updateBackgroundSize w h st) = Wiring.props cv st
  ∧ Wiring.props cv (PageOps.updateBackgroundLayer z st) = Wiring.props cv st
  ∧ background (Wiring.props cv (Builder.page (Builder.handleMouseMove rect e b)))
    = background (Wiring.props cv (Builder.page b))
  ∧ (Builder.draggedImage b = None →
     Wiring.props cv (Builder.page (Builder.handleMouseMove rect e b))
     = Wiring.props cv (Builder.page b))
  ∧ background (Wiring.props cv
      (PageOps.setBackgroundImage (λ _, Some (Builder.uploadedBackground dataUrl rect)) st))
    = Some dataUrl
  ∧ background (Wiring.props cv (PageOps.removeBackgroundImage st)) = None
  ∧ Forall (λ a, img_x a == 0 ∧ img_y a == 0
                 ∧ img_width a = Wiring.canvasWidth cv
                 ∧ img_height a = Wiring.canvasHeight cv
                 ∧ image a = Page.bg_url <$> Page.backgroundImage st
                 ∧ draggable a = false)
      (layer_children (backgroundLayer loaded (Wiring.props cv st)) ≫= node_images)
  ∧ (length (layer_children (backgroundLayer loaded (Wiring.props cv st))) ≤ 1)%nat.
Proof.
  split_and!.
  - unfold PageOps.updateBackgroundSize, Wiring.props.
    destruct (Page.backgroundImage st) eqn:Hbg; simpl; by rewrite ?Hbg.
  - unfold PageOps.updateBackgroundLayer, Wiring.props.
    destruct (Page.backgroundImage st) eqn:Hbg; simpl; by rewrite ?Hbg.
  - unfold Builder.handleMouseMove. destruct rect as [r|]; [|done].
    destruct (Builder.truthy _); [done|].
    destruct (_ && _); [|done]. simpl.
    by destruct (Page.backgroundImage (Builder.page b)).
  - intros Hidle. unfold Builder.handleMouseMove. rewrite Hidle.
    destruct rect as [r|]; [|done]. simpl.
    destruct (_ && _); [|done]. unfold Wiring.props. simpl.
    by destruct (Page.backgroundImage (Builder.page b)).
  - done.
  - done.
  - unfold backgroundLayer. simpl.
    destruct (Page.backgroundImage st) as [bg|]; simpl; [|constructor].
    destruct (loaded (Page.bg_url bg)); simpl; [|constructor].
    constructor; [|constructor]. simpl. split_and!; reflexivity.
  - unfold backgroundLayer. simpl.
    destruct (useHTMLImage loaded _); simpl; lia.
Qed.

End BackgroundControls.

Section ProxyRoute.

Import ProxyImage.

Implicit Types (s r literal : string) (parse : string → option URL)
  (fetch : Request → option Response).

Lemma idRun_idem s : idRun (idRun s) = idRun s.
Proof.
  induction s as [|c s IH]; [done|]. simpl.
  destruct (idChar c) eqn:Hc; [|done]. simpl. by rewrite Hc, IH.
Qed.

Lemma idRun_app r s : idRun r = r → idRun (r +:+ s) = r +:+ idRun s.
Proof.
  induction r as [|c r IH]; [done|]. simpl.
  destruct (idChar c); [|done]. intros [= Hr]. by rewrite IH.
Qed.

Lemma matchId_Some literal s r :
  matchId literal s = Some r → r ≠ "" ∧ idRun r = r.
Proof.
  induction s as [|c s IH]; simpl.
  - destruct (afterPrefix literal "") as [rest|]; [|done].
    destruct (idRun rest) eqn:Hrun; [done|].
    intros [= <-]. split; [done|]. by rewrite <- Hrun, idRun_idem.
  - destruct (afterPrefix literal (String c s)) as [rest|]; [|exact IH].
    destruct (idRun rest) eqn:Hrun; [exact IH|].
    intros [= <-]. split; [done|]. by rewrite <- Hrun, idRun_idem.
Qed.

Lemma matchId_skip literal c s :
  afterPrefix literal (String c s) = None →
  matchId literal (String c s) = matchId literal s.
Proof. intros H. simpl. by rewrite H. Qed.

Lemma matchId_here literal s rest c r :
  afterPrefix literal s = Some rest → idRun rest = String c r →
  matchId literal s = Some (String c r).
Proof. intros H Hrun. destruct s; simpl; by rewrite H, Hrun. Qed.

Lemma includes_skip c s needle :
  String.prefix needle (String c s) = false →
  includes (String c s) needle = includes s needle.
Proof. intros H. simpl. simpl in H. by rewrite H. Qed.

Lemma includes_here s needle :
  String.prefix needle s = true → includes s needle = true.
Proof. intros H. destruct s; simpl; simpl in H; by rewrite H. Qed.

Lemma append_String c s r : String c s +:+ r = String c (s +:+ r).
Proof. done. Qed.

Lemma append_empty r : "" +:+ r = r.
Proof. done. Qed.

Lemma append_empty_r r : r +:+ "" = r.
Proof.
  induction r as [|c r IH]; [done|]. by rewrite append_String, IH.
Qed.

(** The thumbnail address of a file id, read back by the fallback. *)
Lemma thumbnail_id r :
  r ≠ "" → idRun r = r →
  matchId "id=" ("https://drive.google.com/thumbnail?id=" +:+ r +:+ "&sz=w2000")
  = Some r
  ∧ includes ("https://drive.google.com/thumbnail?id=" +:+ r +:+ "&sz=w2000")
      "drive.google.com" = true
  ∧ includes ("https://drive.google.com/thumbnail?id=" +:+ r +:+ "&sz=w2000")
      "thumbnail" = true.
Proof.
  intros Hne Hrun.
  change ("https://drive.google.com/thumbnail?id=" +:+ r +:+ "&sz=w2000")
    with ("https://drive.google.com/thumbnail?"
          +:+ ("id=" +:+ (r +:+ "&sz=w2000"))).
  split_and!.
  - rewrite !append_String, !append_empty, !matchId_skip by reflexivity.
    destruct r as [|c r]; [done|].
    apply (matchId_here _ _ (String c r +:+ "&sz=w2000")); [reflexivity|].
    rewrite idRun_app by done.
    change (idRun "&sz=w2000") with "". apply append_empty_r.
  - rewrite !append_String, !append_empty, !includes_skip by reflexivity.
    by apply includes_here.
  - rewrite !append_String, !append_empty, !includes_skip by reflexivity.
    by apply includes_here.
Qed.

(** X21. A Drive file link ([/file/d/<id>...]) whose thumbnail request comes
    back not ok is retried once, with the download address of the same file
    id: the id that [convertGoogleDriveUrl] put into the thumbnail address is
    the id that the fallback reads back from it.  The answer is then the
    body of the second response when that one is ok (with its content type,
    or image/jpeg when it has none, and without looking whether it is an
    image), and else the failure with the status of the first response. *)
Theorem drive_fallback_keeps_file_id parse fetch (imageUrl fileId : string)
    (u : URL) (response : Response) :
  imageUrl ≠ "" →
  parse imageUrl = Some u →
  protocol u = "https:" ∨ protocol u = "http:" →
  hostname u = "drive.google.com" →
  matchId "/file/d/" (pathname u) = Some fileId →
  EditorOps.startsWith (pathname u) "/file/d/" = true →
  let thumbnail := "https://drive.google.com/thumbnail?id=" +:+ fileId +:+ "&sz=w2000" in
  fetch (firstRequest thumbnail) = Some response →
  res_ok response = false →
  convertGoogleDriveUrl parse imageUrl = thumbnail
  ∧ (GET parse fetch (Some imageUrl)).1
    = [firstRequest thumbnail; downloadRequest fileId]
  ∧ (GET parse fetch (Some imageUrl)).2
    = match fetch (downloadRequest fileId) with
      | None => internalError
      | Some downloadResponse =>
          if res_ok downloadResponse then
            match res_body downloadResponse with
            | None => internalError
            | Some imageBuffer =>
                Image imageBuffer
                  (orElse "image/jpeg" (res_contentType downloadResponse))
            end
          else Json "Failed to fetch image" (res_status response)
      end.
Proof.
  intros Hne Hparse Hproto Hhost Hid Hpath thumbnail Hfetch Hfail.
  unfold thumbnail in *. clear thumbnail.
  destruct (matchId_Some _ _ _ Hid) as [Hfile Hrun].
  destruct (thumbnail_id fileId Hfile Hrun) as (Hback & Hdrive & Hthumb).
  assert (Hconv : convertGoogleDriveUrl parse imageUrl
                  = "https://drive.google.com/thumbnail?id=" +:+ fileId +:+ "&sz=w2000").
  { unfold convertGoogleDriveUrl. rewrite Hparse, decide_True by done.
    assert (Huc : bool_decide (pathname u = "/uc") = false).
    { apply bool_decide_eq_false_2. intros Heq. by rewrite Heq in Hpath. }
    rewrite Huc, Hpath, Hid. simpl. by destruct fileId. }
  split; [done|].
  assert (Hok : bool_decide (protocol u ∈ ["http:"; "https:"]) = true).
  { apply bool_decide_eq_true_2. destruct Hproto as [-> | ->];
      [right; left|left]. }
  assert (HGET : GET parse fetch (Some imageUrl)
    = match fetch (downloadRequest fileId) with
      | Some downloadResponse =>
          if res_ok downloadResponse then
            match res_body downloadResponse with
            | Some imageBuffer =>
                ([firstRequest ("https://drive.google.com/thumbnail?id="
                                +:+ fileId +:+ "&sz=w2000");
                  downloadRequest fileId],
                 Image imageBuffer
                   (orElse "image/jpeg" (res_contentType downloadResponse)))
            | None =>
                ([firstRequest ("https://drive.google.com/thumbnail?id="
                                +:+ fileId +:+ "&sz=w2000");
                  downloadRequest fileId], internalError)
            end
          else
            ([firstRequest ("https://drive.google.com/thumbnail?id="
                            +:+ fileId +:+ "&sz=w2000");
              downloadRequest fileId],
             Json "Failed to fetch image" (res_status response))
      | None =>
          ([firstRequest ("https://drive.google.com/thumbnail?id="
                          +:+ fileId +:+ "&sz=w2000");
            downloadRequest fileId], internalError)
      end).
  { unfold GET. destruct imageUrl as [|c0 rest0]; [done|].
    rewrite Hparse, Hok, Hconv. cbn [negb]. rewrite Hfetch, Hfail.
    cbn [negb]. by rewrite Hdrive, Hthumb, Hback. }
  rewrite HGET.
  destruct (fetch (downloadRequest fileId)) as [downloadResponse|]; [|by split].
  destruct (res_ok downloadResponse); [|by split].
  destruct (res_body downloadResponse); by split.
Qed.

(** An answer of the route that is a JSON error. *)
Ltac proxy_leaf G1 G2 G3 Hhead :=
  unfold internalError; simpl; split_and!;
  [ lia
  | let H := fresh in intros H; destruct (G1 H)
  | let s := fresh in let H := fresh in let Hne := fresh in let Hnone := fresh in
    intros s H Hne Hnone; destruct (G2 s H Hne Hnone)
  | intros; exfalso; by eapply G3
  | exact Hhead
  | let H := fresh in intros ? ? H; discriminate H ].

(** X22. The guards of the route.  It asks upstream at most twice.  Without a
    [url] parameter, or with an address whose protocol is neither http nor
    https, it asks nothing and answers 400; an address that does not parse
    gives 500 without a request.  The first request goes to the converted
    address, which is the given address itself unless its host is
    drive.google.com.  An image is answered only with the body of an
    upstream response that was ok, that of the last request; answered
    after one request its content type starts with image/. *)
Theorem proxy_answers_only_fetched_images parse fetch (imageUrl : option string) :
  let requests := (GET parse fetch imageUrl).1 in
  let reply := (GET parse fetch imageUrl).2 in
  (length requests ≤ 2)%nat
  ∧ (imageUrl = None ∨ imageUrl = Some "" →
     requests = [] ∧ reply = Json "Missing image URL" 400)
  ∧ (∀ s, imageUrl = Some s → s ≠ "" → parse s = None →
       requests = [] ∧ reply = internalError)
  ∧ (∀ s u, imageUrl = Some s → s ≠ "" → parse s = Some u →
       protocol u ≠ "http:" → protocol u ≠ "https:" →
       requests = [] ∧ reply = Json "Invalid protocol" 400)
  ∧ (∀ first, head requests = Some first →
       ∃ s u, imageUrl = Some s ∧ parse s = Some u
              ∧ (protocol u = "http:" ∨ protocol u = "https:")
              ∧ first = firstRequest (convertGoogleDriveUrl parse s)
              ∧ (hostname u ≠ "drive.google.com" → req_url first = s))
  ∧ (∀ image contentType, reply = Image image contentType →
       ∃ request response,
         last requests = Some request ∧ fetch request = Some response
         ∧ res_ok response = true ∧ res_body response = Some image
         ∧ contentType ≠ ""
         ∧ (length requests = 1%nat →
            EditorOps.startsWith contentType "image/" = true)).
Proof.
  intros requests reply. subst requests reply.
  destruct imageUrl as [[|c0 rest0]|].
  { simpl. split_and!; [lia|done|by intros ? [= <-]|by intros ? ? [= <-]
      |by intros ? [=]|by intros ? ? [=]]. }
  2:{ simpl. split_and!; [lia|done|by intros ? [=]|by intros ? ? [=]
      |by intros ? [=]|by intros ? ? [=]]. }
  unfold GET.
  destruct (parse (String c0 rest0)) as [u|] eqn:Hparse.
  2:{ simpl. split_and!; [lia|by intros [[=]|[=]]|by intros ? [= <-]
      |intros s u0 [= <-] _ Hsome; by rewrite Hsome in Hparse
      |by intros ? [=]|by intros ? ? [=]]. }
  destruct (bool_decide (protocol u ∈ ["http:"; "https:"])) eqn:Hproto.
  2:{ simpl. split_and!; [lia|by intros [[=]|[=]]
      |intros s [= <-] _ Hnone; by rewrite Hnone in Hparse
      |by intros ? ? [= <-]|by intros ? [=]|by intros ? ? [=]]. }
  apply bool_decide_eq_true_1 in Hproto.
  assert (Hp : protocol u = "http:" ∨ protocol u = "https:").
  { apply elem_of_cons in Hproto as [?|Hproto]; [by left|].
    apply list_elem_of_singleton in Hproto. by right. }
  assert (Hhost : hostname u ≠ "drive.google.com" →
            convertGoogleDriveUrl parse (String c0 rest0) = String c0 rest0).
  { intros Hne. unfold convertGoogleDriveUrl.
    by rewrite Hparse, decide_False by done. }
  cbn [negb].
  set (converted := convertGoogleDriveUrl parse (String c0 rest0)) in *.
  assert (Hhead : ∀ first, Some (firstRequest converted) = Some first →
            ∃ s u0, Some (String c0 rest0) = Some s ∧ parse s = Some u0
              ∧ (protocol u0 = "http:" ∨ protocol u0 = "https:")
              ∧ first = firstRequest (convertGoogleDriveUrl parse s)
              ∧ (hostname u0 ≠ "drive.google.com" → req_url first = s)).
  { intros first [= <-]. exists (String c0 rest0), u.
    split_and!; try done; intros Hne; simpl; by apply Hhost. }
  assert (G1 : Some (String c0 rest0) = None ∨ Some (String c0 rest0) = Some "" →
               False) by (by intros [[=]|[=]]).
  assert (G2 : ∀ s, Some (String c0 rest0) = Some s → s ≠ "" → parse s = None →
               False).
  { intros s [= <-] _ Hnone. by rewrite Hnone in Hparse. }
  assert (G3 : ∀ s u0, Some (String c0 rest0) = Some s → s ≠ "" →
               parse s = Some u0 →
               protocol u0 ≠ "http:" → protocol u0 ≠ "https:" → False).
  { intros s u0 [= <-] _ Hsome H1 H2. rewrite Hsome in Hparse.
    injection Hparse as ->. by destruct Hp. }
  destruct (fetch (firstRequest converted)) as [response|] eqn:Hfetch.
  2:{ proxy_leaf G1 G2 G3 Hhead. }
  destruct (res_ok response) eqn:Hres; cbn [negb].
  - destruct (EditorOps.startsWith (orElse "" (res_contentType response)) "image/")
      eqn:Hct; cbn [negb]; [|proxy_leaf G1 G2 G3 Hhead].
    destruct (res_body response) as [imageBuffer|] eqn:Hbody;
      [|proxy_leaf G1 G2 G3 Hhead].
    simpl. split_and!; [lia|intros H; destruct (G1 H)
      |intros s H Hne Hnone; destruct (G2 s H Hne Hnone)
      |intros; exfalso; by eapply G3|exact Hhead|].
    intros image contentType [= <- <-].
    exists (firstRequest converted), response. split_and!; try done.
    intros Heq. by rewrite Heq in Hct.
  - destruct (includes converted "drive.google.com" && includes converted "thumbnail");
      [|proxy_leaf G1 G2 G3 Hhead].
    destruct (matchId "id=" converted) as [fileId|]; [|proxy_leaf G1 G2 G3 Hhead].
    destruct (fetch (downloadRequest fileId)) as [downloadResponse|] eqn:Hsecond;
      [|proxy_leaf G1 G2 G3 Hhead].
    destruct (res_ok downloadResponse) eqn:Hok2; [|proxy_leaf G1 G2 G3 Hhead].
    destruct (res_body downloadResponse) as [imageBuffer|] eqn:Hbody;
      [|proxy_leaf G1 G2 G3 Hhead].
    simpl. split_and!; [lia|intros H; destruct (G1 H)
      |intros s H Hne Hnone; destruct (G2 s H Hne Hnone)
      |intros; exfalso; by eapply G3|exact Hhead|].
    intros image contentType [= <- <-].
    exists (downloadRequest fileId), downloadResponse.
    split_and!; try done.
    unfold orElse. by destruct (res_contentType downloadResponse) as [[|]|].
Qed.

End ProxyRoute.

Section GridAndGenerate.

Import Grid.

(** X23. The grid and the editor ask for a Drive image at the same
    address: for an http(s) url that contains drive.google.com,
    [getImageUrl] is the [src] that [useHTMLImage] asks for, the proxy
    address of the encoded url.  Any other url the grid asks for as it is,
    also an http(s) one, which the editor asks for through the proxy. *)
Theorem grid_and_editor_share_proxy_address
    (encodeURIComponent : string → string) (url : string) :
  url ≠ "" →
  EditorOps.startsWith url "http://" || EditorOps.startsWith url "https://" = true →
  (ProxyImage.includes url "drive.google.com" = true →
   EditorOps.src <$> EditorOps.imageRequest encodeURIComponent (Some url)
   = Some (getImageUrl encodeURIComponent url))
  ∧ (ProxyImage.includes url "drive.google.com" = false →
     getImageUrl encodeURIComponent url = url
     ∧ EditorOps.src <$> EditorOps.imageRequest encodeURIComponent (Some url)
       = Some ("/api/proxy-image?url=" +:+ encodeURIComponent url)).
Proof.
  intros Hne Hhttp.
  assert (Hreq : EditorOps.src <$> EditorOps.imageRequest encodeURIComponent (Some url)
                 = Some ("/api/proxy-image?url=" +:+ encodeURIComponent url)).
  { unfold EditorOps.imageRequest. rewrite decide_False by done. rewrite Hhttp.
    rewrite orb_true_r. simpl.
    destruct (EditorOps.startsWith url "/api/proxy-image") eqn:Hproxied; [|done].
    apply proxied_is_not_http in Hproxied. by rewrite Hproxied in Hhttp. }
  split.
  - intros Hdrive. unfold getImageUrl. by rewrite Hdrive.
  - intros Hdrive. unfold getImageUrl. by rewrite Hdrive.
Qed.

(** X24. The generate button.  With nothing selected, or while a request
    is under way, [handleGenerateMoodboard] posts nothing and leaves its
    cells as they are.  Otherwise it ends not generating, with exactly one
    of the success message and the error set; it posts at most once, the
    selected URLs as they are; it posted nothing exactly when the webhook
    address is not configured; and the success message is set exactly when
    the webhook answered ok. *)
Theorem generate_ends_with_message_or_error (webhookUrl : option string)
    (fetch : string → list string → Sent) (selectedImageUrls : list string)
    (st : Generate) :
  let posted := (handleGenerateMoodboard webhookUrl fetch selectedImageUrls st).1 in
  let st' := (handleGenerateMoodboard webhookUrl fetch selectedImageUrls st).2 in
  (selectedImageUrls = [] ∨ isGenerating st = true → posted = [] ∧ st' = st)
  ∧ (selectedImageUrls ≠ [] → isGenerating st = false →
     isGenerating st' = false
     ∧ (generateMessage st' = "" ↔ generateError st' ≠ "")
     ∧ (posted = [] ∨ posted = [selectedImageUrls])
     ∧ (posted = [] ↔ webhookUrl = None ∨ webhookUrl = Some "")
     ∧ (generateMessage st' ≠ "" ↔
        ∃ address text, webhookUrl = Some address ∧ address ≠ ""
                        ∧ fetch address selectedImageUrls = Text true text)).
Proof.
  intros posted st'. subst posted st'. unfold handleGenerateMoodboard. split.
  - intros [-> | ->]; [done|]. by rewrite orb_true_r.
  - intros Hsel Hidle. rewrite bool_decide_eq_false_2, Hidle by done. simpl.
    assert (Hfilled : ∀ fallback value c rest,
              fallback = String c rest → orElse fallback value ≠ "").
    { intros fallback value c rest ->. by destruct value as [[|]|]. }
    destruct webhookUrl as [[|c rest]|]; simpl.
    + split_and!; try done.
      * by left.
      * split; [by right|done].
      * split; [done|]. by intros (address & text & [= <-] & ? & _).
    + assert (Hposted : [selectedImageUrls] = []
                        ↔ Some (String c rest) = None ∨ Some (String c rest) = Some "").
      { split; [done|by intros [[=]|[=]]]. }
      destruct (fetch (String c rest) selectedImageUrls) as [m|m|[|] text] eqn:Hfetch;
        simpl.
      * split_and!; [done| |by right|exact Hposted|].
        -- split; [intros _; by eapply Hfilled|done].
        -- split; [done|]. intros (address & text & [= <-] & _ & Hother).
           by rewrite Hfetch in Hother.
      * split_and!; [done| |by right|exact Hposted|].
        -- split; [intros _; by eapply Hfilled|done].
        -- split; [done|]. intros (address & text & [= <-] & _ & Hother).
           by rewrite Hfetch in Hother.
      * split_and!; [done| |by right|exact Hposted|].
        -- split; [done|]. intros Herr. by destruct Herr.
        -- split; [|done]. intros _. by exists (String c rest), text.
      * split_and!; [done| |by right|exact Hposted|].
        -- split; [intros _; by destruct text|done].
        -- split; [done|]. intros (address & text' & [= <-] & _ & Hother).
           by rewrite Hfetch in Hother.
    + split_and!; try done.
      * by left.
      * split; [by left|done].
      * split; [done|]. by intros (address & text & [=] & _).
Qed.

End GridAndGenerate.

(** * Worked instances, continued *)

Section MoreInstances.

Import Samples Scenarios.

Ltac computed := vm_compute; first [reflexivity | discriminate | exact I].

(** Removing the first sofa on the second builder page takes the other
    sofa with it. *)
Lemma remove_one_sofa_removes_both :
  PageOps.find (λ d, Page.id d = "sofa-1") (Page.draggableImages abc) = Some layerA
  ∧ Page.draggableImages (PageOps.removeImageByUrl "sofa-1" abc) = [layerB].
Proof.
  split; [reflexivity|].
  destruct (removeImageByUrl_takes_every_instance "sofa-1" abc layerA eq_refl)
    as [Hlayers _].
  rewrite Hlayers. reflexivity.
Defined.

(** No layer of the sample scene has the id ghost. *)
Lemma ghost_actions_change_nothing :
  Forall (λ d, Page.id d ≠ "ghost") (Page.draggableImages abc)
  ∧ PageOps.rotateImageLeft "ghost" abc = abc
  ∧ Page.bringToFront "ghost" abc = abc.
Proof.
  assert (Hghost : Forall (λ d, Page.id d ≠ "ghost") (Page.draggableImages abc))
    by (apply (bool_decide_unpack _); computed).
  split; [exact Hghost|].
  destruct (unknown_id_is_no_op "ghost" abc Hghost) as (Hleft & _ & _ & Hfront & _).
  by split.
Defined.

(** Adding a rug to the sample scene keeps the selected URLs in step. *)
Lemma sample_scene_stays_synced :
  PageOps.synced abc
  ∧ PageOps.synced
      (Page.addToMoodboard "https://cdn.example/rug.png" 1000 (1 # 4) (3 # 4) abc).
Proof.
  split; [reflexivity|].
  destruct (add_remove_keep_selected_urls_synced
              "https://cdn.example/rug.png" 1000 (1 # 4) (3 # 4) abc eq_refl)
    as [Hadd _].
  exact Hadd.
Defined.

(** The grabbed lamp, pulled far out of the container, stays grabbed and
    the background stays as it is. *)
Lemma grabbed_lamp_pulled_away :
  (Builder.draggedImage grabbed = Some "lamp-2" ∧ "lamp-2" ≠ "")
  ∧ Builder.draggedImage (Builder.handleMouseMove (Some container) farAway grabbed)
    = Some "lamp-2"
  ∧ length (Page.draggableImages
              (Builder.page (Builder.handleMouseMove (Some container) farAway grabbed)))
    = 3%nat.
Proof.
  assert (Hname : "lamp-2" ≠ "") by discriminate.
  split; [split; [reflexivity|exact Hname]|].
  destruct (pointer_move_clamps_like_dragBoundFunc container farAway grabbed
              "lamp-2" eq_refl Hname) as (Hlayers & _ & Hdragged).
  split; [exact Hdragged|].
  apply Forall2_length in Hlayers. rewrite <- Hlayers. reflexivity.
Defined.

(** Pressing on the lamp starts a drag of the lamp and moves nothing. *)
Lemma press_on_lamp_starts_drag :
  ("lamp-2" ≠ ""
   ∧ PageOps.find (λ d, Page.id d = "lamp-2")
       (Page.draggableImages (Builder.page (Builder.idle abc))) = Some layerB)
  ∧ Builder.draggedImage grabbed = Some "lamp-2"
  ∧ Builder.page grabbed = abc.
Proof.
  assert (Hname : "lamp-2" ≠ "") by discriminate.
  split; [split; [exact Hname|reflexivity]|].
  destruct (pointer_drag_follows_pointer container press "lamp-2" layerB
              (Builder.idle abc) Hname eq_refl) as (Hdragged & Hpage & _).
  by split.
Defined.

(** The dragged wallpaper, pulled far away, keeps its size and leaves the
    layers alone. *)
Lemma wallpaper_pulled_away :
  (Builder.truthy (Builder.draggedImage draggingWallpaper) = false
   ∧ Builder.isDraggingBackground draggingWallpaper = true
   ∧ Page.backgroundImage (Builder.page draggingWallpaper) = Some wallpaper
   ∧ 0 <= Builder.rect_width container
   ∧ 0 <= Builder.rect_height container)
  ∧ Page.draggableImages
      (Builder.page (Builder.handleMouseMove (Some container) farAway draggingWallpaper))
    = Page.draggableImages abc.
Proof.
  assert (Hw : 0 <= Builder.rect_width container) by computed.
  assert (Hh : 0 <= Builder.rect_height container) by computed.
  split; [split_and!; [reflexivity|reflexivity|reflexivity|exact Hw|exact Hh]|].
  destruct (background_drag_keeps_half_inside container farAway draggingWallpaper
              wallpaper eq_refl eq_refl eq_refl Hw Hh) as (_ & Hlayers & _).
  exact Hlayers.
Defined.

(** A container a hair narrower than 960 over a height of 300 gets a canvas
    of 959 by 540: the ratio bound is attained at its lower end. *)
Lemma hair_narrow_container :
  Builder.updateCanvasSize (Some hairNarrow) (800, 600)%Z = (959, 540)%Z
  ∧ (-9 ≤ 9 * 959 - 16 * 540 ≤ 16)%Z.
Proof.
  assert (HW : Double.round (Builder.rect_width hairNarrow)
               == Builder.rect_width hairNarrow) by computed.
  assert (HH : Double.round (Builder.rect_height hairNarrow)
               == Builder.rect_height hairNarrow) by computed.
  assert (HW1 : 0 <= Builder.rect_width hairNarrow <= 1000000000)
    by (split; computed).
  assert (HH1 : 0 <= Builder.rect_height hairNarrow <= 1000000000)
    by (split; computed).
  destruct (canvas_covers_container_at_16_9 hairNarrow (800, 600)%Z HW HH HW1 HH1)
    as (_ & _ & Hratio & _).
  split; [computed|exact Hratio].
Defined.

(** A container of 101 and a third by 10 gets a canvas of 101 by 57: the
    quotient rounds up to 57.00000000000001 before it is floored. *)
Lemma third_over_container :
  Builder.updateCanvasSize (Some thirdOver) (800, 600)%Z = (101, 57)%Z.
Proof. computed. Qed.

(** The lamp, turned right and back, has the rotation it had. *)
Lemma lamp_turned_and_back :
  ∃ d', Page.draggableImages
          (PageOps.rotateImageLeft "lamp-2" (PageOps.rotateImageRight "lamp-2" abc))
        !! 1%nat = Some d'
        ∧ default 0 (Page.rotation d') == default 0 (Page.rotation layerB).
Proof.
  destruct (rotate_left_undoes_rotate_right "lamp-2" abc) as [Hback _].
  destruct (Forall2_lookup_l _ _ _ 1%nat layerB Hback eq_refl)
    as (d' & Hd' & _ & _ & _ & Hwhole).
  exists d'. split; [exact Hd'|]. apply Hwhole.
  exists 0%Z. split; computed.
Defined.

(** A layer turned by a tenth of a degree does not get its rotation back:
    right and left again leave 0.09999999999999432, and the rotation is not
    a whole number of degrees. *)
Lemma tenth_of_a_degree_drifts :
  let st := Page.setDraggableImages (λ _, [tiltedLamp]) abc in
  Page.rotation <$> Page.draggableImages
    (PageOps.rotateImageLeft "lamp-2" (PageOps.rotateImageRight "lamp-2" st))
  = [Some (3518437208883 # 35184372088832)]
  ∧ ¬ PageOps.wholeDegrees (Page.rotation tiltedLamp).
Proof.
  split; [computed|]. intros (z & _ & Hq). simpl in Hq.
  unfold Qeq in Hq. simpl in Hq. lia.
Qed.

(** The sofa image is asked for through the proxy, and asking for the
    proxied address asks for the same. *)
Lemma sofa_is_proxied_once :
  EditorOps.imageRequest escape (Some sofa)
  = Some {| EditorOps.crossOrigin := Some "anonymous";
            EditorOps.src := "/api/proxy-image?url=https%3A%2F%2Fcdn.example%2Fsofa.png" |}
  ∧ EditorOps.imageRequest escape
      (Some "/api/proxy-image?url=https%3A%2F%2Fcdn.example%2Fsofa.png")
    = Some {| EditorOps.crossOrigin := Some "anonymous";
              EditorOps.src := "/api/proxy-image?url=https%3A%2F%2Fcdn.example%2Fsofa.png" |}.
Proof.
  split; [reflexivity|].
  destruct (imageRequest_proxies_once escape sofa
              {| EditorOps.crossOrigin := Some "anonymous";
                 EditorOps.src := "/api/proxy-image?url=https%3A%2F%2Fcdn.example%2Fsofa.png" |}
              eq_refl) as [Hagain _].
  exact Hagain.
Defined.

(** Three clicks on download with the sample scene on the sample stage:
    three exports. *)
Lemma three_downloads_three_exports :
  (@Exporting.stage_draw Paint rasterizer (Exporting.hidden stage)
   = Exporting.Ok ()
   ∧ @Exporting.stage_toDataURL Paint rasterizer
       (Exporting.pngConfig (Wiring.props canvas abc)) (Exporting.hidden stage)
     = Exporting.Ok "data:image/png,painted"
   ∧ @Exporting.stage_toDataURL Paint rasterizer
       (Exporting.jpegConfig (Wiring.props canvas abc)) (Exporting.hidden stage)
     = Exporting.Ok "data:image/jpeg,painted"
   ∧ @Exporting.stage_draw Paint rasterizer stage = Exporting.Ok ())
  ∧ ∃ c', @Exporting.runEffects Paint rasterizer
            (Wiring.props canvas <$> PageOps.downloads 3 abc) (Exporting.mount stage)
          = (Exporting.Ok (), c')
          ∧ length (Exporting.onExport_calls c') = 3%nat.
Proof.
  split; [split_and!; reflexivity|].
  destruct (@each_download_exports_once Paint rasterizer canvas abc stage _ _ 3
              eq_refl eq_refl eq_refl eq_refl)
    as ((c' & Hrun & Hcalls) & _).
  exists c'. split; [exact Hrun|]. rewrite Hcalls. reflexivity.
Defined.

(** Two products loaded within one millisecond get different ids. *)
Lemma two_products_two_ids :
  (∀ i j, (i ≤ j)%nat → (stoppedClock i ≤ stoppedClock j)%Z)
  ∧ ProductsCache.id <$> ProductsCache.withIds stoppedClock [rawSofa; rawLamp]
    = [1700000000000%Z; 1700000000001%Z]
  ∧ NoDup (ProductsCache.id
             <$> ProductsCache.withIds stoppedClock [rawSofa; rawLamp]).
Proof.
  assert (Hclock : ∀ i j, (i ≤ j)%nat → (stoppedClock i ≤ stoppedClock j)%Z)
    by (intros i j _; unfold stoppedClock; lia).
  split; [exact Hclock|]. split; [reflexivity|].
  destruct (withIds_ids_increase stoppedClock [rawSofa; rawLamp] Hclock)
    as (_ & _ & Hdistinct).
  exact Hdistinct.
Defined.

(** Sending the lamp back after bringing it to the front is sending it
    back. *)
Lemma lamp_last_reorder_decides :
  NoDup (Page.id <$> Page.draggableImages abc)
  ∧ Page.draggableImages (Page.sendToBack "lamp-2" (Page.bringToFront "lamp-2" abc))
    = [layerB; layerA; layerC].
Proof.
  split; [exact abc_ids_distinct|].
  destruct (last_reorder_decides "lamp-2" abc abc_ids_distinct)
    as (_ & _ & _ & Hback & _).
  rewrite Hback. reflexivity.
Defined.

(** The Drive link whose thumbnail is refused is served from the download
    address of the same file, as image/jpeg. *)
Lemma drive_link_served_by_download :
  (driveLink ≠ ""
   ∧ parseLink driveLink
     = Some {| ProxyImage.protocol := "https:";
               ProxyImage.hostname := "drive.google.com";
               ProxyImage.pathname := "/file/d/1AbC_d-9/view";
               ProxyImage.searchParams := [] |}
   ∧ ProxyImage.matchId "/file/d/" "/file/d/1AbC_d-9/view" = Some "1AbC_d-9"
   ∧ EditorOps.startsWith "/file/d/1AbC_d-9/view" "/file/d/" = true
   ∧ upstream (ProxyImage.firstRequest
                 "https://drive.google.com/thumbnail?id=1AbC_d-9&sz=w2000")
     = Some refused
   ∧ ProxyImage.res_ok refused = false)
  ∧ ProxyImage.GET parseLink upstream (Some driveLink)
    = ([ProxyImage.firstRequest
          "https://drive.google.com/thumbnail?id=1AbC_d-9&sz=w2000";
        ProxyImage.downloadRequest "1AbC_d-9"],
       ProxyImage.Image "bytes" "image/jpeg").
Proof.
  assert (Hlink : driveLink ≠ "") by discriminate.
  split; [split_and!; [exact Hlink|reflexivity..]|].
  destruct (drive_fallback_keeps_file_id parseLink upstream driveLink "1AbC_d-9"
              {| ProxyImage.protocol := "https:";
                 ProxyImage.hostname := "drive.google.com";
                 ProxyImage.pathname := "/file/d/1AbC_d-9/view";
                 ProxyImage.searchParams := [] |}
              refused Hlink eq_refl (or_introl eq_refl) eq_refl eq_refl eq_refl
              eq_refl eq_refl)
    as (_ & Hrequests & Hreply).
  rewrite (surjective_pairing (ProxyImage.GET parseLink upstream (Some driveLink))).
  rewrite Hrequests, Hreply. reflexivity.
Defined.

(** The grid and the editor ask for the Drive link at one address. *)
Lemma drive_link_one_address :
  (driveLink ≠ ""
   ∧ EditorOps.startsWith driveLink "http://"
     || EditorOps.startsWith driveLink "https://" = true)
  ∧ EditorOps.src <$> EditorOps.imageRequest escape (Some driveLink)
    = Some (Grid.getImageUrl escape driveLink)
  ∧ Grid.getImageUrl escape driveLink
    = "/api/proxy-image?url=https%3A%2F%2Fdrive.google.com%2Ffile%2Fd%2F1AbC_d-9%2Fview".
Proof.
  assert (Hlink : driveLink ≠ "") by discriminate.
  split; [split; [exact Hlink|reflexivity]|].
  destruct (grid_and_editor_share_proxy_address escape driveLink Hlink eq_refl)
    as [Hdrive _].
  split; [apply Hdrive; reflexivity|reflexivity].
Defined.

End MoreInstances.
